(** * leojam-studio: scheduling, transport and automation

    A shallow embedding of the audio engine (the [AudioEngine] class) and of
    the playback-affecting actions of the store ([useDAWStore]), together
    with the properties of the scheduling subsystem.

    Numbers.  Every TypeScript [number] that carries musical time, seconds,
    a velocity or a normalised value is a rational ([Q]); equality of such
    numbers is [Qeq] (written [==]).  Rounding of IEEE doubles is outside the
    model.  Array indices and counts are [nat].

    Maps.  The engine's [Map<string, _>] fields are [gmap string _].

    Effects.  The engine is a record that every method takes and returns;
    a store action takes and returns a [World] (the store together with the
    engine singleton it drives).  The third-party scheduler is represented
    by the data the engine hands to it: the event arrays of the parts, the
    timeline of the transport with the event ids it returned, the event id
    counter, and the transport's state and position. *)

From Stdlib Require Import QArith Qminmax Qround Lqa Sorted Permutation.
From stdpp Require Import gmap strings list fin_maps pretty.

Local Open Scope Q_scope.

(** ** Data model ([types/index.ts]) *)

(** [Note] is the template-literal type of pitch names such as C4. *)
Abbreviation Note := string.

(** [AutomationPoint.curve]: 'linear' | 'exponential' | 'step'. *)
Inductive Curve : Type := Linear | Exponential | Step.

(** [AutomationTarget]. *)
Inductive AutomationTarget : Type :=
  TVolume | TPan | TMute | TEffectWet | TEffectParam | TTempo.

Definition isTempo (p : AutomationTarget) : bool :=
  match p with TTempo => true | _ => false end.

(** [AutomationPoint]: [{id, time, value, curve}]. *)
Record AutomationPoint : Type := mkPoint {
  ap_id : string;
  ap_time : Q;
  ap_value : Q;
  ap_curve : Curve
}.

(** [AutomationLane]. *)
Record AutomationLane : Type := mkLane {
  lane_id : string;
  targetTrackId : string;
  targetParam : AutomationTarget;
  targetEffectId : option string;
  targetEffectParam : option string;
  points : list AutomationPoint;
  enabled : bool;
  lane_color : string
}.

(** ** Automation interpolation ([AudioEngine.interpolateAutomation]) *)

(** The [for] loop of [interpolateAutomation]: the first index [i] with
    [time >= points[i].time && time < points[i+1].time] selects the segment;
    when no index qualifies the initial pair is kept. *)
Fixpoint findSegment (pts : list AutomationPoint) (time : Q)
    (dflt : AutomationPoint * AutomationPoint) : AutomationPoint * AutomationPoint :=
  match pts with
  | a :: ((b :: _) as rest) =>
      if Qle_bool (ap_time a) time && negb (Qle_bool (ap_time b) time)
      then (a, b)
      else findSegment rest time dflt
  | _ => dflt
  end.

Definition interpolateAutomation (pts : list AutomationPoint) (time : Q) : Q :=
  match pts with
  | [] => 1 # 2
  | [p] => ap_value p
  | p0 :: p1 :: _ =>
      if Qle_bool time (ap_time p0) then ap_value p0
      else
        let pl := List.last pts p0 in
        if Qle_bool (ap_time pl) time then ap_value pl
        else
          let '(startPoint, endPoint) := findSegment pts time (p0, p1) in
          let t := (time - ap_time startPoint) / (ap_time endPoint - ap_time startPoint) in
          match ap_curve startPoint with
          | Step => ap_value startPoint
          | Exponential =>
              ap_value startPoint + (ap_value endPoint - ap_value startPoint) * (t * t)
          | Linear =>
              ap_value startPoint + (ap_value endPoint - ap_value startPoint) * t
          end
  end.

(** [AudioEngine.getAutomationValueAtTime]. *)
Definition getAutomationValueAtTime (lane : AutomationLane) (time : Q) : Q :=
  interpolateAutomation (points lane) time.

(** The lane invariant of the data model: points in ascending time order. *)
Definition sortedByTime (pts : list AutomationPoint) : Prop :=
  Sorted (fun a b => ap_time a <= ap_time b) pts.

(** The value the contract prescribes on the segment from [a] to [b]. *)
Definition segmentValue (a b : AutomationPoint) (t : Q) : Q :=
  let frac := (t - ap_time a) / (ap_time b - ap_time a) in
  match ap_curve a with
  | Linear => ap_value a + (ap_value b - ap_value a) * frac
  | Exponential => ap_value a + (ap_value b - ap_value a) * (frac * frac)
  | Step => ap_value a
  end.

(** ** Remaining entities of the data model *)

(** [MidiNote]: [{id, note, startTime, duration, velocity}]. *)
Record MidiNote : Type := mkNote {
  mn_id : string;
  mn_note : Note;
  mn_startTime : Q;
  mn_duration : Q;
  mn_velocity : Q
}.

(** [Pattern]. *)
Record Pattern : Type := mkPattern {
  pat_id : string;
  pat_name : string;
  pat_color : string;
  pat_length : Q;
  notes : list MidiNote;
  pat_instrumentId : string
}.

(** [Clip]; [patternId] and [audioBufferId] are optional fields. *)
Record Clip : Type := mkClip {
  clip_id : string;
  patternId : option string;
  audioBufferId : option string;
  clip_startTime : Q;
  clip_duration : Q;
  clip_offset : Q;
  clip_color : string;
  clip_name : string
}.

Inductive TrackType : Type := AudioTrack | MidiTrack | AutomationTrack.

(** [Track]; [instrumentId] is optional. *)
Record Track : Type := mkTrack {
  track_id : string;
  track_name : string;
  track_type : TrackType;
  track_color : string;
  volume : Q;
  pan : Q;
  mute : bool;
  solo : bool;
  armed : bool;
  clips : list Clip;
  effectIds : list string;
  track_instrumentId : option string
}.

Inductive InstrumentType : Type := Synth | SamplerType | Drumkit.

(** [Instrument]; the untyped settings bag is not read by the scheduler. *)
Record Instrument : Type := mkInstrument {
  inst_id : string;
  inst_name : string;
  inst_type : InstrumentType
}.

(** [Project]. *)
Record Project : Type := mkProject {
  proj_id : string;
  proj_name : string;
  proj_bpm : Q;
  timeSignature : nat * nat;
  proj_tracks : list Track;
  proj_patterns : list Pattern;
  proj_instruments : list Instrument;
  proj_effects : list string;
  proj_masterVolume : Q;
  proj_automationLanes : list AutomationLane
}.

(** [TransportState] of the store. *)
Record TransportState : Type := mkTransportState {
  isPlaying : bool;
  isRecording : bool;
  currentBeat : Q;
  loopStart : Q;
  loopEnd : Q;
  loopEnabled : bool
}.

(** [StepSequencerStep]; [roll] is optional (1 | 2 | 3 | 4). *)
Record StepSequencerStep : Type := mkStep {
  active : bool;
  step_velocity : Q;
  step_note : Note;
  roll : option nat
}.

Record StepSequencerRow : Type := mkRow {
  row_id : string;
  row_name : string;
  row_note : Note;
  row_steps : list StepSequencerStep
}.

Record StepSequencerPattern : Type := mkStepPattern {
  ssp_id : string;
  ssp_name : string;
  steps : nat;
  rows : list StepSequencerRow;
  ssp_instrumentId : string;
  swing : Q
}.

(** ** JavaScript idioms used by the engine and the store *)

(** [arr.forEach(f)] where [f] mutates state of type [S]. *)
Definition forEach {A St : Type} (f : A -> St -> St) (l : list A) (s : St) : St :=
  fold_left (fun acc x => f x acc) l s.

(** [arr.forEach((x, index) => ...)]. *)
Fixpoint forEachFrom {A St : Type} (f : A -> nat -> St -> St) (l : list A)
    (index : nat) (s : St) : St :=
  match l with
  | [] => s
  | x :: l' => forEachFrom f l' (S index) (f x index s)
  end.

Definition forEachIndexed {A St : Type} (f : A -> nat -> St -> St) (l : list A)
    (s : St) : St :=
  forEachFrom f l 0%nat s.

(** [arr.find(pred)] followed by a mutation of the element found: the first
    element satisfying [pred] is replaced in place. *)
Fixpoint updateFirst {A : Type} (pred : A -> bool) (f : A -> A) (l : list A) : list A :=
  match l with
  | [] => []
  | x :: l' => if pred x then f x :: l' else x :: updateFirst pred f l'
  end.

(** Truthiness of an optional string: [undefined] and the empty string are
    falsy. *)
Definition truthy (o : option string) : bool :=
  match o with
  | Some s => negb (String.eqb s "")
  | None => false
  end.

(** [o || ''] for an optional string. *)
Definition orEmpty (o : option string) : string :=
  match o with
  | Some s => s
  | None => ""%string
  end.

(** [x || d] for a number: zero is falsy. *)
Definition orNumber (x d : Q) : Q := if Qeq_bool x 0 then d else x.

(** [x === o] between a string and an optional string. *)
Definition optEqb (o : option string) (x : string) : bool :=
  match o with
  | Some s => String.eqb s x
  | None => false
  end.

(** [Math.max(lo, Math.min(hi, x))]. *)
Definition clamp (lo hi x : Q) : Q := Qmax lo (Qmin hi x).

(** [arr.sort(cmp)]: the sort is stable, and with a comparator that is a
    difference of keys its result is the stable ordering by key; it is
    computed here by stable insertion. *)
Fixpoint sortInsert {A : Type} (cmp : A -> A -> Q) (x : A) (l : list A) : list A :=
  match l with
  | [] => [x]
  | y :: l' =>
      if Qle_bool (cmp x y) 0 then x :: y :: l' else y :: sortInsert cmp x l'
  end.

Definition jsSort {A : Type} (cmp : A -> A -> Q) (l : list A) : list A :=
  fold_right (sortInsert cmp) [] l.

(** A natural number used as a JavaScript number. *)
Definition ofNat (n : nat) : Q := inject_Z (Z.of_nat n).

(** ** The scheduling backend as seen by the engine *)

(** Handles of backend objects held in the engine's maps. *)
Inductive ToneInstrument : Type := PolySynth | Sampler.
Inductive ToneChannel : Type := Channel.
Inductive ToneBuffer : Type := Buffer.
Inductive ToneEffect : Type := EffectNode.

(** [ClipNoteEvent], the element type of a playlist part. *)
Record ClipNoteEvent : Type := mkClipNoteEvent {
  cne_time : Q;
  cne_note : Note;
  cne_duration : Q;
  cne_velocity : Q
}.

(** A [Tone.Part] built by [schedulePlaylist]: its event array and the key
    of the instrument its callback triggers; it is started at 0.  The part
    owns the transport events of its array: they exist while the part does
    and go with it when it is disposed. *)
Record PlaylistPart : Type := mkPlaylistPart {
  pp_instrument : string;
  pp_events : list ClipNoteEvent
}.

(** A [Tone.Player] built by [schedulePlaylist]: buffer, channel, and the
    start time in seconds. *)
Record Player : Type := mkPlayer {
  pl_buffer : string;
  pl_channel : string;
  pl_start : Q
}.

(** [StepEvent], the element type of the step-sequencer part. *)
Record StepEvent : Type := mkStepEvent {
  se_time : Q;
  se_note : Note;
  se_velocity : Q
}.

(** The [Tone.Part] built by [scheduleStepSequencer].  A looping part
    takes event ids from the transport again and again while it repeats;
    which ids is not tracked, and nothing below depends on them. *)
Record StepPart : Type := mkStepPart {
  sp_instrument : string;
  sp_events : list StepEvent;
  sp_loop : bool;
  sp_loopEnd : Q
}.

(** What a callback passed to [Tone.Transport.schedule] does when it fires. *)
Inductive TransportAction : Type :=
  | TriggerAttackRelease (instrument : string) (note : Note) (durationBeats velocity : Q)
  | ParamSet (param : AutomationTarget) (track : string) (effect : option string) (value : Q).

(** The time argument of [Tone.Transport.schedule]: seconds, or the
    bars:beats:sixteenths string [`0:${beats}:0`]. *)
Inductive TransportTime : Type :=
  | Seconds (s : Q)
  | ZeroBeatsZero (beats : Q).

Record TimelineEvent : Type := mkTimelineEvent {
  te_id : nat;
  te_time : TransportTime;
  te_action : TransportAction
}.

Inductive PlaybackState : Type := Started | Paused | Stopped.

(** [Tone.Transport], the backend clock and scheduler: its state, its
    position in beats, the events the engine scheduled on it through
    [Tone.Transport.schedule], and the next event id.  [schedule] returns a
    fresh id, [clear(id)] removes that event, [cancel()] removes every
    event; [start] and [pause] leave the position where it is, and the
    position moves with time only while the transport is started. *)
Record ToneTransport : Type := mkTransport {
  tt_state : PlaybackState;
  tt_position : Q;
  tt_timeline : list TimelineEvent;
  tt_nextId : nat
}.

Definition transportSchedule (tr : ToneTransport) (time : TransportTime)
    (action : TransportAction) : nat * ToneTransport :=
  (tt_nextId tr,
   mkTransport (tt_state tr) (tt_position tr)
     (tt_timeline tr ++ [mkTimelineEvent (tt_nextId tr) time action])
     (S (tt_nextId tr))).

Definition transportClear (id : nat) (tr : ToneTransport) : ToneTransport :=
  mkTransport (tt_state tr) (tt_position tr)
    (List.filter (fun e => negb (Nat.eqb (te_id e) id)) (tt_timeline tr))
    (tt_nextId tr).

Definition transportCancel (tr : ToneTransport) : ToneTransport :=
  mkTransport (tt_state tr) (tt_position tr) [] (tt_nextId tr).

(** Starting a [Tone.Part] or a synced [Tone.Player] puts its events on the
    transport as well: the backend hands out one event id per event of the
    part, and one for the player's start.  These events belong to the part
    (the player) and are listed with it, not in [tt_timeline]; on the
    transport they only move the id counter on. *)
Definition transportReserve (n : nat) (tr : ToneTransport) : ToneTransport :=
  mkTransport (tt_state tr) (tt_position tr) (tt_timeline tr) (tt_nextId tr + n).

(** The clock: while the transport is started its position advances with
    the time that passes ([beats], measured in beats); paused or stopped it
    stays where it is. *)
Definition transportElapse (beats : Q) (tr : ToneTransport) : ToneTransport :=
  match tt_state tr with
  | Started =>
      mkTransport Started (tt_position tr + beats) (tt_timeline tr) (tt_nextId tr)
  | _ => tr
  end.

Definition transportStart (tr : ToneTransport) : ToneTransport :=
  mkTransport Started (tt_position tr) (tt_timeline tr) (tt_nextId tr).

Definition transportPause (tr : ToneTransport) : ToneTransport :=
  match tt_state tr with
  | Started => mkTransport Paused (tt_position tr) (tt_timeline tr) (tt_nextId tr)
  | _ => tr
  end.

Definition transportStop (tr : ToneTransport) : ToneTransport :=
  mkTransport Stopped 0 (tt_timeline tr) (tt_nextId tr).

Definition transportSetPosition (beats : Q) (tr : ToneTransport) : ToneTransport :=
  mkTransport (tt_state tr) beats (tt_timeline tr) (tt_nextId tr).

(** ** The audio engine ([class AudioEngine]) *)

Record AudioEngine : Type := mkEngine {
  instruments : gmap string ToneInstrument;
  effects : gmap string ToneEffect;
  trackChannels : gmap string ToneChannel;
  audioBuffers : gmap string ToneBuffer;
  audioPlayers : list Player;
  stepSequencerPart : option StepPart;
  scheduledEventIds : list nat;
  playlistParts : list PlaylistPart;
  automationEventIds : list nat;
  toneTransport : ToneTransport
}.

Definition setInstruments (m : gmap string ToneInstrument) (e : AudioEngine) : AudioEngine :=
  mkEngine m (effects e) (trackChannels e) (audioBuffers e) (audioPlayers e)
    (stepSequencerPart e) (scheduledEventIds e) (playlistParts e)
    (automationEventIds e) (toneTransport e).

Definition setAudioPlayers (ps : list Player) (e : AudioEngine) : AudioEngine :=
  mkEngine (instruments e) (effects e) (trackChannels e) (audioBuffers e) ps
    (stepSequencerPart e) (scheduledEventIds e) (playlistParts e)
    (automationEventIds e) (toneTransport e).

Definition setStepSequencerPart (sp : option StepPart) (e : AudioEngine) : AudioEngine :=
  mkEngine (instruments e) (effects e) (trackChannels e) (audioBuffers e)
    (audioPlayers e) sp (scheduledEventIds e) (playlistParts e)
    (automationEventIds e) (toneTransport e).

Definition setScheduledEventIds (ids : list nat) (e : AudioEngine) : AudioEngine :=
  mkEngine (instruments e) (effects e) (trackChannels e) (audioBuffers e)
    (audioPlayers e) (stepSequencerPart e) ids (playlistParts e)
    (automationEventIds e) (toneTransport e).

Definition setPlaylistParts (ps : list PlaylistPart) (e : AudioEngine) : AudioEngine :=
  mkEngine (instruments e) (effects e) (trackChannels e) (audioBuffers e)
    (audioPlayers e) (stepSequencerPart e) (scheduledEventIds e) ps
    (automationEventIds e) (toneTransport e).

Definition setAutomationEventIds (ids : list nat) (e : AudioEngine) : AudioEngine :=
  mkEngine (instruments e) (effects e) (trackChannels e) (audioBuffers e)
    (audioPlayers e) (stepSequencerPart e) (scheduledEventIds e) (playlistParts e)
    ids (toneTransport e).

Definition setToneTransport (tr : ToneTransport) (e : AudioEngine) : AudioEngine :=
  mkEngine (instruments e) (effects e) (trackChannels e) (audioBuffers e)
    (audioPlayers e) (stepSequencerPart e) (scheduledEventIds e) (playlistParts e)
    (automationEventIds e) tr.

Module Engine.

(** [play()], [pause()], [stop()], [setPosition(beats)]. *)
Definition play (e : AudioEngine) : AudioEngine :=
  setToneTransport (transportStart (toneTransport e)) e.

Definition pause (e : AudioEngine) : AudioEngine :=
  setToneTransport (transportPause (toneTransport e)) e.

Definition stop (e : AudioEngine) : AudioEngine :=
  setToneTransport
    (transportSetPosition 0 (transportStop (toneTransport e))) e.

Definition setPosition (beats : Q) (e : AudioEngine) : AudioEngine :=
  setToneTransport (transportSetPosition beats (toneTransport e)) e.

(** [removeInstrument(instrumentId)]: dispose and delete when present. *)
Definition removeInstrument (instrumentId : string) (e : AudioEngine) : AudioEngine :=
  match instruments e !! instrumentId with
  | Some _ => setInstruments (delete instrumentId (instruments e)) e
  | None => e
  end.

End Engine.

(** ** Time base *)

(** The local [beatsToSeconds] of [schedulePlaylist] and of
    [scheduleAutomation]: [(beats) => (60 / bpm) * beats]. *)
Definition beatsToSeconds (bpm beats : Q) : Q := (60 / bpm) * beats.

(** The inverse conversion, as [addAudioClipFromSample] computes a duration
    in beats from a duration in seconds: [(durationInSeconds / 60) * bpm]. *)
Definition secondsToBeats (bpm seconds : Q) : Q := (seconds / 60) * bpm.

(** ** Pattern scheduling ([schedulePattern]) *)

Definition schedulePatternNote (instrumentId : string) (startTime : Q)
    (midiNote : MidiNote) (e : AudioEngine) : AudioEngine :=
  let noteTime := startTime + mn_startTime midiNote in
  let noteDuration := mn_duration midiNote in
  let velocity := mn_velocity midiNote / 127 in
  let '(_, tr) :=
    transportSchedule (toneTransport e) (ZeroBeatsZero noteTime)
      (TriggerAttackRelease instrumentId (mn_note midiNote) noteDuration velocity) in
  setToneTransport tr e.

Definition schedulePattern (pattern : Pattern) (startTime : Q) (e : AudioEngine)
    : AudioEngine :=
  match instruments e !! pat_instrumentId pattern with
  | None => e
  | Some _ =>
      forEach (schedulePatternNote (pat_instrumentId pattern) startTime)
        (notes pattern) e
  end.

(** [clearScheduledEvents()]. *)
Definition clearScheduledEvents (e : AudioEngine) : AudioEngine :=
  setToneTransport (transportCancel (toneTransport e)) e.

(** ** Step sequencer ([scheduleStepSequencer]) *)

Definition clearStepSequencer (e : AudioEngine) : AudioEngine :=
  let e1 := setStepSequencerPart None e in
  let tr := forEach transportClear (scheduledEventIds e1) (toneTransport e1) in
  setScheduledEventIds [] (setToneTransport tr e1).

Definition stepDurationOf (bpm : Q) : Q := 60 / bpm / 4.

(** [step.roll || 1]. *)
Definition rollCountOf (step : StepSequencerStep) : nat :=
  match roll step with
  | Some (S n) => S n
  | _ => 1%nat
  end.

(** The loop [for (let r = 0; r < rollCount; r++) events.push(...)], with
    [remaining] iterations to go from counter [r]. *)
Fixpoint rollLoop (remaining r : nat) (baseTime rollDuration : Q) (note : Note)
    (velocity : Q) (events : list StepEvent) : list StepEvent :=
  match remaining with
  | O => events
  | S remaining' =>
      rollLoop remaining' (S r) baseTime rollDuration note velocity
        (events ++ [mkStepEvent (baseTime + ofNat r * rollDuration) note velocity])
  end.

(** The body of [row.steps.forEach((step, stepIndex) => ...)]. *)
Definition scheduleStep (stepDuration swingAmount : Q) (row : StepSequencerRow)
    (step : StepSequencerStep) (stepIndex : nat) (events : list StepEvent)
    : list StepEvent :=
  if active step then
    let isOffbeat := Nat.eqb (stepIndex mod 2) 1 in
    let swingOffset := if isOffbeat then stepDuration * swingAmount * (1 # 2) else 0 in
    let baseTime := ofNat stepIndex * stepDuration + swingOffset in
    let rollCount := rollCountOf step in
    let rollDuration := stepDuration / ofNat rollCount in
    rollLoop rollCount 0 baseTime rollDuration (row_note row)
      (step_velocity step / 127) events
  else events.

Definition stepSequencerEvents (pattern : StepSequencerPattern) (bpm : Q)
    : list StepEvent :=
  let stepDuration := stepDurationOf bpm in
  let swingAmount := orNumber (swing pattern) 0 / 100 in
  forEach
    (fun row events =>
       forEachIndexed (scheduleStep stepDuration swingAmount row) (row_steps row) events)
    (rows pattern) [].

Definition scheduleStepSequencer (pattern : StepSequencerPattern) (bpm : Q)
    (e : AudioEngine) : AudioEngine :=
  let e1 := clearStepSequencer e in
  match instruments e1 !! ssp_instrumentId pattern with
  | None => e1
  | Some _ =>
      let stepDuration := stepDurationOf bpm in
      let events := stepSequencerEvents pattern bpm in
      setStepSequencerPart
        (Some (mkStepPart (ssp_instrumentId pattern) events true
                 (ofNat (steps pattern) * stepDuration)))
        e1
  end.

(** What one step contributes, as the code computes it. *)
Definition codeStepHits (stepDuration swingAmount : Q) (row : StepSequencerRow)
    (i : nat) (step : StepSequencerStep) : list StepEvent :=
  scheduleStep stepDuration swingAmount row step i [].

(** ** Automation scheduling ([scheduleAutomation], [clearAutomation]) *)

Definition clearAutomation (e : AudioEngine) : AudioEngine :=
  let tr := forEach transportClear (automationEventIds e) (toneTransport e) in
  setAutomationEventIds [] (setToneTransport tr e).

Definition scheduleAutomationPoint (bpm : Q) (lane : AutomationLane)
    (point : AutomationPoint) (e : AudioEngine) : AudioEngine :=
  let timeInSeconds := beatsToSeconds bpm (ap_time point) in
  let '(eventId, tr) :=
    transportSchedule (toneTransport e) (Seconds timeInSeconds)
      (ParamSet (targetParam lane) (targetTrackId lane) (targetEffectId lane)
         (ap_value point)) in
  setAutomationEventIds (automationEventIds e ++ [eventId]) (setToneTransport tr e).

Definition scheduleLane (bpm : Q) (lane : AutomationLane) (e : AudioEngine)
    : AudioEngine :=
  if negb (enabled lane) || Nat.eqb (length (points lane)) 0 then e
  else
    let channel := trackChannels e !! targetTrackId lane in
    if negb (bool_decide (is_Some channel)) && negb (isTempo (targetParam lane)) then e
    else forEach (scheduleAutomationPoint bpm lane) (points lane) e.

Definition scheduleAutomation (lanes : list AutomationLane) (_tracks : list Track)
    (bpm : Q) (e : AudioEngine) : AudioEngine :=
  forEach (scheduleLane bpm) lanes (clearAutomation e).

(** ** Playlist scheduling ([schedulePlaylist], [clearPlaylist]) *)

Definition clearPlaylist (e : AudioEngine) : AudioEngine :=
  clearAutomation (setAudioPlayers [] (setPlaylistParts [] e)).

(** The body of [pattern.notes.forEach] inside [schedulePlaylist]. *)
Definition pushClipNote (bpm : Q) (clip : Clip) (midiNote : MidiNote)
    (events : list ClipNoteEvent) : list ClipNoteEvent :=
  let noteTime := beatsToSeconds bpm (clip_startTime clip + mn_startTime midiNote) in
  events ++ [mkClipNoteEvent noteTime (mn_note midiNote)
               (beatsToSeconds bpm (mn_duration midiNote))
               (mn_velocity midiNote / 127)].

(** The body of [track.clips.forEach]; [channel] is the track's channel,
    looked up once per track.  [player.sync().start(...)] and
    [part.start(0)] take event ids from the transport. *)
Definition scheduleClip (patterns : list Pattern) (bpm : Q) (track : Track)
    (channel : option ToneChannel) (clip : Clip) (e : AudioEngine) : AudioEngine :=
  if truthy (audioBufferId clip) then
    match audioBuffers e !! orEmpty (audioBufferId clip), channel with
    | Some _, Some _ =>
        setAudioPlayers
          (audioPlayers e ++
             [mkPlayer (orEmpty (audioBufferId clip)) (track_id track)
                (beatsToSeconds bpm (clip_startTime clip))])
          (setToneTransport (transportReserve 1 (toneTransport e)) e)
    | _, _ => e
    end
  else if truthy (patternId clip) then
    match List.find (fun p => optEqb (patternId clip) (pat_id p)) patterns,
          instruments e !! orEmpty (track_instrumentId track) with
    | Some pattern, Some _ =>
        let events := forEach (pushClipNote bpm clip) (notes pattern) [] in
        if Nat.ltb 0 (length events) then
          setPlaylistParts
            (playlistParts e ++ [mkPlaylistPart (orEmpty (track_instrumentId track)) events])
            (setToneTransport (transportReserve (length events) (toneTransport e)) e)
        else e
    | _, _ => e
    end
  else e.

(** The body of [tracks.forEach]. *)
Definition scheduleTrack (patterns : list Pattern) (bpm : Q) (track : Track)
    (e : AudioEngine) : AudioEngine :=
  if mute track then e
  else
    let channel := trackChannels e !! track_id track in
    forEach (scheduleClip patterns bpm track channel) (clips track) e.

Definition schedulePlaylist (tracks : list Track) (patterns : list Pattern)
    (bpm : Q) (e : AudioEngine) : AudioEngine :=
  forEach (scheduleTrack patterns bpm) tracks (clearPlaylist e).

(** *** What a playlist build adds, entity by entity

    [schedulePlaylist] only ever appends to [playlistParts] and
    [audioPlayers], taking event ids as it does; the functions below name
    what one clip and one track append, read off the branches of
    [scheduleClip] and [scheduleTrack]. *)

(** The event ids that starting [parts] and [players] takes. *)
Definition eventCount (parts : list PlaylistPart) (players : list Player) : nat :=
  length (List.flat_map pp_events parts) + length players.

Definition addSchedule (parts : list PlaylistPart) (players : list Player)
    (e : AudioEngine) : AudioEngine :=
  setAudioPlayers (audioPlayers e ++ players)
    (setPlaylistParts (playlistParts e ++ parts)
       (setToneTransport
          (transportReserve (eventCount parts players) (toneTransport e)) e)).

Definition clipParts (e : AudioEngine) (patterns : list Pattern) (bpm : Q)
    (track : Track) (clip : Clip) : list PlaylistPart :=
  if truthy (audioBufferId clip) then []
  else if truthy (patternId clip) then
    match List.find (fun p => optEqb (patternId clip) (pat_id p)) patterns,
          instruments e !! orEmpty (track_instrumentId track) with
    | Some pattern, Some _ =>
        let events := forEach (pushClipNote bpm clip) (notes pattern) [] in
        if Nat.ltb 0 (length events)
        then [mkPlaylistPart (orEmpty (track_instrumentId track)) events]
        else []
    | _, _ => []
    end
  else [].

Definition clipPlayers (e : AudioEngine) (bpm : Q) (track : Track)
    (channel : option ToneChannel) (clip : Clip) : list Player :=
  if truthy (audioBufferId clip) then
    match audioBuffers e !! orEmpty (audioBufferId clip), channel with
    | Some _, Some _ =>
        [mkPlayer (orEmpty (audioBufferId clip)) (track_id track)
           (beatsToSeconds bpm (clip_startTime clip))]
    | _, _ => []
    end
  else [].

Definition trackParts (e : AudioEngine) (patterns : list Pattern) (bpm : Q)
    (track : Track) : list PlaylistPart :=
  if mute track then []
  else List.flat_map (clipParts e patterns bpm track) (clips track).

Definition trackPlayers (e : AudioEngine) (bpm : Q) (track : Track) : list Player :=
  if mute track then []
  else
    List.flat_map (clipPlayers e bpm track (trackChannels e !! track_id track))
      (clips track).

(** Two engines with the same registered instruments, buffers and channels. *)
Definition sameMaps (e e' : AudioEngine) : Prop :=
  instruments e = instruments e' /\
  audioBuffers e = audioBuffers e' /\
  trackChannels e = trackChannels e'.

(** The part events of an engine, tagged with their instrument, in the
    order of the parts and of their arrays. *)
Definition scheduledNotes (e : AudioEngine) : list (string * ClipNoteEvent) :=
  List.flat_map (fun part => List.map (pair (pp_instrument part)) (pp_events part))
    (playlistParts e).

(** ** The store ([useDAWStore]) *)

(** The slices of the store that the modelled actions read or write. *)
Record DAWState : Type := mkState {
  project : Project;
  transport : TransportState;
  stepSequencerPatterns : list StepSequencerPattern
}.

(** The store together with the engine singleton its actions call. *)
Record World : Type := mkWorld {
  store : DAWState;
  audioEngine : AudioEngine
}.

Definition setProject (pr : Project) (st : DAWState) : DAWState :=
  mkState pr (transport st) (stepSequencerPatterns st).

Definition setTransport (t : TransportState) (st : DAWState) : DAWState :=
  mkState (project st) t (stepSequencerPatterns st).

Definition setIsPlaying (b : bool) (t : TransportState) : TransportState :=
  mkTransportState b (isRecording t) (currentBeat t) (loopStart t) (loopEnd t)
    (loopEnabled t).

Definition setCurrentBeat (beats : Q) (t : TransportState) : TransportState :=
  mkTransportState (isPlaying t) (isRecording t) beats (loopStart t) (loopEnd t)
    (loopEnabled t).

Definition setPatterns (ps : list Pattern) (pr : Project) : Project :=
  mkProject (proj_id pr) (proj_name pr) (proj_bpm pr) (timeSignature pr)
    (proj_tracks pr) ps (proj_instruments pr) (proj_effects pr)
    (proj_masterVolume pr) (proj_automationLanes pr).

Definition setTracks (ts : list Track) (pr : Project) : Project :=
  mkProject (proj_id pr) (proj_name pr) (proj_bpm pr) (timeSignature pr)
    ts (proj_patterns pr) (proj_instruments pr) (proj_effects pr)
    (proj_masterVolume pr) (proj_automationLanes pr).

Definition setInstrumentList (insts : list Instrument) (pr : Project) : Project :=
  mkProject (proj_id pr) (proj_name pr) (proj_bpm pr) (timeSignature pr)
    (proj_tracks pr) (proj_patterns pr) insts (proj_effects pr)
    (proj_masterVolume pr) (proj_automationLanes pr).

Definition setAutomationLanes (ls : list AutomationLane) (pr : Project) : Project :=
  mkProject (proj_id pr) (proj_name pr) (proj_bpm pr) (timeSignature pr)
    (proj_tracks pr) (proj_patterns pr) (proj_instruments pr) (proj_effects pr)
    (proj_masterVolume pr) ls.

Definition setNotes (ns : list MidiNote) (p : Pattern) : Pattern :=
  mkPattern (pat_id p) (pat_name p) (pat_color p) (pat_length p) ns
    (pat_instrumentId p).

Definition setInstrumentId (i : option string) (t : Track) : Track :=
  mkTrack (track_id t) (track_name t) (track_type t) (track_color t) (volume t)
    (pan t) (mute t) (solo t) (armed t) (clips t) (effectIds t) i.

Definition setSolo (b : bool) (t : Track) : Track :=
  mkTrack (track_id t) (track_name t) (track_type t) (track_color t) (volume t)
    (pan t) (mute t) b (armed t) (clips t) (effectIds t) (track_instrumentId t).

Definition setPoints (pts : list AutomationPoint) (l : AutomationLane) : AutomationLane :=
  mkLane (lane_id l) (targetTrackId l) (targetParam l) (targetEffectId l)
    (targetEffectParam l) pts (enabled l) (lane_color l).

Definition setMute (b : bool) (t : Track) : Track :=
  mkTrack (track_id t) (track_name t) (track_type t) (track_color t) (volume t)
    (pan t) b (solo t) (armed t) (clips t) (effectIds t) (track_instrumentId t).

Definition setClips (cs : list Clip) (t : Track) : Track :=
  mkTrack (track_id t) (track_name t) (track_type t) (track_color t) (volume t)
    (pan t) (mute t) (solo t) (armed t) cs (effectIds t) (track_instrumentId t).

(** The solo policy as the specification words it: when some track is solo,
    every non-solo track counts as muted. *)
Definition spec_soloPolicy (tracks : list Track) : list Track :=
  if List.existsb solo tracks
  then List.map (fun t => if solo t then t else setMute true t) tracks
  else tracks.

(** The solo claim for one build: the parts built are those of the policy's
    track list. *)
Definition soloPolicyHolds (tracks : list Track) (patterns : list Pattern) (bpm : Q)
    (e : AudioEngine) : Prop :=
  playlistParts (schedulePlaylist tracks patterns bpm e) =
  playlistParts (schedulePlaylist (spec_soloPolicy tracks) patterns bpm e).

(** A pattern clip that cannot be scheduled on its track: it names no audio
    buffer, and its pattern is not among [patterns] or the track's
    instrument is not registered. *)
Definition danglingClip (e : AudioEngine) (patterns : list Pattern) (track : Track)
    (clip : Clip) : Prop :=
  truthy (audioBufferId clip) = false /\
  (List.find (fun p => optEqb (patternId clip) (pat_id p)) patterns = None \/
   instruments e !! orEmpty (track_instrumentId track) = None).

(** A lane that automates a track parameter of a track without channel. *)
Definition danglingLane (e : AudioEngine) (lane : AutomationLane) : Prop :=
  trackChannels e !! targetTrackId lane = None /\ targetParam lane <> TTempo.

(** [Omit<MidiNote, 'id'>], the argument of [addNote]. *)
Record NoteFields : Type := mkNoteFields {
  nf_note : Note;
  nf_startTime : Q;
  nf_duration : Q;
  nf_velocity : Q
}.

(** [Partial<MidiNote>], the argument of [updateNote]. *)
Record NoteUpdates : Type := mkNoteUpdates {
  nu_id : option string;
  nu_note : option Note;
  nu_startTime : option Q;
  nu_duration : option Q;
  nu_velocity : option Q
}.

(** [Partial<AutomationPoint>], the argument of [updateAutomationPoint]. *)
Record PointUpdates : Type := mkPointUpdates {
  pu_id : option string;
  pu_time : option Q;
  pu_value : option Q;
  pu_curve : option Curve
}.

(** [Object.assign(note, updates)]. *)
Definition assignNote (updates : NoteUpdates) (n : MidiNote) : MidiNote :=
  mkNote (default (mn_id n) (nu_id updates))
    (default (mn_note n) (nu_note updates))
    (default (mn_startTime n) (nu_startTime updates))
    (default (mn_duration n) (nu_duration updates))
    (default (mn_velocity n) (nu_velocity updates)).

(** [Object.assign(point, updates)]. *)
Definition assignPoint (updates : PointUpdates) (p : AutomationPoint) : AutomationPoint :=
  mkPoint (default (ap_id p) (pu_id updates))
    (default (ap_time p) (pu_time updates))
    (default (ap_value p) (pu_value updates))
    (default (ap_curve p) (pu_curve updates)).

(** The comparator [(a, b) => a.time - b.time]. *)
Definition byTime (a b : AutomationPoint) : Q := ap_time a - ap_time b.

Module Store.

(** [play]: rebuild the playlist and the automation, then start. *)
Definition play (w : World) : World :=
  let state := store w in
  let pr := project state in
  let e1 := schedulePlaylist (proj_tracks pr) (proj_patterns pr) (proj_bpm pr)
              (audioEngine w) in
  let e2 := scheduleAutomation (proj_automationLanes pr) (proj_tracks pr)
              (proj_bpm pr) e1 in
  let e3 := Engine.play e2 in
  mkWorld (setTransport (setIsPlaying true (transport state)) state) e3.

Definition pause (w : World) : World :=
  let state := store w in
  mkWorld (setTransport (setIsPlaying false (transport state)) state)
    (Engine.pause (audioEngine w)).

Definition stop (w : World) : World :=
  let state := store w in
  mkWorld
    (setTransport (setCurrentBeat 0 (setIsPlaying false (transport state))) state)
    (clearPlaylist (Engine.stop (audioEngine w))).

(** [addNote(patternId, note)]; [newId] is the id drawn by [uuidv4()]. *)
Definition addNote (newId : string) (patternId : string) (note : NoteFields)
    (w : World) : World :=
  let state := store w in
  let pr := project state in
  let push (pattern : Pattern) :=
    setNotes
      (notes pattern ++
         [mkNote newId (nf_note note) (nf_startTime note) (nf_duration note)
            (nf_velocity note)])
      pattern in
  mkWorld
    (setProject
       (setPatterns
          (updateFirst (fun p => String.eqb (pat_id p) patternId) push
             (proj_patterns pr))
          pr)
       state)
    (audioEngine w).

(** [updateNote(patternId, noteId, updates)]. *)
Definition updateNote (patternId noteId : string) (updates : NoteUpdates)
    (w : World) : World :=
  let state := store w in
  let pr := project state in
  let upd (pattern : Pattern) :=
    setNotes
      (updateFirst (fun n => String.eqb (mn_id n) noteId) (assignNote updates)
         (notes pattern))
      pattern in
  mkWorld
    (setProject
       (setPatterns
          (updateFirst (fun p => String.eqb (pat_id p) patternId) upd
             (proj_patterns pr))
          pr)
       state)
    (audioEngine w).

(** [removeInstrument(instrumentId)]. *)
Definition removeInstrument (instrumentId : string) (w : World) : World :=
  let state := store w in
  let pr := project state in
  let e := Engine.removeInstrument instrumentId (audioEngine w) in
  let pr1 :=
    setInstrumentList
      (List.filter (fun i => negb (String.eqb (inst_id i) instrumentId))
         (proj_instruments pr))
      pr in
  let pr2 :=
    setPatterns
      (List.filter (fun p => negb (String.eqb (pat_instrumentId p) instrumentId))
         (proj_patterns pr1))
      pr1 in
  let pr3 :=
    setTracks
      (List.map
         (fun track =>
            if optEqb (track_instrumentId track) instrumentId
            then setInstrumentId None track else track)
         (proj_tracks pr2))
      pr2 in
  mkWorld (setProject pr3 state) e.

(** [addAutomationPoint(laneId, time, value, curve)]; [newId] is the id
    drawn by [uuidv4()], which the action also returns. *)
Definition addAutomationPoint (newId : string) (laneId : string) (time value : Q)
    (curve : Curve) (w : World) : string * World :=
  let state := store w in
  let pr := project state in
  let point := mkPoint newId time (clamp 0 1 value) curve in
  let add (lane : AutomationLane) :=
    setPoints (jsSort byTime (points lane ++ [point])) lane in
  (newId,
   mkWorld
     (setProject
        (setAutomationLanes
           (updateFirst (fun l => String.eqb (lane_id l) laneId) add
              (proj_automationLanes pr))
           pr)
        state)
     (audioEngine w)).

(** [removeAutomationPoint(laneId, pointId)]. *)
Definition removeAutomationPoint (laneId pointId : string) (w : World) : World :=
  let state := store w in
  let pr := project state in
  let remove (lane : AutomationLane) :=
    setPoints
      (List.filter (fun p => negb (String.eqb (ap_id p) pointId)) (points lane))
      lane in
  mkWorld
    (setProject
       (setAutomationLanes
          (updateFirst (fun l => String.eqb (lane_id l) laneId) remove
             (proj_automationLanes pr))
          pr)
       state)
    (audioEngine w).

(** The mutation [updateAutomationPoint] applies to the point it found. *)
Definition updatePoint (updates : PointUpdates) (point : AutomationPoint)
    : AutomationPoint :=
  let assigned := assignPoint updates point in
  match pu_value updates with
  | Some _ =>
      mkPoint (ap_id assigned) (ap_time assigned)
        (clamp 0 1 (ap_value assigned)) (ap_curve assigned)
  | None => assigned
  end.

(** [updateAutomationPoint(laneId, pointId, updates)]. *)
Definition updateAutomationPoint (laneId pointId : string) (updates : PointUpdates)
    (w : World) : World :=
  let state := store w in
  let pr := project state in
  let isPoint (p : AutomationPoint) := String.eqb (ap_id p) pointId in
  let upd (lane : AutomationLane) :=
    match List.find isPoint (points lane) with
    | Some _ =>
        setPoints
          (jsSort byTime (updateFirst isPoint (updatePoint updates) (points lane)))
          lane
    | None => lane
    end in
  mkWorld
    (setProject
       (setAutomationLanes
          (updateFirst (fun l => String.eqb (lane_id l) laneId) upd
             (proj_automationLanes pr))
          pr)
       state)
    (audioEngine w).

End Store.

(** ** The step pattern expander as the specification words it *)

(** Two step events agree when their times and velocities are equal as
    numbers and their notes are the same. *)
Definition stepEventEq (x y : StepEvent) : Prop :=
  se_time x == se_time y /\ se_note x = se_note y /\ se_velocity x == se_velocity y.

(** Base time of step [i]: [i * stepDuration], plus
    [stepDuration * (s / 100) * 0.5] when [i] is odd. *)
Definition spec_baseTime (stepDuration s : Q) (i : nat) : Q :=
  if Nat.odd i
  then ofNat i * stepDuration + stepDuration * (s / 100) * (1 # 2)
  else ofNat i * stepDuration.

(** The roll [r] of a step as the specification reads it: the step's
    [roll] field, and 1 (no roll) for a step that carries none. *)
Definition spec_roll (step : StepSequencerStep) : nat :=
  match roll step with
  | Some r => r
  | None => 1%nat
  end.

(** The rolls the data model admits: 1, 2, 3 or 4, or none. *)
Definition rollInRange (step : StepSequencerStep) : Prop :=
  match roll step with
  | Some r => (1 <= r <= 4)%nat
  | None => True
  end.

Definition rollsInRange (pattern : StepSequencerPattern) : Prop :=
  List.Forall (fun row => List.Forall rollInRange (row_steps row)) (rows pattern).

(** The hits of one step: none when inactive, otherwise [r] hits, hit [k]
    at [baseTime + k * (stepDuration / r)], each with the step's velocity
    (on the engine's 0..1 scale, that is divided by 127) and the row's note. *)
Definition spec_stepHits (stepDuration s : Q) (row : StepSequencerRow) (i : nat)
    (step : StepSequencerStep) : list StepEvent :=
  if active step then
    let r := spec_roll step in
    List.map
      (fun k =>
         mkStepEvent (spec_baseTime stepDuration s i + ofNat k * (stepDuration / ofNat r))
           (row_note row) (step_velocity step / 127))
      (seq 0 r)
  else [].

(** Concatenation, in index order from [i], of what [f] yields per element. *)
Fixpoint flatMapFrom {A B : Type} (f : nat -> A -> list B) (l : list A) (i : nat)
    : list B :=
  match l with
  | [] => []
  | x :: l' => f i x ++ flatMapFrom f l' (S i)
  end.

Definition spec_patternHits (pattern : StepSequencerPattern) (bpm : Q) : list StepEvent :=
  let stepDuration := 60 / bpm / 4 in
  List.flat_map
    (fun row => flatMapFrom (spec_stepHits stepDuration (swing pattern) row) (row_steps row) 0)
    (rows pattern).

(** The expander's contract for one call of [scheduleStepSequencer]: a
    looping part exists whose events are the specified hits and whose loop
    period is [steps * stepDuration]. *)
Definition stepPatternScheduled (pattern : StepSequencerPattern) (bpm : Q)
    (e : AudioEngine) : Prop :=
  exists part,
    stepSequencerPart (scheduleStepSequencer pattern bpm e) = Some part /\
    Forall2 stepEventEq (sp_events part) (spec_patternHits pattern bpm) /\
    sp_loop part = true /\
    sp_loopEnd part == ofNat (steps pattern) * (60 / bpm / 4).

(** ** Invariants of stored lanes and notes *)

(** A point's value is normalised. *)
Definition valueInRange (p : AutomationPoint) : Prop := 0 <= ap_value p /\ ap_value p <= 1.

(** The lane invariant: ascending times and normalised values. *)
Definition laneInvariant (lane : AutomationLane) : Prop :=
  sortedByTime (points lane) /\ List.Forall valueInRange (points lane).

Definition lanesInvariant (w : World) : Prop :=
  List.Forall laneInvariant (proj_automationLanes (project (store w))).

(** The note invariant: velocity in [0,127] and positive duration. *)
Definition noteInvariant (n : MidiNote) : Prop :=
  0 <= mn_velocity n /\ mn_velocity n <= 127 /\ 0 < mn_duration n.

Definition notesInvariant (w : World) : Prop :=
  List.Forall (fun p => List.Forall noteInvariant (notes p))
    (proj_patterns (project (store w))).

(** The lane, respectively the pattern, that an action looking for [id]
    finds. *)
Definition findLane (id : string) (w : World) : option AutomationLane :=
  List.find (fun l => String.eqb (lane_id l) id) (proj_automationLanes (project (store w))).

Definition findPattern (id : string) (w : World) : option Pattern :=
  List.find (fun p => String.eqb (pat_id p) id) (proj_patterns (project (store w))).

(** ** Pause and resume *)

(** The points of a lane that an automation build submits: none for a lane
    that is disabled or skipped, all of them otherwise. *)
Definition lanePoints (e : AudioEngine) (lane : AutomationLane) : list AutomationPoint :=
  if negb (enabled lane) || Nat.eqb (length (points lane)) 0 then []
  else if negb (bool_decide (is_Some (trackChannels e !! targetTrackId lane)))
          && negb (isTempo (targetParam lane)) then []
  else points lane.

(** Two engines whose transport has the same state and position. *)
Definition sameClock (e e' : AudioEngine) : Prop :=
  tt_state (toneTransport e) = tt_state (toneTransport e') /\
  tt_position (toneTransport e) = tt_position (toneTransport e').

(** Time passing for a world: the backend clock runs for [beats] beats;
    nothing else changes. *)
Definition elapse (beats : Q) (w : World) : World :=
  mkWorld (store w)
    (setToneTransport (transportElapse beats (toneTransport (audioEngine w)))
       (audioEngine w)).

(** The resume claim for a playing world: pausing and playing again leaves
    the submitted events - the transport's timeline with its event ids, the
    automation ids the engine holds, the parts and the players - and the
    position as they were. *)
Definition resumeKeepsSchedule (playing : World) : Prop :=
  let resumed := Store.play (Store.pause playing) in
  tt_timeline (toneTransport (audioEngine resumed)) =
    tt_timeline (toneTransport (audioEngine playing)) /\
  automationEventIds (audioEngine resumed) = automationEventIds (audioEngine playing) /\
  playlistParts (audioEngine resumed) = playlistParts (audioEngine playing) /\
  audioPlayers (audioEngine resumed) = audioPlayers (audioEngine playing) /\
  tt_position (toneTransport (audioEngine resumed)) ==
    tt_position (toneTransport (audioEngine playing)).

(** ** Concrete data used by the examples *)

(** The lane [(0, 0.2, linear), (4, 0.8, linear)]. *)
Definition lane_0_4 : AutomationLane :=
  mkLane "lane" "track" TVolume None None
    [mkPoint "a" 0 (2 # 10) Linear; mkPoint "b" 4 (8 # 10) Linear] true "#fff".

(** The lane [(0, 0.0, step), (4, 1.0, linear)]. *)
Definition lane_step : AutomationLane :=
  mkLane "lane" "track" TVolume None None
    [mkPoint "a" 0 0 Step; mkPoint "b" 4 1 Linear] true "#fff".

(** The lane [(0, 0.0, exponential), (2, 1.0, linear), (4, 0.0, linear)]. *)
Definition lane_exp : AutomationLane :=
  mkLane "lane" "track" TVolume None None
    [mkPoint "a" 0 0 Exponential; mkPoint "b" 2 1 Linear; mkPoint "c" 4 0 Linear]
    true "#fff".

(** An engine with nothing registered and nothing scheduled. *)
Definition emptyEngine : AudioEngine :=
  mkEngine ∅ ∅ ∅ ∅ [] None [] [] [] (mkTransport Stopped 0 [] 0).

(** A one-row step pattern with a single active step, rolled three times. *)
Definition tripletPattern : StepSequencerPattern :=
  mkStepPattern "sp3" "Step Pattern 2" 16
    [mkRow "r" "E2" "E2" [mkStep true 127 "E2" (Some 3%nat)]] "drums" 0.

(** A one-row step pattern bound to instrument [inst]: step 0 is active with
    a roll of 2, step 1 is active without roll. *)
Definition twoStepPattern (inst : string) : StepSequencerPattern :=
  mkStepPattern "sp" "Step Pattern 1" 16
    [mkRow "r" "C4" "C4" [mkStep true 100 "C4" (Some 2%nat); mkStep true 100 "C4" None]]
    inst 50.

Definition drumEngine : AudioEngine :=
  setInstruments (<["drums" := Sampler]> ∅) emptyEngine.

(** Two MIDI tracks, each with one pattern clip of one note: the lead track
    is solo, the bass track is neither solo nor muted. *)
Definition leadPattern : Pattern :=
  mkPattern "p-lead" "Pattern 1" "#f00" 16 [mkNote "n1" "C4" 0 1 100] "lead".

Definition bassPattern : Pattern :=
  mkPattern "p-bass" "Pattern 2" "#0f0" 16 [mkNote "n2" "C2" 0 2 90] "bass".

Definition patternClip (id pattern : string) (start : Q) : Clip :=
  mkClip id (Some pattern) None start 4 0 "#888" "clip".

Definition leadTrack : Track :=
  mkTrack "t-lead" "Track 1" MidiTrack "#f00" (8 # 10) 0 false true false
    [patternClip "c1" "p-lead" 0] [] (Some "lead"%string).

Definition bassTrack : Track :=
  mkTrack "t-bass" "Track 2" MidiTrack "#0f0" (8 # 10) 0 false false false
    [patternClip "c2" "p-bass" 0] [] (Some "bass"%string).

Definition bandEngine : AudioEngine :=
  setInstruments (<["lead" := PolySynth]> (<["bass" := PolySynth]> ∅)) emptyEngine.

(** A tempo lane whose target track has no channel. *)
Definition tempoLane : AutomationLane :=
  mkLane "lane-t" "ghost-track" TTempo None None [mkPoint "p" 0 (1 # 2) Linear]
    true "#fff".

(** A volume lane whose target track has no channel. *)
Definition ghostVolumeLane : AutomationLane :=
  mkLane "lane-v" "ghost-track" TVolume None None [mkPoint "q" 0 (1 # 2) Linear]
    true "#fff".

(** An audio clip on a track bound to an instrument that is not registered;
    the buffer and the track's channel exist. *)
Definition kickClip : Clip :=
  mkClip "c-kick" None (Some "kick"%string) 0 4 0 "#888" "kick.wav".

Definition audioTrackGhostInstrument : Track :=
  mkTrack "t-audio" "Audio" AudioTrack "#00f" (8 # 10) 0 false false false
    [kickClip] [] (Some "ghost"%string).

Definition sampleEngine : AudioEngine :=
  mkEngine ∅ ∅ (<["t-audio" := Channel]> ∅) (<["kick" := Buffer]> ∅) [] None [] [] []
    (mkTransport Stopped 0 [] 0).

(** A clip that names a pattern that does not exist. *)
Definition ghostClip : Clip := patternClip "c-ghost" "p-ghost" 2.

(** [createDefaultTransport()]. *)
Definition defaultTransport : TransportState :=
  mkTransportState false false 0 0 16 false.

(** A project with the two tracks, their patterns and instruments, and a
    tempo lane; the engine has both instruments registered. *)
Definition bandProject : Project :=
  mkProject "proj" "Untitled Project" 120 (4%nat, 4%nat)
    [leadTrack; bassTrack] [leadPattern; bassPattern]
    [mkInstrument "lead" "Synth 1" Synth; mkInstrument "bass" "Synth 2" Synth]
    [] (8 # 10) [tempoLane].

Definition bandWorld : World :=
  mkWorld (mkState bandProject defaultTransport []) bandEngine.

(** ** Further engine methods *)

(** Event ids are never reused: every event on the timeline carries an id
    below the next id the transport will hand out. *)
Definition transportWellFormed (tr : ToneTransport) : Prop :=
  List.Forall (fun ev => (te_id ev < tt_nextId tr)%nat) (tt_timeline tr).

(** Timeline events for a list of submissions, with consecutive ids from
    [n]. *)
Fixpoint stampFrom (n : nat) (evs : list (TransportTime * TransportAction))
    : list TimelineEvent :=
  match evs with
  | [] => []
  | (time, action) :: rest => mkTimelineEvent n time action :: stampFrom (S n) rest
  end.

(** What an automation build submits for one lane. *)
Definition laneEvents (bpm : Q) (e : AudioEngine) (lane : AutomationLane)
    : list (TransportTime * TransportAction) :=
  List.map
    (fun point =>
       (Seconds (beatsToSeconds bpm (ap_time point)),
        ParamSet (targetParam lane) (targetTrackId lane) (targetEffectId lane)
          (ap_value point)))
    (lanePoints e lane).

(** What [schedulePattern] submits for one note. *)
Definition patternNoteEvent (instrumentId : string) (startTime : Q) (midiNote : MidiNote)
    : TransportTime * TransportAction :=
  (ZeroBeatsZero (startTime + mn_startTime midiNote),
   TriggerAttackRelease instrumentId (mn_note midiNote) (mn_duration midiNote)
     (mn_velocity midiNote / 127)).

(** *** Offline rendering ([renderOffline])

    The callback given to [Tone.Offline] fills a fresh context: the synths
    it creates, keyed by instrument id, the events it hands to the offline
    transport - [oe_time] is the time argument of [transport.schedule], in
    seconds - and the offline transport's tempo and state.  The tempo is
    set, and the transport started, only after every event was handed
    over. *)
Record OfflineEvent : Type := mkOfflineEvent {
  oe_time : Q;
  oe_synth : string;
  oe_note : Note;
  oe_duration : Q;
  oe_velocity : Q
}.

Record OfflineContext : Type := mkOfflineContext {
  offlineInstruments : gset string;
  offlineSchedule : list OfflineEvent;
  offlineBpm : Q;
  offlineState : PlaybackState
}.

(** The tempo of a transport that was just created (the backend's
    default). *)
Definition defaultBpm : Q := 120.

Definition offlineScheduleNote (bpm : Q) (synth : string) (clip : Clip)
    (midiNote : MidiNote) (ctx : OfflineContext) : OfflineContext :=
  let noteTime := (60 / bpm) * (clip_startTime clip + mn_startTime midiNote) in
  let noteDuration := (60 / bpm) * mn_duration midiNote in
  let velocity := mn_velocity midiNote / 127 in
  mkOfflineContext (offlineInstruments ctx)
    (offlineSchedule ctx ++
       [mkOfflineEvent noteTime synth (mn_note midiNote) noteDuration velocity])
    (offlineBpm ctx) (offlineState ctx).

Definition offlineScheduleClip (patterns : list Pattern) (bpm : Q) (synth : string)
    (clip : Clip) (ctx : OfflineContext) : OfflineContext :=
  match List.find (fun p => optEqb (patternId clip) (pat_id p)) patterns with
  | None => ctx
  | Some pattern => forEach (offlineScheduleNote bpm synth clip) (notes pattern) ctx
  end.

Definition offlineScheduleTrack (patterns : list Pattern) (bpm : Q) (track : Track)
    (ctx : OfflineContext) : OfflineContext :=
  if mute track || negb (truthy (track_instrumentId track)) then ctx
  else
    let synth := orEmpty (track_instrumentId track) in
    let ctx1 :=
      if bool_decide (synth ∈ offlineInstruments ctx) then ctx
      else
        mkOfflineContext ({[synth]} ∪ offlineInstruments ctx) (offlineSchedule ctx)
          (offlineBpm ctx) (offlineState ctx) in
    forEach (offlineScheduleClip patterns bpm synth) (clips track) ctx1.

(** [renderOffline(tracks, patterns, bpm, duration)]: the context that is
    rendered for [duration] seconds.  After the loop over the tracks come
    [transport.bpm.value = bpm] and [transport.start()]. *)
Definition renderOffline (tracks : list Track) (patterns : list Pattern) (bpm : Q)
    (duration : Q) : OfflineContext * Q :=
  let ctx :=
    forEach (offlineScheduleTrack patterns bpm) tracks
      (mkOfflineContext ∅ [] defaultBpm Stopped) in
  (mkOfflineContext (offlineInstruments ctx) (offlineSchedule ctx) bpm Started, duration).

(** *** WAV export ([Toolbar.handleExportWav]) *)

(** [project.tracks.some(t => t.clips.some(c => pattern && pattern.notes.length > 0))]. *)
Definition hasNotes (pr : Project) : bool :=
  List.existsb
    (fun t =>
       List.existsb
         (fun c =>
            match List.find (fun p => optEqb (patternId c) (pat_id p)) (proj_patterns pr) with
            | Some pattern => Nat.ltb 0 (length (notes pattern))
            | None => false
            end)
         (clips t))
    (proj_tracks pr).

(** The loop that finds the end of the last note, in beats. *)
Definition maxEndNote (clip : Clip) (note : MidiNote) (maxEndTime : Q) : Q :=
  let noteEnd := clip_startTime clip + mn_startTime note + mn_duration note in
  if negb (Qle_bool noteEnd maxEndTime) then noteEnd else maxEndTime.

Definition maxEndClip (patterns : list Pattern) (clip : Clip) (maxEndTime : Q) : Q :=
  match List.find (fun p => optEqb (patternId clip) (pat_id p)) patterns with
  | Some pattern => forEach (maxEndNote clip) (notes pattern) maxEndTime
  | None => maxEndTime
  end.

Definition maxEndTimeOf (pr : Project) : Q :=
  forEach (fun track => forEach (maxEndClip (proj_patterns pr)) (clips track))
    (proj_tracks pr) 0.

(** [handleExportWav]: nothing is rendered when the project has no notes
    (or an export is running); otherwise the project is rendered offline
    for the time of its last note end plus two beats. *)
Definition handleExportWav (isExporting : bool) (pr : Project)
    : option (OfflineContext * Q) :=
  if isExporting then None
  else if negb (hasNotes pr) then None
  else
    let durationSeconds := (60 / proj_bpm pr) * (maxEndTimeOf pr + 2) in
    Some (renderOffline (proj_tracks pr) (proj_patterns pr) (proj_bpm pr) durationSeconds).

(** A clip of a track of the project, and the pattern its [patternId]
    finds. *)
Definition resolvesTo (pr : Project) (track : Track) (clip : Clip) (pattern : Pattern)
    : Prop :=
  In track (proj_tracks pr) /\ In clip (clips track) /\
  List.find (fun p => optEqb (patternId clip) (pat_id p)) (proj_patterns pr) = Some pattern.

(** ** Further store actions *)

Definition setStepSequencerPatterns (ps : list StepSequencerPattern) (st : DAWState)
    : DAWState :=
  mkState (project st) (transport st) ps.

Definition setEnabled (b : bool) (l : AutomationLane) : AutomationLane :=
  mkLane (lane_id l) (targetTrackId l) (targetParam l) (targetEffectId l)
    (targetEffectParam l) (points l) b (lane_color l).

Definition setRows (rs : list StepSequencerRow) (p : StepSequencerPattern)
    : StepSequencerPattern :=
  mkStepPattern (ssp_id p) (ssp_name p) (steps p) rs (ssp_instrumentId p) (swing p).

Definition setSwing (s : Q) (p : StepSequencerPattern) : StepSequencerPattern :=
  mkStepPattern (ssp_id p) (ssp_name p) (steps p) (rows p) (ssp_instrumentId p) s.

Definition setRowSteps (ss : list StepSequencerStep) (r : StepSequencerRow)
    : StepSequencerRow :=
  mkRow (row_id r) (row_name r) (row_note r) ss.

(** The view slice of the store ([ViewState]). *)
Inductive ViewName : Type :=
  ViewPlaylist | ViewPianoRoll | ViewMixer | ViewStepSequencer | ViewBrowser
  | ViewAutomation.

Record ViewState : Type := mkView {
  currentView : ViewName;
  selectedTrackId : option string;
  selectedPatternId : option string;
  selectedClipId : option string;
  zoom : Q;
  scrollX : Q;
  scrollY : Q
}.

Definition setSelectedPatternId (o : option string) (v : ViewState) : ViewState :=
  mkView (currentView v) (selectedTrackId v) o (selectedClipId v) (zoom v)
    (scrollX v) (scrollY v).

Module StoreMore.

(** [removeNote(patternId, noteId)]. *)
Definition removeNote (patternId noteId : string) (w : World) : World :=
  let state := store w in
  let pr := project state in
  let remove (pattern : Pattern) :=
    setNotes (List.filter (fun n => negb (String.eqb (mn_id n) noteId)) (notes pattern))
      pattern in
  mkWorld
    (setProject
       (setPatterns
          (updateFirst (fun p => String.eqb (pat_id p) patternId) remove
             (proj_patterns pr))
          pr)
       state)
    (audioEngine w).

(** [removePattern(patternId)]; the action also writes the view slice.
    (The argument is called [removedId] here, [patternId] being the clip's
    field.) *)
Definition removePattern (removedId : string) (wv : World * ViewState)
    : World * ViewState :=
  let '(w, view) := wv in
  let state := store w in
  let pr := project state in
  let pr1 :=
    setPatterns
      (List.filter (fun p => negb (String.eqb (pat_id p) removedId)) (proj_patterns pr))
      pr in
  let pr2 :=
    setTracks
      (List.map
         (fun track =>
            setClips
              (List.filter (fun c => negb (optEqb (patternId c) removedId)) (clips track))
              track)
         (proj_tracks pr1))
      pr1 in
  (mkWorld (setProject pr2 state) (audioEngine w),
   if optEqb (selectedPatternId view) removedId
   then setSelectedPatternId None view else view).

(** [toggleAutomationLane(laneId)]. *)
Definition toggleAutomationLane (laneId : string) (w : World) : World :=
  let state := store w in
  let pr := project state in
  mkWorld
    (setProject
       (setAutomationLanes
          (updateFirst (fun l => String.eqb (lane_id l) laneId)
             (fun lane => setEnabled (negb (enabled lane)) lane)
             (proj_automationLanes pr))
          pr)
       state)
    (audioEngine w).

(** [addStepSequencerPattern(instrumentId, steps = 16)]; [newId] and
    [rowId i] are the ids drawn by [uuidv4()] for the pattern and for its
    [i]-th row.  The action also returns [newId]. *)
Definition defaultNotes : list Note :=
  ["C4"; "D4"; "E4"; "F4"; "G4"; "A4"; "B4"; "C5"]%string.

Definition emptySteps (n : nat) (note : Note) : list StepSequencerStep :=
  List.repeat (mkStep false 100 note None) n.

Definition addStepSequencerPattern (newId : string) (rowId : nat -> string)
    (instrumentId : string) (stepCount : option nat) (w : World) : string * World :=
  let state := store w in
  let n := default 16%nat stepCount in
  let newRows :=
    imap (fun i note => mkRow (rowId i) note note (emptySteps n note)) defaultNotes in
  let pattern :=
    mkStepPattern newId
      ("Step Pattern " +:+ pretty (length (stepSequencerPatterns state) + 1)%nat)
      n newRows instrumentId 0 in
  (newId,
   mkWorld (setStepSequencerPatterns (stepSequencerPatterns state ++ [pattern]) state)
     (audioEngine w)).

(** [updateStepSequencerStep(patternId, rowIndex, stepIndex, active,
    velocity = 100, roll?)]. *)
Definition updateStep (active' : bool) (velocity : option Q) (roll' : option nat)
    (step : StepSequencerStep) : StepSequencerStep :=
  mkStep active' (default 100 velocity) (step_note step)
    (match roll' with Some r => Some r | None => roll step end).

Definition updateStepSequencerStep (patternId : string) (rowIndex stepIndex : nat)
    (active' : bool) (velocity : option Q) (roll' : option nat) (w : World) : World :=
  let state := store w in
  let upd (pattern : StepSequencerPattern) :=
    match rows pattern !! rowIndex with
    | Some row =>
        match row_steps row !! stepIndex with
        | Some _ =>
            setRows
              (alter
                 (fun r =>
                    setRowSteps
                      (alter (updateStep active' velocity roll') stepIndex (row_steps r)) r)
                 rowIndex (rows pattern))
              pattern
        | None => pattern
        end
    | None => pattern
    end in
  mkWorld
    (setStepSequencerPatterns
       (updateFirst (fun p => String.eqb (ssp_id p) patternId) upd
          (stepSequencerPatterns state))
       state)
    (audioEngine w).

(** [setStepSequencerSwing(patternId, swing)]. *)
Definition setStepSequencerSwing (patternId : string) (s : Q) (w : World) : World :=
  let state := store w in
  mkWorld
    (setStepSequencerPatterns
       (updateFirst (fun p => String.eqb (ssp_id p) patternId)
          (setSwing (clamp 0 100 s)) (stepSequencerPatterns state))
       state)
    (audioEngine w).

(** [addStepSequencerRow(patternId, note, name)]; [newId] is the row's id. *)
Definition addStepSequencerRow (newId : string) (patternId : string) (note : Note)
    (name : string) (w : World) : World :=
  let state := store w in
  let add (pattern : StepSequencerPattern) :=
    setRows (rows pattern ++ [mkRow newId name note (emptySteps (steps pattern) note)])
      pattern in
  mkWorld
    (setStepSequencerPatterns
       (updateFirst (fun p => String.eqb (ssp_id p) patternId) add
          (stepSequencerPatterns state))
       state)
    (audioEngine w).

(** [removeStepSequencerRow(patternId, rowIndex)]: [rows.splice(rowIndex, 1)]
    for a row index counted from the start. *)
Definition removeStepSequencerRow (patternId : string) (rowIndex : nat) (w : World)
    : World :=
  let state := store w in
  mkWorld
    (setStepSequencerPatterns
       (updateFirst (fun p => String.eqb (ssp_id p) patternId)
          (fun pattern => setRows (delete rowIndex (rows pattern)) pattern)
          (stepSequencerPatterns state))
       state)
    (audioEngine w).

End StoreMore.

(** The grid of a step pattern: every row has exactly [steps] steps. *)
Definition gridInvariant (pattern : StepSequencerPattern) : Prop :=
  List.Forall (fun row => length (row_steps row) = steps pattern) (rows pattern).

Definition findStepPattern (id : string) (w : World) : option StepSequencerPattern :=
  List.find (fun p => String.eqb (ssp_id p) id) (stepSequencerPatterns (store w)).

(** ** Undo history ([HistoryManager], [saveHistory], [undo], [redo]) *)

Record HistoryState : Type := mkHistoryState {
  hs_project : Project;
  hs_stepSequencerPatterns : list StepSequencerPattern
}.

(** The two stacks are arrays: the top of a stack is its last element.
    States are pushed as deep copies, which for values is the identity. *)
Record HistoryManager : Type := mkHistory {
  undoStack : list HistoryState;
  redoStack : list HistoryState
}.

Definition maxHistorySize : nat := 50.

Module History.

Definition saveState (state : HistoryState) (h : HistoryManager) : HistoryManager :=
  let pushed := undoStack h ++ [state] in
  let trimmed :=
    if Nat.ltb maxHistorySize (length pushed) then List.tl pushed else pushed in
  mkHistory trimmed [].

Definition undo (currentState : HistoryState) (h : HistoryManager)
    : option HistoryState * HistoryManager :=
  if Nat.eqb (length (undoStack h)) 0 then (None, h)
  else
    (last (undoStack h),
     mkHistory (List.removelast (undoStack h)) (redoStack h ++ [currentState])).

Definition redo (currentState : HistoryState) (h : HistoryManager)
    : option HistoryState * HistoryManager :=
  if Nat.eqb (length (redoStack h)) 0 then (None, h)
  else
    (last (redoStack h),
     mkHistory (undoStack h ++ [currentState]) (List.removelast (redoStack h))).

Definition clear (h : HistoryManager) : HistoryManager := mkHistory [] [].

Definition canUndo (h : HistoryManager) : bool := Nat.ltb 0 (length (undoStack h)).

Definition canRedo (h : HistoryManager) : bool := Nat.ltb 0 (length (redoStack h)).

End History.

(** The store and engine together with the module-level history manager. *)
Record Session : Type := mkSession {
  world : World;
  historyManager : HistoryManager
}.

Definition currentHistoryState (w : World) : HistoryState :=
  mkHistoryState (project (store w)) (stepSequencerPatterns (store w)).

Definition restoreHistoryState (hs : HistoryState) (w : World) : World :=
  mkWorld
    (setStepSequencerPatterns (hs_stepSequencerPatterns hs)
       (setProject (hs_project hs) (store w)))
    (audioEngine w).

Module Sessions.

(** [saveHistory()]. *)
Definition saveHistory (s : Session) : Session :=
  mkSession (world s)
    (History.saveState (currentHistoryState (world s)) (historyManager s)).

(** The store's [undo] and [redo]. *)
Definition undo (s : Session) : Session :=
  match History.undo (currentHistoryState (world s)) (historyManager s) with
  | (Some previousState, h) => mkSession (restoreHistoryState previousState (world s)) h
  | (None, h) => mkSession (world s) h
  end.

Definition redo (s : Session) : Session :=
  match History.redo (currentHistoryState (world s)) (historyManager s) with
  | (Some nextState, h) => mkSession (restoreHistoryState nextState (world s)) h
  | (None, h) => mkSession (world s) h
  end.

(** An action of the store that starts with [saveHistory()]. *)
Definition recorded (action : World -> World) (s : Session) : Session :=
  let s1 := saveHistory s in
  mkSession (action (world s1)) (historyManager s1).

Definition addNote (newId patternId : string) (note : NoteFields) : Session -> Session :=
  recorded (Store.addNote newId patternId note).

Definition updateNote (patternId noteId : string) (updates : NoteUpdates)
    : Session -> Session :=
  recorded (Store.updateNote patternId noteId updates).

Definition removeNote (patternId noteId : string) : Session -> Session :=
  recorded (StoreMore.removeNote patternId noteId).

Definition removeInstrument (instrumentId : string) : Session -> Session :=
  recorded (Store.removeInstrument instrumentId).

End Sessions.

(** The size invariant of the history: the two stacks together never hold
    more than [maxHistorySize] states. *)
Definition historyBounded (h : HistoryManager) : Prop :=
  (length (undoStack h) + length (redoStack h) <= maxHistorySize)%nat.

(** ** The piano roll's edits ([PianoRoll.tsx]) *)

(** [Math.round(x)]: the nearest integer, halves rounded up. *)
Definition mathRound (x : Q) : Z := Qfloor (x + (1 # 2)).

Inductive DragType : Type := DragMove | DragResize | DragVelocity.

Inductive Tool : Type := Pencil | Select | Eraser.

(** [DragState]; [null] is [None]. *)
Record DragState : Type := mkDragState {
  ds_type : option DragType;
  ds_noteId : option string;
  ds_startX : Q;
  ds_startY : Q;
  ds_originalNote : option MidiNote
}.

Module PianoRoll.

Definition NOTE_HEIGHT : Q := 16.
Definition OCTAVES : nat := 7.
Definition NOTES_PER_OCTAVE : nat := 12.
Definition NOTE_NAMES : list string :=
  ["C"; "C#"; "D"; "D#"; "E"; "F"; "F#"; "G"; "G#"; "A"; "A#"; "B"]%string.

(** [allNotes]: the note names from the top of octave 7 down to the bottom
    of octave 1. *)
Definition allNotes : list Note :=
  List.flat_map
    (fun octave => List.map (fun name => name +:+ pretty octave) (List.rev NOTE_NAMES))
    (List.rev (seq 1 OCTAVES)).

(** [allNotes.findIndex(n => n.note === note)], -1 when absent. *)
Fixpoint findIndexFrom (note : Note) (l : list Note) (i : Z) : Z :=
  match l with
  | [] => (-1)%Z
  | x :: l' => if String.eqb x note then i else findIndexFrom note l' (i + 1)%Z
  end.

Definition findIndex (note : Note) : Z := findIndexFrom note allNotes 0%Z.

(** [getNoteFromY(y)]. *)
Definition getNoteFromY (y : Q) : Note :=
  let noteIndex := Qfloor (y / NOTE_HEIGHT) in
  if Z.leb 0 noteIndex && Z.ltb noteIndex (Z.of_nat (length allNotes))
  then default "C4"%string (allNotes !! Z.to_nat noteIndex)
  else "C4"%string.

(** [getSnapBeats()] for the current [snapValue]. *)
Definition snapMap (snapValue : string) : option Q :=
  if String.eqb snapValue "1/1" then Some 4
  else if String.eqb snapValue "1/2" then Some 2
  else if String.eqb snapValue "1/4" then Some 1
  else if String.eqb snapValue "1/8" then Some (1 # 2)
  else if String.eqb snapValue "1/16" then Some (1 # 4)
  else None.

Definition getSnapBeats (snapValue : string) : Q :=
  match snapMap snapValue with
  | Some beats => orNumber beats 1
  | None => 1
  end.

(** [updateNote(selectedPattern.id, dragState.noteId!, updates)]: with a
    [null] note id no note is found and nothing changes. *)
Definition updateDragged (selectedPattern : Pattern) (dragState : DragState)
    (updates : NoteUpdates) (w : World) : World :=
  match ds_noteId dragState with
  | Some noteId => Store.updateNote (pat_id selectedPattern) noteId updates w
  | None => w
  end.

(** [handleGridClick] with the pencil, for a click at grid coordinates
    [(x, y)] that did not hit a note; [newId] is the id [addNote] draws.
    The preview sound played afterwards ([playNote]) triggers the synth and
    changes neither the store nor anything the engine has scheduled. *)
Definition handleGridClick (newId : string) (selectedPattern : option Pattern)
    (tool : Tool) (snapValue : string) (beatWidth x y : Q) (w : World) : World :=
  match selectedPattern, tool with
  | Some pattern, Pencil =>
      let snapBeats := getSnapBeats snapValue in
      let rawBeat := x / beatWidth in
      let startBeat := inject_Z (Qfloor (rawBeat / snapBeats)) * snapBeats in
      let note := getNoteFromY y in
      Store.addNote newId (pat_id pattern) (mkNoteFields note startBeat snapBeats 100) w
  | _, _ => w
  end.

(** [handleMouseMove] while a note is dragged or resized. *)
Definition handleMouseMove (dragState : DragState) (selectedPattern : option Pattern)
    (snapValue : string) (beatWidth clientX clientY : Q) (w : World) : World :=
  match ds_type dragState, ds_originalNote dragState, selectedPattern with
  | Some dragType, Some originalNote, Some pattern =>
      let deltaX := clientX - ds_startX dragState in
      let deltaY := clientY - ds_startY dragState in
      let snapBeats := getSnapBeats snapValue in
      match dragType with
      | DragMove =>
          let deltaBeat := inject_Z (mathRound ((deltaX / beatWidth) / snapBeats)) * snapBeats in
          let deltaNote := mathRound (deltaY / NOTE_HEIGHT) in
          let newStartTime := Qmax 0 (mn_startTime originalNote + deltaBeat) in
          let noteIndex := findIndex (mn_note originalNote) in
          let newNoteIndex :=
            Z.max 0 (Z.min (Z.of_nat (length allNotes) - 1) (noteIndex + deltaNote)) in
          let newNote := default "C4"%string (allNotes !! Z.to_nat newNoteIndex) in
          updateDragged pattern dragState
            (mkNoteUpdates None (Some newNote) (Some newStartTime) None None) w
      | DragResize =>
          let deltaDuration :=
            inject_Z (mathRound ((deltaX / beatWidth) / snapBeats)) * snapBeats in
          let newDuration := Qmax snapBeats (mn_duration originalNote + deltaDuration) in
          updateDragged pattern dragState
            (mkNoteUpdates None None None (Some newDuration) None) w
      | DragVelocity => w
      end
  | _, _, _ => w
  end.

(** [handleVelocityMouseMove]. *)
Definition handleVelocityMouseMove (dragState : DragState)
    (selectedPattern : option Pattern) (clientY : Q) (w : World) : World :=
  match ds_type dragState, ds_originalNote dragState, selectedPattern with
  | Some DragVelocity, Some originalNote, Some pattern =>
      let deltaY := ds_startY dragState - clientY in
      let newVelocity := Qmax 1 (Qmin 127 (mn_velocity originalNote + deltaY)) in
      updateDragged pattern dragState
        (mkNoteUpdates None None None None (Some (inject_Z (mathRound newVelocity)))) w
  | _, _, _ => w
  end.

End PianoRoll.

(** ** What an offline render schedules, entity by entity *)

Definition offlineNoteEvent (bpm : Q) (synth : string) (clip : Clip) (midiNote : MidiNote)
    : OfflineEvent :=
  mkOfflineEvent ((60 / bpm) * (clip_startTime clip + mn_startTime midiNote)) synth
    (mn_note midiNote) ((60 / bpm) * mn_duration midiNote) (mn_velocity midiNote / 127).

Definition offlineClipEvents (patterns : list Pattern) (bpm : Q) (synth : string)
    (clip : Clip) : list OfflineEvent :=
  match List.find (fun p => optEqb (patternId clip) (pat_id p)) patterns with
  | None => []
  | Some pattern => List.map (offlineNoteEvent bpm synth clip) (notes pattern)
  end.

Definition offlineTrackEvents (patterns : list Pattern) (bpm : Q) (track : Track)
    : list OfflineEvent :=
  if mute track || negb (truthy (track_instrumentId track)) then []
  else
    List.flat_map (offlineClipEvents patterns bpm (orEmpty (track_instrumentId track)))
      (clips track).

(** An offline event read as a part event tagged with its instrument. *)
Definition offlineAsPartEvent (ev : OfflineEvent) : string * ClipNoteEvent :=
  (oe_synth ev,
   mkClipNoteEvent (oe_time ev) (oe_note ev) (oe_duration ev) (oe_velocity ev)).

(** A track that the realtime build and the offline render treat alike: if
    it is not muted, it is bound to an instrument registered in the engine,
    and its clips are pattern clips (no audio buffer, no empty pattern
    id). *)
Definition rendersAlike (e : AudioEngine) (track : Track) : Prop :=
  mute track = false ->
  truthy (track_instrumentId track) = true /\
  is_Some (instruments e !! orEmpty (track_instrumentId track)) /\
  List.Forall
    (fun c => truthy (audioBufferId c) = false /\ patternId c <> Some ""%string)
    (clips track).

(** ** Properties of the interpolator *)

Section Interpolation.

Implicit Types (pts : list AutomationPoint) (t : Q).

Lemma sortedByTime_strong pts :
  sortedByTime pts ->
  StronglySorted (fun a b => ap_time a <= ap_time b) pts.
Proof.
  apply Sorted_StronglySorted.
  intros x y z Hxy Hyz. eapply Qle_trans; eassumption.
Qed.

Lemma sorted_head_le_all pts p q :
  sortedByTime (p :: pts) -> In q pts -> ap_time p <= ap_time q.
Proof.
  intros Hs Hin. apply sortedByTime_strong in Hs.
  inversion Hs as [|? ? _ Hall]; subst.
  rewrite List.Forall_forall in Hall. now apply Hall.
Qed.

Lemma sortedByTime_tail pts p : sortedByTime (p :: pts) -> sortedByTime pts.
Proof. intros Hs. now inversion Hs. Qed.

Lemma sortedByTime_app_r l1 l2 : sortedByTime (l1 ++ l2) -> sortedByTime l2.
Proof.
  induction l1 as [|x l1 IH]; simpl; [easy|].
  intros Hs. apply IH. eapply sortedByTime_tail; eassumption.
Qed.

Lemma Qle_bool_false x y : Qle_bool x y = false <-> y < x.
Proof.
  split.
  - intros Hf. apply Qnot_le_lt. intros Hle.
    apply Qle_bool_iff in Hle. congruence.
  - intros Hlt. destruct (Qle_bool x y) eqn:E; [|reflexivity].
    apply Qle_bool_iff in E. exfalso. eapply Qlt_not_le; eassumption.
Qed.

Lemma findSegment_step a b rest t dflt :
  findSegment (a :: b :: rest) t dflt =
  if Qle_bool (ap_time a) t && negb (Qle_bool (ap_time b) t)
  then (a, b) else findSegment (b :: rest) t dflt.
Proof. reflexivity. Qed.

(** On a sorted lane the loop stops at the adjacent pair that encloses the
    query time. *)
Lemma findSegment_adjacent l1 a b l2 t dflt :
  sortedByTime (l1 ++ a :: b :: l2) ->
  ap_time a < t -> t < ap_time b ->
  findSegment (l1 ++ a :: b :: l2) t dflt = (a, b).
Proof.
  intros Hs Ha Hb. induction l1 as [|x l1 IH].
  - simpl.
    assert (Qle_bool (ap_time a) t = true) as ->
      by (apply Qle_bool_iff; now apply Qlt_le_weak).
    assert (Qle_bool (ap_time b) t = false) as ->
      by now apply Qle_bool_false.
    reflexivity.
  - assert (Hnext : exists y rest, l1 ++ a :: b :: l2 = y :: rest
                                   /\ ap_time y <= t).
    { destruct l1 as [|y l1'].
      - exists a, (b :: l2). split; [reflexivity | now apply Qlt_le_weak].
      - exists y, (l1' ++ a :: b :: l2). split; [reflexivity|].
        apply Qle_trans with (ap_time a); [|now apply Qlt_le_weak].
        apply sorted_head_le_all with (pts := l1' ++ a :: b :: l2).
        + eapply sortedByTime_tail; exact Hs.
        + apply in_or_app. right. now left. }
    destruct Hnext as (y & rest & Heq & Hy).
    change ((x :: l1) ++ a :: b :: l2) with (x :: (l1 ++ a :: b :: l2)).
    specialize (IH (sortedByTime_tail _ _ Hs)).
    rewrite Heq in *. rewrite findSegment_step.
    assert (Qle_bool (ap_time y) t = true) as -> by now apply Qle_bool_iff.
    rewrite andb_false_r. exact IH.
Qed.

Lemma last_skip_prefix pts (x d : AutomationPoint) rest :
  List.last (pts ++ x :: rest) d = List.last (x :: rest) d.
Proof.
  induction pts as [|y pts IH]; [reflexivity|].
  change ((y :: pts) ++ x :: rest) with (y :: (pts ++ x :: rest)).
  destruct (pts ++ x :: rest) as [|z tl] eqn:E.
  - destruct pts; discriminate E.
  - exact IH.
Qed.

Lemma last_cons_cases (x : AutomationPoint) rest d :
  List.last (x :: rest) d = x \/ In (List.last (x :: rest) d) rest.
Proof.
  revert x. induction rest as [|y rest IH]; intros x; [now left|].
  right. change (List.last (x :: y :: rest) d) with (List.last (y :: rest) d).
  destruct (IH y) as [-> | Hin]; [now left | now right].
Qed.

Lemma last_app_singleton pts (p d : AutomationPoint) :
  List.last (pts ++ [p]) d = p.
Proof. apply List.last_last. Qed.

(** Before (or at) the first point of a lane the first value is returned;
    no ordering of the points is needed for this. *)
Lemma interpolate_before_first p rest t :
  t <= ap_time p -> interpolateAutomation (p :: rest) t = ap_value p.
Proof.
  intros Hle. unfold interpolateAutomation.
  destruct rest as [|p1 rest]; [reflexivity|].
  apply Qle_bool_iff in Hle. now rewrite Hle.
Qed.

Lemma interpolate_after_last init p t :
  sortedByTime (init ++ [p]) -> ap_time p < t ->
  interpolateAutomation (init ++ [p]) t = ap_value p.
Proof.
  intros Hs Hlt. destruct init as [|p0 init]; [reflexivity|].
  assert (Hfirst : ap_time p0 < t).
  { apply Qle_lt_trans with (ap_time p); [|exact Hlt].
    apply sorted_head_le_all with (pts := init ++ [p]); [exact Hs|].
    apply in_or_app. right. now left. }
  change ((p0 :: init) ++ [p]) with (p0 :: (init ++ [p])) in *.
  unfold interpolateAutomation.
  destruct (init ++ [p]) as [|p1 tl] eqn:E.
  { destruct init; discriminate E. }
  apply Qle_bool_false in Hfirst. rewrite Hfirst.
  rewrite <- E.
  change (p0 :: init ++ [p]) with ((p0 :: init) ++ [p]).
  rewrite last_app_singleton.
  assert (Qle_bool (ap_time p) t = true) as ->
    by (apply Qle_bool_iff; now apply Qlt_le_weak).
  reflexivity.
Qed.

Lemma interpolate_between l1 a b l2 t :
  sortedByTime (l1 ++ a :: b :: l2) ->
  ap_time a < t -> t < ap_time b ->
  interpolateAutomation (l1 ++ a :: b :: l2) t = segmentValue a b t.
Proof.
  intros Hs Ha Hb.
  pose proof (findSegment_adjacent l1 a b l2 t) as Hseg.
  assert (Hshape : exists p0 p1 tl, l1 ++ a :: b :: l2 = p0 :: p1 :: tl).
  { destruct l1 as [|x [|y l1]]; simpl; eauto. }
  destruct Hshape as (p0 & p1 & tl & Heq).
  assert (Hp0 : ap_time p0 <= ap_time a).
  { destruct l1 as [|x l1]; simpl in Heq.
    - injection Heq as <- _ _. apply Qle_refl.
    - injection Heq as <- _.
      apply sorted_head_le_all with (pts := l1 ++ a :: b :: l2); [exact Hs|].
      apply in_or_app. right. now left. }
  assert (Hlast : ap_time b <= ap_time (List.last (l1 ++ a :: b :: l2) p0)).
  { pose proof (sortedByTime_app_r l1 _ Hs) as Hs'.
    apply sortedByTime_tail in Hs'.
    change (a :: b :: l2) with ([a] ++ b :: l2).
    rewrite List.app_assoc, last_skip_prefix.
    destruct (last_cons_cases b l2 p0) as [-> | Hin]; [apply Qle_refl|].
    now apply sorted_head_le_all with (pts := l2). }
  specialize (Hseg (p0, p1) Hs Ha Hb).
  rewrite Heq in *. unfold interpolateAutomation.
  assert (Qle_bool t (ap_time p0) = false) as ->.
  { apply Qle_bool_false. eapply Qle_lt_trans; eassumption. }
  assert (Qle_bool (ap_time (List.last (p0 :: p1 :: tl) p0)) t = false) as ->.
  { apply Qle_bool_false. eapply Qlt_le_trans; eassumption. }
  rewrite Hseg. unfold segmentValue. now destruct (ap_curve a).
Qed.

End Interpolation.

(** C1.  The piecewise contract of the interpolator, for every lane whose
    points are in ascending time order and every query time [t]: a lane
    without points yields 1/2; a lane with one point yields that point's
    value; a time before (or at) the first point yields the first value; a
    time after the last point yields the last value; and for [t] strictly
    between adjacent points [a] and [b], with
    [frac = (t - t0) / (t1 - t0)], the value is [v0 + (v1 - v0) * frac],
    [v0 + (v1 - v0) * frac^2] or [v0] according to the curve tag of the left
    point [a] (linear, exponential, step). *)
Theorem interpolateAutomation_contract (lane : AutomationLane) (t : Q) :
  sortedByTime (points lane) ->
  (points lane = [] -> getAutomationValueAtTime lane t == 1 # 2) /\
  (forall p, points lane = [p] -> getAutomationValueAtTime lane t == ap_value p) /\
  (forall p rest, points lane = p :: rest -> t <= ap_time p ->
     getAutomationValueAtTime lane t == ap_value p) /\
  (forall init p, points lane = init ++ [p] -> ap_time p < t ->
     getAutomationValueAtTime lane t == ap_value p) /\
  (forall l1 a b l2, points lane = l1 ++ a :: b :: l2 ->
     ap_time a < t -> t < ap_time b ->
     let frac := (t - ap_time a) / (ap_time b - ap_time a) in
     let v0 := ap_value a in
     let v1 := ap_value b in
     (ap_curve a = Linear ->
        getAutomationValueAtTime lane t == v0 + (v1 - v0) * frac) /\
     (ap_curve a = Exponential ->
        getAutomationValueAtTime lane t == v0 + (v1 - v0) * (frac * frac)) /\
     (ap_curve a = Step -> getAutomationValueAtTime lane t == v0)).
Proof.
  intros Hs. unfold getAutomationValueAtTime.
  split; [|split; [|split; [|split]]].
  - intros ->. reflexivity.
  - intros p ->. reflexivity.
  - intros p rest -> Hle. now rewrite interpolate_before_first.
  - intros init p Heq Hlt. rewrite Heq in *.
    now rewrite interpolate_after_last.
  - intros l1 a b l2 Heq Ha Hb. rewrite Heq in *.
    rewrite (interpolate_between l1 a b l2 t Hs Ha Hb).
    unfold segmentValue. cbv zeta.
    repeat split; intros ->; reflexivity.
Qed.

Lemma interpolateAutomation_contract_witness :
  sortedByTime (points lane_0_4) /\
  getAutomationValueAtTime lane_0_4 2 == 1 # 2.
Proof.
  assert (Hs : sortedByTime (points lane_0_4)).
  { repeat constructor. unfold Qle; simpl; lia. }
  split; [exact Hs|].
  destruct (interpolateAutomation_contract lane_0_4 2 Hs) as (_ & _ & _ & _ & Hmid).
  destruct (Hmid [] (mkPoint "a" 0 (2 # 10) Linear) (mkPoint "b" 4 (8 # 10) Linear) []
              eq_refl eq_refl eq_refl) as (Hlin & _ & _).
  rewrite (Hlin eq_refl). reflexivity.
Defined.

Example interpolate_step_holds :
  getAutomationValueAtTime lane_step (39 # 10) == 0.
Proof. reflexivity. Qed.

Example interpolate_exponential_quarter :
  getAutomationValueAtTime lane_exp 1 == 1 # 4.
Proof. reflexivity. Qed.

Example interpolate_second_segment :
  getAutomationValueAtTime lane_exp 3 == 1 # 2.
Proof. reflexivity. Qed.

Example interpolate_at_points :
  getAutomationValueAtTime lane_exp 0 == 0 /\
  getAutomationValueAtTime lane_exp 2 == 1 /\
  getAutomationValueAtTime lane_exp 4 == 0.
Proof. repeat split; reflexivity. Qed.

(** ** Time base *)

(** C3.  For [bpm > 0] and [beats >= 0] the conversion used by schedule
    building is [beats * 60 / bpm], and converting back with the inverse
    conversion at the same tempo returns [beats]. *)
Theorem beatsToSeconds_roundtrip (bpm beats : Q) :
  0 < bpm -> 0 <= beats ->
  beatsToSeconds bpm beats == beats * 60 / bpm /\
  secondsToBeats bpm (beatsToSeconds bpm beats) == beats.
Proof.
  intros Hbpm _. unfold beatsToSeconds, secondsToBeats.
  assert (Hne : ~ bpm == 0) by (intros H; rewrite H in Hbpm; discriminate).
  split; field; exact Hne.
Qed.

Lemma beatsToSeconds_roundtrip_witness :
  beatsToSeconds 120 3 == 3 * 60 / 120 /\
  secondsToBeats 120 (beatsToSeconds 120 3) == 3.
Proof.
  apply (beatsToSeconds_roundtrip 120 3); unfold Qlt, Qle; simpl; lia.
Defined.

(** ** Loops that push onto an accumulator *)

Section PushLoops.

Context {A B : Type}.

Lemma forEach_app {St : Type} (f : A -> St -> St) (l1 l2 : list A) (s : St) :
  forEach f (l1 ++ l2) s = forEach f l2 (forEach f l1 s).
Proof. unfold forEach. apply fold_left_app. Qed.

Lemma forEach_cons {St : Type} (f : A -> St -> St) (x : A) (l : list A) (s : St) :
  forEach f (x :: l) s = forEach f l (f x s).
Proof. reflexivity. Qed.

Lemma forEach_push (f : A -> list B -> list B) (g : A -> list B) :
  (forall x acc, f x acc = acc ++ g x) ->
  forall l acc, forEach f l acc = acc ++ List.flat_map g l.
Proof.
  intros Hf l. induction l as [|x l IH]; intros acc.
  - simpl. now rewrite List.app_nil_r.
  - rewrite forEach_cons, IH, Hf. simpl. now rewrite <- List.app_assoc.
Qed.

Lemma forEachFrom_push (f : A -> nat -> list B -> list B) (g : nat -> A -> list B) :
  (forall x i acc, f x i acc = acc ++ g i x) ->
  forall l i acc, forEachFrom f l i acc = acc ++ flatMapFrom g l i.
Proof.
  intros Hf l. induction l as [|x l IH]; intros i acc.
  - simpl. now rewrite List.app_nil_r.
  - simpl. rewrite IH, Hf. now rewrite <- List.app_assoc.
Qed.

Lemma Forall2_map_pointwise {C : Type} (R : B -> C -> Prop) (f : A -> B) (g : A -> C)
    (l : list A) :
  (forall x, R (f x) (g x)) -> Forall2 R (List.map f l) (List.map g l).
Proof. intros H. induction l; simpl; constructor; auto. Qed.

Lemma Forall2_flat_map_within {C : Type} (P : A -> Prop) (R : B -> C -> Prop)
    (f : A -> list B) (g : A -> list C) (l : list A) :
  (forall x, P x -> Forall2 R (f x) (g x)) -> List.Forall P l ->
  Forall2 R (List.flat_map f l) (List.flat_map g l).
Proof.
  intros H Hl. induction Hl; simpl; [constructor|].
  apply Forall2_app; auto.
Qed.

Lemma Forall2_flatMapFrom_within {C : Type} (P : A -> Prop) (R : B -> C -> Prop)
    (f : nat -> A -> list B) (g : nat -> A -> list C) (l : list A) (i : nat) :
  (forall j x, P x -> Forall2 R (f j x) (g j x)) -> List.Forall P l ->
  Forall2 R (flatMapFrom f l i) (flatMapFrom g l i).
Proof.
  intros H Hl. revert i. induction Hl; intros i; simpl; [constructor|].
  apply Forall2_app; auto.
Qed.

End PushLoops.

(** ** Step pattern expander *)

Lemma rollLoop_spec remaining r baseTime rollDuration note velocity events :
  rollLoop remaining r baseTime rollDuration note velocity events =
  events ++
  List.map (fun k => mkStepEvent (baseTime + ofNat k * rollDuration) note velocity)
    (seq r remaining).
Proof.
  revert r events. induction remaining as [|n IH]; intros r events; simpl.
  - now rewrite List.app_nil_r.
  - rewrite IH. now rewrite <- List.app_assoc.
Qed.

Lemma scheduleStep_push stepDuration swingAmount row step i events :
  scheduleStep stepDuration swingAmount row step i events =
  events ++ codeStepHits stepDuration swingAmount row i step.
Proof.
  unfold codeStepHits, scheduleStep. destruct (active step).
  - rewrite !rollLoop_spec. reflexivity.
  - now rewrite List.app_nil_r.
Qed.

Lemma stepSequencerEvents_flat pattern bpm :
  stepSequencerEvents pattern bpm =
  List.flat_map
    (fun row =>
       flatMapFrom
         (codeStepHits (stepDurationOf bpm) (orNumber (swing pattern) 0 / 100) row)
         (row_steps row) 0)
    (rows pattern).
Proof.
  unfold stepSequencerEvents.
  rewrite (forEach_push _
    (fun row => flatMapFrom
       (codeStepHits (stepDurationOf bpm) (orNumber (swing pattern) 0 / 100) row)
       (row_steps row) 0)).
  - reflexivity.
  - intros row acc. unfold forEachIndexed.
    apply forEachFrom_push. intros. apply scheduleStep_push.
Qed.

Lemma orNumber_zero x : orNumber x 0 == x.
Proof.
  unfold orNumber. destruct (Qeq_bool x 0) eqn:E; [|reflexivity].
  apply Qeq_bool_iff in E. now rewrite E.
Qed.

Lemma mod2_odd i : Nat.eqb (i mod 2) 1 = Nat.odd i.
Proof. rewrite <- Nat.bit0_mod, Nat.bit0_odd. now destruct (Nat.odd i). Qed.

(** On the rolls the data model admits, [step.roll || 1] is the roll. *)
Lemma rollCountOf_spec step : rollInRange step -> rollCountOf step = spec_roll step.
Proof.
  unfold rollInRange, rollCountOf, spec_roll.
  destruct (roll step) as [[|r]|]; [lia | reflexivity | reflexivity].
Qed.

Lemma codeStepHits_spec stepDuration s row i step :
  rollInRange step ->
  Forall2 stepEventEq
    (codeStepHits stepDuration (orNumber s 0 / 100) row i step)
    (spec_stepHits stepDuration s row i step).
Proof.
  intros Hroll. unfold codeStepHits, scheduleStep, spec_stepHits.
  destruct (active step); [|constructor].
  rewrite rollLoop_spec, List.app_nil_l, (rollCountOf_spec step Hroll).
  apply Forall2_map_pointwise. intros k.
  unfold stepEventEq, spec_baseTime, se_time, se_note, se_velocity.
  cbv beta iota. rewrite mod2_odd. repeat split; try reflexivity.
  destruct (Nat.odd i).
  - rewrite orNumber_zero. reflexivity.
  - ring.
Qed.

Lemma stepSequencerEvents_spec pattern bpm :
  rollsInRange pattern ->
  Forall2 stepEventEq (stepSequencerEvents pattern bpm) (spec_patternHits pattern bpm).
Proof.
  intros Hrolls. rewrite stepSequencerEvents_flat. unfold spec_patternHits.
  apply (Forall2_flat_map_within (fun row => List.Forall rollInRange (row_steps row)));
    [|exact Hrolls].
  intros row Hrow.
  apply (Forall2_flatMapFrom_within rollInRange); [|exact Hrow].
  intros j x Hx. now apply codeStepHits_spec.
Qed.

Lemma clearStepSequencer_instruments e :
  instruments (clearStepSequencer e) = instruments e.
Proof. reflexivity. Qed.

(** ** Playlist build: what it appends *)

Lemma sameMaps_refl e : sameMaps e e.
Proof. now repeat split. Qed.

Lemma transportReserve_0 tr : transportReserve 0 tr = tr.
Proof. destruct tr. unfold transportReserve. simpl. now rewrite Nat.add_0_r. Qed.

Lemma transportReserve_twice n m tr :
  transportReserve m (transportReserve n tr) = transportReserve (n + m) tr.
Proof. unfold transportReserve. simpl. now rewrite Nat.add_assoc. Qed.

Lemma eventCount_app p1 q1 p2 q2 :
  eventCount (p1 ++ p2) (q1 ++ q2) = (eventCount p1 q1 + eventCount p2 q2)%nat.
Proof.
  unfold eventCount. rewrite List.flat_map_app, !List.length_app. lia.
Qed.

Lemma addSchedule_nil e : addSchedule [] [] e = e.
Proof.
  destruct e. unfold addSchedule, eventCount. simpl.
  now rewrite transportReserve_0, !List.app_nil_r.
Qed.

Lemma addSchedule_twice p1 q1 p2 q2 e :
  addSchedule p2 q2 (addSchedule p1 q1 e) = addSchedule (p1 ++ p2) (q1 ++ q2) e.
Proof.
  destruct e. unfold addSchedule. simpl.
  now rewrite transportReserve_twice, eventCount_app, !List.app_assoc.
Qed.

Lemma addSchedule_sameMaps p q e : sameMaps (addSchedule p q e) e.
Proof. now repeat split. Qed.

Lemma clipParts_sameMaps e e' patterns bpm track clip :
  sameMaps e e' ->
  clipParts e patterns bpm track clip = clipParts e' patterns bpm track clip.
Proof. intros (Hi & _ & _). unfold clipParts. now rewrite Hi. Qed.

Lemma clipPlayers_sameMaps e e' bpm track channel clip :
  sameMaps e e' ->
  clipPlayers e bpm track channel clip = clipPlayers e' bpm track channel clip.
Proof. intros (_ & Hb & _). unfold clipPlayers. now rewrite Hb. Qed.

Lemma trackParts_sameMaps e e' patterns bpm track :
  sameMaps e e' -> trackParts e patterns bpm track = trackParts e' patterns bpm track.
Proof.
  intros H. unfold trackParts. destruct (mute track); [reflexivity|].
  apply List.flat_map_ext. intros clip. now apply clipParts_sameMaps.
Qed.

Lemma trackPlayers_sameMaps e e' bpm track :
  sameMaps e e' -> trackPlayers e bpm track = trackPlayers e' bpm track.
Proof.
  intros H. unfold trackPlayers. destruct (mute track); [reflexivity|].
  destruct H as (Hi & Hb & Hc). rewrite Hc.
  apply List.flat_map_ext. intros clip. now apply clipPlayers_sameMaps.
Qed.

(** A loop whose body appends what [g] and [h] name appends their
    concatenation. *)
Lemma forEach_addSchedule {A : Type} (f : A -> AudioEngine -> AudioEngine)
    (g : AudioEngine -> A -> list PlaylistPart) (h : AudioEngine -> A -> list Player) :
  (forall e e' x, sameMaps e e' -> g e x = g e' x /\ h e x = h e' x) ->
  (forall x e, f x e = addSchedule (g e x) (h e x) e) ->
  forall l e,
    forEach f l e = addSchedule (List.flat_map (g e) l) (List.flat_map (h e) l) e.
Proof.
  intros Hext Hf l. induction l as [|x l IH]; intros e.
  - simpl. now rewrite addSchedule_nil.
  - rewrite forEach_cons, Hf, IH, addSchedule_twice. simpl.
    f_equal; f_equal; apply List.flat_map_ext; intros y;
      apply Hext, addSchedule_sameMaps.
Qed.

Lemma scheduleClip_adds patterns bpm track channel clip e :
  scheduleClip patterns bpm track channel clip e =
  addSchedule (clipParts e patterns bpm track clip)
    (clipPlayers e bpm track channel clip) e.
Proof.
  unfold scheduleClip, clipParts, clipPlayers.
  destruct (truthy (audioBufferId clip)).
  - destruct (audioBuffers e !! orEmpty (audioBufferId clip)), channel;
      try (now rewrite addSchedule_nil).
    destruct e. unfold addSchedule, eventCount. simpl. now rewrite List.app_nil_r.
  - destruct (truthy (patternId clip)); [|now rewrite addSchedule_nil].
    destruct (List.find _ patterns); [|now rewrite addSchedule_nil].
    destruct (instruments e !! orEmpty (track_instrumentId track));
      [|now rewrite addSchedule_nil].
    destruct (Nat.ltb 0 _); [|now rewrite addSchedule_nil].
    destruct e. unfold addSchedule, eventCount. simpl.
    now rewrite !List.app_nil_r, Nat.add_0_r.
Qed.

Lemma scheduleTrack_adds patterns bpm track e :
  scheduleTrack patterns bpm track e =
  addSchedule (trackParts e patterns bpm track) (trackPlayers e bpm track) e.
Proof.
  unfold scheduleTrack, trackParts, trackPlayers.
  destruct (mute track); [now rewrite addSchedule_nil|].
  set (channel := trackChannels e !! track_id track).
  rewrite (forEach_addSchedule _
             (fun e' => clipParts e' patterns bpm track)
             (fun e' => clipPlayers e' bpm track channel)).
  - reflexivity.
  - intros e1 e2 x H. split;
      [now apply clipParts_sameMaps | now apply clipPlayers_sameMaps].
  - intros x e'. apply scheduleClip_adds.
Qed.

Lemma clearPlaylist_sameMaps e : sameMaps (clearPlaylist e) e.
Proof. now repeat split. Qed.

(** The playlist build: clear, then append what each track contributes. *)
Lemma schedulePlaylist_adds tracks patterns bpm e :
  schedulePlaylist tracks patterns bpm e =
  addSchedule (List.flat_map (trackParts e patterns bpm) tracks)
    (List.flat_map (trackPlayers e bpm) tracks) (clearPlaylist e).
Proof.
  unfold schedulePlaylist.
  rewrite (forEach_addSchedule _
             (fun e' => trackParts e' patterns bpm)
             (fun e' => trackPlayers e' bpm)).
  - reflexivity.
  - intros e1 e2 x H. split;
      [now apply trackParts_sameMaps | now apply trackPlayers_sameMaps].
  - intros x e'. apply scheduleTrack_adds.
Qed.

Lemma schedulePlaylist_parts tracks patterns bpm e :
  playlistParts (schedulePlaylist tracks patterns bpm e) =
  List.flat_map (trackParts e patterns bpm) tracks.
Proof. rewrite schedulePlaylist_adds. reflexivity. Qed.

Lemma schedulePlaylist_players tracks patterns bpm e :
  audioPlayers (schedulePlaylist tracks patterns bpm e) =
  List.flat_map (trackPlayers e bpm) tracks.
Proof. rewrite schedulePlaylist_adds. reflexivity. Qed.

(** ** Mute and solo *)

Lemma flat_map_map_compose {A B C : Type} (g : B -> list C) (h : A -> B) (l : list A) :
  List.flat_map g (List.map h l) = List.flat_map (fun x => g (h x)) l.
Proof. induction l as [|x l IH]; simpl; [reflexivity | now rewrite IH]. Qed.

Lemma flat_map_unmuted {B : Type} (g : Track -> list B) (tracks : list Track) :
  List.flat_map (fun t => if mute t then [] else g t) tracks =
  List.flat_map g (List.filter (fun t => negb (mute t)) tracks).
Proof.
  induction tracks as [|t tracks IH]; simpl; [reflexivity|].
  destruct (mute t); simpl; now rewrite IH.
Qed.

(** C4 (amended).  A schedule build does not read the solo flag: changing
    the solo flags of the tracks in any way leaves the build unchanged.  The
    only gate is the track's own mute flag: the build equals the build over
    the unmuted tracks, and its parts are, in order, the parts of the clips
    of every unmuted track. *)
Theorem schedulePlaylist_ignores_solo (tracks : list Track) (patterns : list Pattern)
    (bpm : Q) (e : AudioEngine) (flag : Track -> bool) :
  schedulePlaylist (List.map (fun t => setSolo (flag t) t) tracks) patterns bpm e =
    schedulePlaylist tracks patterns bpm e /\
  schedulePlaylist (List.filter (fun t => negb (mute t)) tracks) patterns bpm e =
    schedulePlaylist tracks patterns bpm e /\
  playlistParts (schedulePlaylist tracks patterns bpm e) =
    List.flat_map (fun t => List.flat_map (clipParts e patterns bpm t) (clips t))
      (List.filter (fun t => negb (mute t)) tracks).
Proof.
  split; [|split].
  - rewrite !schedulePlaylist_adds, !flat_map_map_compose. reflexivity.
  - rewrite !schedulePlaylist_adds. unfold trackParts, trackPlayers.
    rewrite (flat_map_unmuted
               (fun t => List.flat_map (clipParts e patterns bpm t) (clips t))).
    rewrite (flat_map_unmuted
               (fun t => List.flat_map
                           (clipPlayers e bpm t (trackChannels e !! track_id t))
                           (clips t))).
    f_equal; induction tracks as [|t tracks IH]; simpl; try reflexivity;
      destruct (mute t) eqn:Hm; simpl; rewrite ?Hm; simpl; now rewrite ?IH.
  - rewrite schedulePlaylist_parts. unfold trackParts.
    apply flat_map_unmuted.
Qed.

(** C4 as stated fails: with the lead track solo, the notes of the unmuted
    bass track are scheduled all the same. *)
Lemma solo_policy_counterexample :
  List.existsb solo [leadTrack; bassTrack] = true /\
  ~ soloPolicyHolds [leadTrack; bassTrack] [leadPattern; bassPattern] 120 bandEngine.
Proof.
  split; [reflexivity|].
  unfold soloPolicyHolds. vm_compute. intros H. discriminate H.
Qed.

(** ** Dangling references *)

Lemma forEach_preserves {A St B : Type} (proj : St -> B) (f : A -> St -> St) :
  (forall x s, proj (f x s) = proj s) ->
  forall l s, proj (forEach f l s) = proj s.
Proof.
  intros Hf l. induction l as [|x l IH]; intros s; [reflexivity|].
  rewrite forEach_cons, IH. apply Hf.
Qed.

Lemma scheduleAutomationPoint_trackChannels bpm lane point e :
  trackChannels (scheduleAutomationPoint bpm lane point e) = trackChannels e.
Proof. reflexivity. Qed.

Lemma scheduleLane_trackChannels bpm lane e :
  trackChannels (scheduleLane bpm lane e) = trackChannels e.
Proof.
  unfold scheduleLane.
  destruct (negb (enabled lane) || Nat.eqb (length (points lane)) 0); [reflexivity|].
  destruct (negb (bool_decide (is_Some (trackChannels e !! targetTrackId lane)))
            && negb (isTempo (targetParam lane))); [reflexivity|].
  apply (forEach_preserves trackChannels). intros. apply scheduleAutomationPoint_trackChannels.
Qed.

Lemma scheduleLane_dangling bpm lane e :
  danglingLane e lane -> scheduleLane bpm lane e = e.
Proof.
  intros (Hch & Hparam). unfold scheduleLane.
  destruct (negb (enabled lane) || Nat.eqb (length (points lane)) 0); [reflexivity|].
  rewrite Hch.
  assert (isTempo (targetParam lane) = false) as ->
    by (destruct (targetParam lane); try reflexivity; congruence).
  reflexivity.
Qed.

Lemma clipParts_dangling e patterns bpm track clip :
  danglingClip e patterns track clip -> clipParts e patterns bpm track clip = [].
Proof.
  intros (Haudio & Hd). unfold clipParts. rewrite Haudio.
  destruct (truthy (patternId clip)); [|reflexivity].
  destruct Hd as [-> | ->]; [reflexivity|].
  now destruct (List.find _ patterns).
Qed.

Lemma clipPlayers_dangling e patterns bpm track channel clip :
  danglingClip e patterns track clip -> clipPlayers e bpm track channel clip = [].
Proof. intros (Haudio & _). unfold clipPlayers. now rewrite Haudio. Qed.

(** ** Removing an instrument *)

Lemma clipParts_instrument e patterns bpm track clip part :
  In part (clipParts e patterns bpm track clip) ->
  is_Some (instruments e !! pp_instrument part).
Proof.
  unfold clipParts.
  destruct (truthy (audioBufferId clip)); [intros []|].
  destruct (truthy (patternId clip)); [|intros []].
  destruct (List.find _ patterns); [|intros []].
  destruct (instruments e !! orEmpty (track_instrumentId track)) eqn:Hi; [|intros []].
  destruct (Nat.ltb 0 _); [|intros []].
  intros [<- | []]. simpl. rewrite Hi. eauto.
Qed.

Lemma schedulePlaylist_part_instrument tracks patterns bpm e part :
  In part (playlistParts (schedulePlaylist tracks patterns bpm e)) ->
  is_Some (instruments e !! pp_instrument part).
Proof.
  rewrite schedulePlaylist_parts. intros Hin.
  apply List.in_flat_map in Hin. destruct Hin as (track & _ & Hin).
  unfold trackParts in Hin. destruct (mute track); [destruct Hin|].
  apply List.in_flat_map in Hin. destruct Hin as (clip & _ & Hin).
  eapply clipParts_instrument; eassumption.
Qed.

Lemma removeInstrument_unregisters instrumentId e :
  instruments (Engine.removeInstrument instrumentId e) !! instrumentId = None.
Proof.
  unfold Engine.removeInstrument.
  destruct (instruments e !! instrumentId) eqn:Hi; [|exact Hi].
  simpl. apply lookup_delete_eq.
Qed.

(** C6 (amended).  Removing an instrument removes from the project every
    pattern bound to it - the patterns that remain are exactly those bound
    to other instruments, unchanged, notes included - clears the binding of
    every track bound to it (such a track is left with no instrument id and
    is otherwise unchanged; every other track is unchanged), removes it
    from the project's instruments and unregisters it from the engine.  A
    later schedule build emits nothing for it and does not fail:
    [schedulePattern] on a pattern bound to it leaves the engine as it is,
    and no part of a playlist build triggers it. *)
Theorem removeInstrument_effect (instrumentId : string) (w : World) :
  let w' := Store.removeInstrument instrumentId w in
  (forall p, In p (proj_patterns (project (store w'))) <->
             In p (proj_patterns (project (store w))) /\
             pat_instrumentId p <> instrumentId) /\
  Forall2
    (fun track track' =>
       (track_instrumentId track = Some instrumentId ->
        track_instrumentId track' = None /\
        track' = setInstrumentId None track) /\
       (track_instrumentId track <> Some instrumentId -> track' = track))
    (proj_tracks (project (store w))) (proj_tracks (project (store w'))) /\
  (forall i, In i (proj_instruments (project (store w'))) <->
             In i (proj_instruments (project (store w))) /\
             inst_id i <> instrumentId) /\
  instruments (audioEngine w') !! instrumentId = None /\
  (forall p startTime, pat_instrumentId p = instrumentId ->
     schedulePattern p startTime (audioEngine w') = audioEngine w') /\
  (forall tracks patterns bpm part,
     In part (playlistParts (schedulePlaylist tracks patterns bpm (audioEngine w'))) ->
     pp_instrument part <> instrumentId).
Proof.
  intros w'.
  assert (Hgone : instruments (audioEngine w') !! instrumentId = None)
    by apply removeInstrument_unregisters.
  split; [|split; [|split; [|split; [exact Hgone|split]]]].
  - intros p. subst w'. simpl. rewrite List.filter_In.
    rewrite negb_true_iff, String.eqb_neq. reflexivity.
  - subst w'. simpl.
    induction (proj_tracks (project (store w))) as [|track tracks IH];
      simpl; constructor; [|exact IH].
    destruct (track_instrumentId track) as [i|] eqn:Hi; simpl.
    + destruct (String.eqb i instrumentId) eqn:E.
      * split; [intros _; split; reflexivity|].
        apply String.eqb_eq in E. intros Hne. congruence.
      * split; [|reflexivity].
        apply String.eqb_neq in E. intros Heq. congruence.
    + split; [discriminate | reflexivity].
  - intros i. subst w'. simpl. rewrite List.filter_In.
    rewrite negb_true_iff, String.eqb_neq. reflexivity.
  - intros p startTime Hp. unfold schedulePattern. now rewrite Hp, Hgone.
  - intros tracks patterns bpm part Hin Heq.
    apply schedulePlaylist_part_instrument in Hin.
    rewrite Heq, Hgone in Hin. now destruct Hin.
Qed.

Lemma removeInstrument_effect_witness :
  pat_instrumentId leadPattern = "lead"%string /\
  schedulePattern leadPattern 0 (audioEngine (Store.removeInstrument "lead" bandWorld)) =
  audioEngine (Store.removeInstrument "lead" bandWorld).
Proof.
  split; [reflexivity|].
  destruct (removeInstrument_effect "lead" bandWorld) as (_ & _ & _ & _ & Hskip & _).
  apply (Hskip leadPattern 0). reflexivity.
Defined.

(** C6 as stated fails: the pattern bound to the removed instrument is
    removed from the project together with its notes. *)
Lemma removeInstrument_pattern_counterexample :
  In leadPattern (proj_patterns (project (store bandWorld))) /\
  pat_instrumentId leadPattern = "lead"%string /\
  ~ In leadPattern
      (proj_patterns (project (store (Store.removeInstrument "lead" bandWorld)))).
Proof.
  split; [now left|]. split; [reflexivity|].
  vm_compute. intros [H | []]. discriminate H.
Qed.

(** ** Sorting and in-place updates *)

Section Sorting.

Lemma sortInsert_In {A : Type} (cmp : A -> A -> Q) (x y : A) (l : list A) :
  In y (sortInsert cmp x l) <-> y = x \/ In y l.
Proof.
  induction l as [|z l IH]; simpl.
  - intuition.
  - destruct (Qle_bool (cmp x z) 0); simpl; [intuition|].
    rewrite IH. intuition.
Qed.

Lemma jsSort_In {A : Type} (cmp : A -> A -> Q) (y : A) (l : list A) :
  In y (jsSort cmp l) <-> In y l.
Proof.
  induction l as [|x l IH]; simpl; [reflexivity|].
  rewrite sortInsert_In, IH. intuition.
Qed.

Lemma jsSort_Forall {A : Type} (cmp : A -> A -> Q) (P : A -> Prop) (l : list A) :
  List.Forall P l -> List.Forall P (jsSort cmp l).
Proof.
  rewrite !List.Forall_forall. intros H y Hy. apply H.
  apply (proj1 (jsSort_In cmp y l)). exact Hy.
Qed.

Lemma sortInsert_Permutation {A : Type} (cmp : A -> A -> Q) (x : A) (l : list A) :
  Permutation (sortInsert cmp x l) (x :: l).
Proof.
  induction l as [|z l IH]; simpl; [reflexivity|].
  destruct (Qle_bool (cmp x z) 0); [reflexivity|].
  rewrite IH. apply perm_swap.
Qed.

Lemma jsSort_Permutation {A : Type} (cmp : A -> A -> Q) (l : list A) :
  Permutation (jsSort cmp l) l.
Proof.
  induction l as [|x l IH]; simpl; [reflexivity|].
  rewrite sortInsert_Permutation. now constructor.
Qed.

Lemma byTime_le a b : Qle_bool (byTime a b) 0 = true <-> ap_time a <= ap_time b.
Proof. unfold byTime. rewrite Qle_bool_iff. split; intros H; lra. Qed.

Lemma sortInsert_HdRel a x l :
  ap_time a <= ap_time x ->
  HdRel (fun p q => ap_time p <= ap_time q) a l ->
  HdRel (fun p q => ap_time p <= ap_time q) a (sortInsert byTime x l).
Proof.
  intros Hax Hal. destruct l as [|z l]; simpl; [now constructor|].
  destruct (Qle_bool (byTime x z) 0); constructor; [assumption|].
  now inversion Hal.
Qed.

Lemma sortInsert_sorted x l :
  sortedByTime l -> sortedByTime (sortInsert byTime x l).
Proof.
  unfold sortedByTime. induction l as [|z l IH]; intros Hs; simpl.
  - repeat constructor.
  - destruct (Qle_bool (byTime x z) 0) eqn:E.
    + constructor; [assumption|]. constructor. now apply byTime_le.
    + inversion Hs as [|? ? Hs' Hhd]; subst.
      constructor; [now apply IH|].
      apply sortInsert_HdRel; [|assumption].
      apply Qlt_le_weak, Qnot_le_lt. intros Hle.
      apply byTime_le in Hle. congruence.
Qed.

(** [points.sort((a, b) => a.time - b.time)] leaves the points in
    ascending time order, whatever their order was. *)
Lemma jsSort_sorted l : sortedByTime (jsSort byTime l).
Proof.
  induction l as [|x l IH]; simpl; [constructor|].
  now apply sortInsert_sorted.
Qed.

Lemma updateFirst_Forall {A : Type} (P : A -> Prop) (pred : A -> bool) (f : A -> A)
    (l : list A) :
  (forall x, P x -> P (f x)) -> List.Forall P l -> List.Forall P (updateFirst pred f l).
Proof.
  intros Hf Hall. induction Hall as [|x l Hx Hall IH]; simpl; [constructor|].
  destruct (pred x); constructor; auto.
Qed.

Lemma find_updateFirst {A : Type} (pred : A -> bool) (f : A -> A) (l : list A) :
  (forall x, pred (f x) = pred x) ->
  List.find pred (updateFirst pred f l) = f <$> List.find pred l.
Proof.
  intros Hf. induction l as [|x l IH]; simpl; [reflexivity|].
  destruct (pred x) eqn:E; simpl.
  - now rewrite Hf, E.
  - now rewrite E.
Qed.

End Sorting.

(** ** Clamping *)

Lemma clamp_range v : 0 <= clamp 0 1 v /\ clamp 0 1 v <= 1.
Proof.
  unfold clamp. split.
  - apply Q.le_max_l.
  - apply Q.max_lub; [unfold Qle; simpl; lia | apply Q.le_min_l].
Qed.

Lemma clamp_id v : 0 <= v -> v <= 1 -> clamp 0 1 v == v.
Proof.
  intros H0 H1. unfold clamp.
  rewrite (Q.min_r 1 v H1). now apply Q.max_r.
Qed.

(** Clamping into [0,1]: a value in range is kept, one below goes to 0,
    one above to 1. *)
Lemma clamp01_cases v :
  (v < 0 -> clamp 0 1 v == 0) /\
  (0 <= v -> v <= 1 -> clamp 0 1 v == v) /\
  (1 < v -> clamp 0 1 v == 1).
Proof.
  split; [|split].
  - intros Hv. unfold clamp. apply Q.max_l.
    eapply Qle_trans; [apply Q.le_min_r | now apply Qlt_le_weak].
  - apply clamp_id.
  - intros Hv. unfold clamp.
    assert (H1 : Qmin 1 v == 1) by (apply Q.min_l; now apply Qlt_le_weak).
    rewrite Q.max_r; [exact H1|]. rewrite H1. discriminate.
Qed.

(** ** Automation-point mutations *)

Lemma updateFirst_no_match {A : Type} (pred : A -> bool) (f : A -> A) (l : list A) :
  List.find pred l = None -> updateFirst pred f l = l.
Proof.
  induction l as [|x l IH]; simpl; [reflexivity|].
  destruct (pred x); [discriminate|]. intros H. now rewrite IH.
Qed.

Lemma updatePoint_valueInRange updates p :
  valueInRange p -> valueInRange (Store.updatePoint updates p).
Proof.
  intros Hp. unfold Store.updatePoint.
  destruct (pu_value updates) as [v|] eqn:E.
  - unfold valueInRange. simpl. apply clamp_range.
  - unfold valueInRange, assignPoint. simpl. rewrite E. exact Hp.
Qed.

Lemma updatePoint_clamps updates p v :
  pu_value updates = Some v -> ap_value (Store.updatePoint updates p) = clamp 0 1 v.
Proof.
  intros E. unfold Store.updatePoint, assignPoint. rewrite E. reflexivity.
Qed.

Lemma updatePoint_fields updates p :
  ap_id (Store.updatePoint updates p) = default (ap_id p) (pu_id updates) /\
  ap_time (Store.updatePoint updates p) = default (ap_time p) (pu_time updates) /\
  ap_curve (Store.updatePoint updates p) = default (ap_curve p) (pu_curve updates) /\
  (pu_value updates = None -> ap_value (Store.updatePoint updates p) = ap_value p).
Proof.
  unfold Store.updatePoint, assignPoint.
  destruct (pu_value updates); simpl; repeat split; try reflexivity; discriminate.
Qed.

(** C8.  Automation-point mutations keep every lane's points sorted by time
    ascending with values in [0,1].  [addAutomationPoint] stores the new
    point with its value clamped into [0,1] - a value in range is stored as
    it is, a negative one as 0, one above 1 as 1 - and the lane's points
    afterwards are its former points and the new one, reordered.
    [updateAutomationPoint] rewrites the point found with the fields
    supplied, clamps a supplied value likewise (a point whose value is not
    supplied keeps it) and re-sorts the lane.  Nothing is rejected. *)
Theorem automation_point_mutations (w : World) :
  lanesInvariant w ->
  (forall newId laneId time value curve,
     let w' := snd (Store.addAutomationPoint newId laneId time value curve w) in
     lanesInvariant w' /\
     forall lane, findLane laneId w = Some lane ->
       exists lane' stored, findLane laneId w' = Some lane' /\
         sortedByTime (points lane') /\
         Permutation (points lane') (points lane ++ [mkPoint newId time stored curve]) /\
         (value < 0 -> stored == 0) /\
         (0 <= value -> value <= 1 -> stored == value) /\
         (1 < value -> stored == 1)) /\
  (forall laneId pointId updates,
     let w' := Store.updateAutomationPoint laneId pointId updates w in
     lanesInvariant w' /\
     (forall lane, findLane laneId w = Some lane ->
        exists lane', findLane laneId w' = Some lane' /\
          sortedByTime (points lane') /\
          Permutation (points lane')
            (updateFirst (fun p => String.eqb (ap_id p) pointId)
               (Store.updatePoint updates) (points lane))) /\
     (forall point,
        let point' := Store.updatePoint updates point in
        ap_id point' = default (ap_id point) (pu_id updates) /\
        ap_time point' = default (ap_time point) (pu_time updates) /\
        ap_curve point' = default (ap_curve point) (pu_curve updates) /\
        (pu_value updates = None -> ap_value point' = ap_value point) /\
        (forall v, pu_value updates = Some v ->
           (v < 0 -> ap_value point' == 0) /\
           (0 <= v -> v <= 1 -> ap_value point' == v) /\
           (1 < v -> ap_value point' == 1)))).
Proof.
  intros Hinv. split.
  - intros newId laneId time value curve w'. split.
    + unfold lanesInvariant. subst w'. simpl.
      apply updateFirst_Forall; [|exact Hinv].
      intros lane (Hs & Hv). split; simpl.
      * apply jsSort_sorted.
      * apply jsSort_Forall. apply List.Forall_app. split; [exact Hv|].
        constructor; [apply clamp_range | constructor].
    + intros lane Hfind. unfold findLane in *. subst w'. simpl.
      rewrite find_updateFirst by reflexivity. rewrite Hfind. simpl.
      eexists. exists (clamp 0 1 value). split; [reflexivity|]. simpl. split.
      * apply jsSort_sorted.
      * split; [apply jsSort_Permutation | apply clamp01_cases].
  - intros laneId pointId updates w'. split; [|split].
    + unfold lanesInvariant. subst w'. simpl.
      apply updateFirst_Forall; [|exact Hinv].
      intros lane (Hs & Hv).
      destruct (List.find _ (points lane)); [|now split].
      split; simpl.
      * apply jsSort_sorted.
      * apply jsSort_Forall. apply updateFirst_Forall; [|exact Hv].
        intros p. apply updatePoint_valueInRange.
    + intros lane Hfind. unfold findLane in *. subst w'. simpl.
      rewrite find_updateFirst.
      2:{ intros l. now destruct (List.find _ (points l)). }
      rewrite Hfind. simpl.
      destruct (List.find _ (points lane)) eqn:Hpoint.
      * eexists. split; [reflexivity|]. simpl. split.
        -- apply jsSort_sorted.
        -- apply jsSort_Permutation.
      * exists lane. split; [reflexivity|]. split.
        -- unfold lanesInvariant in Hinv. rewrite List.Forall_forall in Hinv.
           apply List.find_some in Hfind. now apply (Hinv lane (proj1 Hfind)).
        -- now rewrite updateFirst_no_match.
    + intros point point'. subst point'.
      destruct (updatePoint_fields updates point) as (Hid & Htime & Hcurve & Hkeep).
      split; [exact Hid|]. split; [exact Htime|]. split; [exact Hcurve|].
      split; [exact Hkeep|].
      intros v Hv. rewrite (updatePoint_clamps updates point v Hv).
      apply clamp01_cases.
Qed.

Lemma automation_point_mutations_witness :
  lanesInvariant bandWorld /\
  lanesInvariant (snd (Store.addAutomationPoint "new" "lane-t" 2 (3 # 2) Linear bandWorld)) /\
  lanesInvariant
    (Store.updateAutomationPoint "lane-t" "p" (mkPointUpdates None (Some 3) (Some (-1)) None)
       bandWorld).
Proof.
  assert (H : lanesInvariant bandWorld).
  { repeat constructor; unfold Qle; simpl; lia. }
  destruct (automation_point_mutations bandWorld H) as (Hadd & Hupd).
  split; [exact H|]. split.
  - exact (proj1 (Hadd "new"%string "lane-t"%string 2 (3 # 2) Linear)).
  - exact (proj1 (Hupd "lane-t"%string "p"%string
                    (mkPointUpdates None (Some 3) (Some (-1)) None))).
Defined.

(** ** Note mutations *)

Lemma assignNote_invariant updates n :
  (forall v, nu_velocity updates = Some v -> 0 <= v /\ v <= 127) ->
  (forall d, nu_duration updates = Some d -> 0 < d) ->
  noteInvariant n -> noteInvariant (assignNote updates n).
Proof.
  intros Hv Hd (H0 & H127 & Hdur). unfold noteInvariant, assignNote. simpl.
  destruct (nu_velocity updates) as [v|]; destruct (nu_duration updates) as [d|];
    simpl; repeat split;
    try apply (Hv v eq_refl); try apply (Hd d eq_refl); assumption.
Qed.




(** ** Pause and resume *)

Section Resume.

Lemma transportClear_frame ids tr :
  let tr' := forEach transportClear ids tr in
  tt_state tr' = tt_state tr /\ tt_position tr' = tt_position tr /\
  tt_nextId tr' = tt_nextId tr.
Proof.
  revert tr. induction ids as [|id ids IH]; intros tr; [now repeat split|].
  cbv zeta. rewrite forEach_cons.
  destruct (IH (transportClear id tr)) as (H1 & H2 & H3).
  now rewrite H1, H2, H3.
Qed.

Lemma clearAutomation_frame e :
  sameMaps (clearAutomation e) e /\ sameClock (clearAutomation e) e /\
  tt_nextId (toneTransport (clearAutomation e)) = tt_nextId (toneTransport e) /\
  automationEventIds (clearAutomation e) = [] /\
  playlistParts (clearAutomation e) = playlistParts e /\
  audioPlayers (clearAutomation e) = audioPlayers e.
Proof.
  destruct (transportClear_frame (automationEventIds e) (toneTransport e))
    as (H1 & H2 & H3).
  unfold sameMaps, sameClock, clearAutomation. simpl. now repeat split.
Qed.

Lemma scheduleLane_frame bpm lane e :
  let e' := scheduleLane bpm lane e in
  sameMaps e' e /\ sameClock e' e /\
  playlistParts e' = playlistParts e /\ audioPlayers e' = audioPlayers e /\
  automationEventIds e' =
    automationEventIds e ++
    seq (tt_nextId (toneTransport e)) (length (lanePoints e lane)) /\
  tt_nextId (toneTransport e') =
    (tt_nextId (toneTransport e) + length (lanePoints e lane))%nat.
Proof.
  unfold scheduleLane, lanePoints.
  destruct (negb (enabled lane) || Nat.eqb (length (points lane)) 0).
  { simpl. rewrite List.app_nil_r, Nat.add_0_r. now repeat split. }
  destruct (negb (bool_decide (is_Some (trackChannels e !! targetTrackId lane)))
            && negb (isTempo (targetParam lane))).
  { simpl. rewrite List.app_nil_r, Nat.add_0_r. now repeat split. }
  generalize (points lane). intros pts. revert e.
  induction pts as [|pt pts IH]; intros e.
  { simpl. rewrite List.app_nil_r, Nat.add_0_r. now repeat split. }
  cbv zeta. rewrite forEach_cons.
  destruct (IH (scheduleAutomationPoint bpm lane pt e))
    as ((Hi & Hb & Hc) & (Hst & Hpos) & Hparts & Hplayers & Hids & Hnext).
  cbv zeta in *. rewrite Hids, Hnext.
  unfold sameMaps, sameClock. rewrite Hi, Hb, Hc, Hst, Hpos, Hparts, Hplayers.
  simpl. repeat split; try reflexivity.
  - now rewrite <- List.app_assoc.
  - lia.
Qed.

Lemma lanePoints_sameMaps e e' lane :
  sameMaps e e' -> lanePoints e lane = lanePoints e' lane.
Proof. intros (_ & _ & Hc). unfold lanePoints. now rewrite Hc. Qed.

Lemma sameMaps_trans e1 e2 e3 : sameMaps e1 e2 -> sameMaps e2 e3 -> sameMaps e1 e3.
Proof.
  intros (H1 & H2 & H3) (H4 & H5 & H6). unfold sameMaps.
  now rewrite H1, H2, H3, H4, H5, H6.
Qed.

Lemma sameClock_trans e1 e2 e3 : sameClock e1 e2 -> sameClock e2 e3 -> sameClock e1 e3.
Proof.
  intros (H1 & H2) (H3 & H4). unfold sameClock. now rewrite H1, H2, H3, H4.
Qed.

Lemma forEach_scheduleLane_frame bpm lanes e :
  let e' := forEach (scheduleLane bpm) lanes e in
  sameMaps e' e /\ sameClock e' e /\
  playlistParts e' = playlistParts e /\ audioPlayers e' = audioPlayers e /\
  automationEventIds e' =
    automationEventIds e ++
    seq (tt_nextId (toneTransport e))
      (length (List.flat_map (lanePoints e) lanes)) /\
  tt_nextId (toneTransport e') =
    (tt_nextId (toneTransport e) + length (List.flat_map (lanePoints e) lanes))%nat.
Proof.
  revert e. induction lanes as [|lane lanes IH]; intros e.
  { simpl. rewrite List.app_nil_r, Nat.add_0_r.
    repeat split; reflexivity. }
  cbv zeta. rewrite forEach_cons.
  destruct (scheduleLane_frame bpm lane e)
    as (Hm1 & Hc1 & Hparts1 & Hplayers1 & Hids1 & Hnext1).
  destruct (IH (scheduleLane bpm lane e))
    as (Hm & Hc & Hparts & Hplayers & Hids & Hnext).
  cbv zeta in *.
  assert (Hsame : List.flat_map (lanePoints (scheduleLane bpm lane e)) lanes =
                  List.flat_map (lanePoints e) lanes).
  { apply List.flat_map_ext. intros l. now apply lanePoints_sameMaps. }
  rewrite Hsame in *.
  split; [eapply sameMaps_trans; eassumption|].
  split; [eapply sameClock_trans; eassumption|].
  split; [congruence|]. split; [congruence|].
  simpl List.flat_map. rewrite List.length_app.
  split.
  - rewrite Hids, Hids1, Hnext1, <- List.app_assoc, <- List.seq_app. reflexivity.
  - rewrite Hnext, Hnext1. lia.
Qed.

Lemma scheduleAutomation_frame lanes tracks bpm e :
  let e' := scheduleAutomation lanes tracks bpm e in
  let k := length (List.flat_map (lanePoints e) lanes) in
  sameMaps e' e /\ sameClock e' e /\
  playlistParts e' = playlistParts e /\ audioPlayers e' = audioPlayers e /\
  automationEventIds e' = seq (tt_nextId (toneTransport e)) k /\
  tt_nextId (toneTransport e') = (tt_nextId (toneTransport e) + k)%nat.
Proof.
  unfold scheduleAutomation.
  destruct (clearAutomation_frame e) as (Hm0 & Hc0 & Hn0 & Hids0 & Hp0 & Hpl0).
  destruct (forEach_scheduleLane_frame bpm lanes (clearAutomation e))
    as (Hm & Hc & Hparts & Hplayers & Hids & Hnext).
  cbv zeta in *.
  assert (Hsame : List.flat_map (lanePoints (clearAutomation e)) lanes =
                  List.flat_map (lanePoints e) lanes).
  { apply List.flat_map_ext. intros l. now apply lanePoints_sameMaps. }
  rewrite Hsame, Hn0, Hids0 in *.
  split; [eapply sameMaps_trans; eassumption|].
  split; [eapply sameClock_trans; eassumption|].
  split; [congruence|]. split; [congruence|].
  split; [exact Hids | exact Hnext].
Qed.

Lemma schedulePlaylist_frame tracks patterns bpm e :
  let e' := schedulePlaylist tracks patterns bpm e in
  sameMaps e' e /\ sameClock e' e /\
  tt_nextId (toneTransport e') =
    (tt_nextId (toneTransport e) + eventCount (playlistParts e') (audioPlayers e'))%nat /\
  tt_timeline (toneTransport e') = tt_timeline (toneTransport (clearAutomation e)) /\
  automationEventIds e' = [].
Proof.
  cbv zeta. rewrite schedulePlaylist_adds.
  destruct (clearAutomation_frame (setAudioPlayers [] (setPlaylistParts [] e)))
    as (Hm & Hc & Hn & _).
  split; [exact Hm|]. split; [exact Hc|]. split; [|split; reflexivity].
  unfold addSchedule, clearPlaylist.
  cbn [toneTransport setAudioPlayers setPlaylistParts setToneTransport transportReserve
       tt_nextId playlistParts audioPlayers].
  rewrite Hn. reflexivity.
Qed.

(** One call of [play]: the schedule is rebuilt from the project and the
    clock is started where it stands. *)
Lemma play_frame (w : World) :
  let e := audioEngine w in
  let e' := audioEngine (Store.play w) in
  let pr := project (store w) in
  let k := length (List.flat_map (lanePoints e) (proj_automationLanes pr)) in
  let n := (tt_nextId (toneTransport e) +
            eventCount (playlistParts e') (audioPlayers e'))%nat in
  sameMaps e' e /\
  tt_state (toneTransport e') = Started /\
  tt_position (toneTransport e') = tt_position (toneTransport e) /\
  playlistParts e' =
    List.flat_map (trackParts e (proj_patterns pr) (proj_bpm pr)) (proj_tracks pr) /\
  audioPlayers e' =
    List.flat_map (trackPlayers e (proj_bpm pr)) (proj_tracks pr) /\
  automationEventIds e' = seq n k /\
  tt_nextId (toneTransport e') = (n + k)%nat.
Proof.
  cbv zeta. unfold Store.play.
  set (pr := project (store w)). set (e := audioEngine w).
  set (e1 := schedulePlaylist (proj_tracks pr) (proj_patterns pr) (proj_bpm pr) e).
  destruct (schedulePlaylist_frame (proj_tracks pr) (proj_patterns pr) (proj_bpm pr) e)
    as (Hm1 & (Hs1 & Hpos1) & Hn1 & _).
  destruct (scheduleAutomation_frame (proj_automationLanes pr) (proj_tracks pr)
              (proj_bpm pr) e1)
    as (Hm2 & (Hs2 & Hpos2) & Hparts & Hplayers & Hids & Hnext).
  cbv zeta in *. fold e1 in Hm1, Hs1, Hpos1, Hn1.
  assert (Hsame : List.flat_map (lanePoints e1) (proj_automationLanes pr) =
                  List.flat_map (lanePoints e) (proj_automationLanes pr)).
  { apply List.flat_map_ext. intros l. now apply lanePoints_sameMaps. }
  rewrite Hsame, Hn1 in *.
  cbn [audioEngine Engine.play setToneTransport toneTransport transportStart tt_state
       tt_position tt_nextId playlistParts audioPlayers automationEventIds].
  rewrite Hparts, Hplayers.
  split; [eapply sameMaps_trans; eassumption|].
  split; [reflexivity|].
  split; [congruence|].
  split; [apply schedulePlaylist_parts|].
  split; [apply schedulePlaylist_players|].
  split; assumption.
Qed.

End Resume.

(** ** Step durations *)

Lemma stepDuration_pos bpm : 0 < bpm -> 0 < 60 / bpm / 4.
Proof.
  intros H. apply Qlt_shift_div_l; [reflexivity|].
  apply Qlt_shift_div_l; [exact H|]. rewrite Qmult_0_l, Qmult_0_l. reflexivity.
Qed.

Lemma ofNat_pos n : (0 < n)%nat -> 0 < ofNat n.
Proof.
  intros H. unfold ofNat. change 0 with (inject_Z 0). rewrite <- Zlt_Qlt. lia.
Qed.

Lemma ofNat_nonneg n : 0 <= ofNat n.
Proof.
  unfold ofNat. change 0 with (inject_Z 0). rewrite <- Zle_Qle. lia.
Qed.

(** ** The transport timeline under scheduling and clearing *)

Section Timeline.

Lemma filter_filter {A : Type} (f g : A -> bool) (l : list A) :
  List.filter f (List.filter g l) = List.filter (fun x => g x && f x) l.
Proof.
  induction l as [|x l IH]; simpl; [reflexivity|].
  destruct (g x); simpl; [destruct (f x)|]; now rewrite IH.
Qed.

(** Clearing a list of ids removes exactly the events that carry one of
    them. *)
Lemma transportClear_all ids tr :
  tt_timeline (forEach transportClear ids tr) =
  List.filter (fun ev => negb (List.existsb (Nat.eqb (te_id ev)) ids)) (tt_timeline tr).
Proof.
  revert tr. induction ids as [|id ids IH]; intros tr.
  - simpl. induction (tt_timeline tr) as [|x l IHl]; simpl; [reflexivity|].
    now rewrite <- IHl.
  - rewrite forEach_cons, IH. simpl. rewrite filter_filter.
    apply List.filter_ext. intros ev. simpl.
    now rewrite negb_orb.
Qed.

Lemma stampFrom_app n evs1 evs2 :
  stampFrom n (evs1 ++ evs2) =
  stampFrom n evs1 ++ stampFrom (n + length evs1) evs2.
Proof.
  revert n. induction evs1 as [|[t a] evs1 IH]; intros n; simpl.
  - now rewrite Nat.add_0_r.
  - rewrite IH. do 3 f_equal. lia.
Qed.

Lemma stampFrom_ids n evs : List.map te_id (stampFrom n evs) = seq n (length evs).
Proof.
  revert n. induction evs as [|[t a] evs IH]; intros n; simpl; [reflexivity|].
  now rewrite IH.
Qed.

Lemma laneEvents_sameMaps bpm e e' lane :
  sameMaps e e' -> laneEvents bpm e lane = laneEvents bpm e' lane.
Proof. intros H. unfold laneEvents. now rewrite (lanePoints_sameMaps e e'). Qed.

Lemma laneEvents_length bpm e lane :
  length (laneEvents bpm e lane) = length (lanePoints e lane).
Proof. unfold laneEvents. apply List.length_map. Qed.

Lemma scheduleLane_timeline bpm lane e :
  tt_timeline (toneTransport (scheduleLane bpm lane e)) =
  tt_timeline (toneTransport e) ++
  stampFrom (tt_nextId (toneTransport e)) (laneEvents bpm e lane).
Proof.
  unfold scheduleLane, laneEvents, lanePoints.
  destruct (negb (enabled lane) || Nat.eqb (length (points lane)) 0).
  { simpl. now rewrite List.app_nil_r. }
  destruct (negb (bool_decide (is_Some (trackChannels e !! targetTrackId lane)))
            && negb (isTempo (targetParam lane))).
  { simpl. now rewrite List.app_nil_r. }
  generalize (points lane). intros pts. revert e.
  induction pts as [|pt pts IH]; intros e.
  { simpl. now rewrite List.app_nil_r. }
  rewrite forEach_cons, IH. simpl. now rewrite <- List.app_assoc.
Qed.

Lemma flat_map_length_ext {A B C : Type} (f : A -> list B) (g : A -> list C) (l : list A) :
  (forall x, length (f x) = length (g x)) ->
  length (List.flat_map f l) = length (List.flat_map g l).
Proof.
  intros H. induction l as [|x l IH]; simpl; [reflexivity|].
  now rewrite !List.length_app, H, IH.
Qed.

Lemma forEach_scheduleLane_timeline bpm lanes e :
  tt_timeline (toneTransport (forEach (scheduleLane bpm) lanes e)) =
  tt_timeline (toneTransport e) ++
  stampFrom (tt_nextId (toneTransport e)) (List.flat_map (laneEvents bpm e) lanes).
Proof.
  revert e. induction lanes as [|lane lanes IH]; intros e.
  { simpl. now rewrite List.app_nil_r. }
  rewrite forEach_cons, IH, scheduleLane_timeline.
  destruct (scheduleLane_frame bpm lane e) as (Hm & _ & _ & _ & _ & Hnext).
  cbv zeta in *. rewrite Hnext. simpl List.flat_map.
  rewrite stampFrom_app, laneEvents_length, <- List.app_assoc.
  do 3 f_equal. apply List.flat_map_ext. intros l.
  now apply laneEvents_sameMaps.
Qed.

(** The timeline, the recorded ids and the next id after an automation
    build. *)
Lemma scheduleAutomation_stamps lanes tracks bpm e :
  tt_timeline (toneTransport (scheduleAutomation lanes tracks bpm e)) =
    tt_timeline (toneTransport (clearAutomation e)) ++
    stampFrom (tt_nextId (toneTransport e)) (List.flat_map (laneEvents bpm e) lanes) /\
  automationEventIds (scheduleAutomation lanes tracks bpm e) =
    seq (tt_nextId (toneTransport e)) (length (List.flat_map (laneEvents bpm e) lanes)) /\
  tt_nextId (toneTransport (scheduleAutomation lanes tracks bpm e)) =
    (tt_nextId (toneTransport e) + length (List.flat_map (laneEvents bpm e) lanes))%nat.
Proof.
  destruct (scheduleAutomation_frame lanes tracks bpm e) as (_ & _ & _ & _ & Hids & Hnext).
  cbv zeta in *.
  assert (Hlen : length (List.flat_map (laneEvents bpm e) lanes) =
                 length (List.flat_map (lanePoints e) lanes)).
  { apply flat_map_length_ext. intros l. apply laneEvents_length. }
  rewrite Hlen. split; [|split; assumption].
  unfold scheduleAutomation. rewrite forEach_scheduleLane_timeline.
  destruct (clearAutomation_frame e) as (Hm & _ & Hn & _).
  rewrite Hn. reflexivity.
Qed.

End Timeline.

(** X2.  An automation build first clears the automation events it had
    submitted and then submits, after the events that remain, one
    parameter-set event per point of every lane it does not skip - at
    [beatsToSeconds(point.time)], carrying the point's value, in lane and
    point order - under consecutive fresh ids, which it records. *)
Theorem scheduleAutomation_submits (lanes : list AutomationLane) (tracks : list Track)
    (bpm : Q) (e : AudioEngine) :
  let e' := scheduleAutomation lanes tracks bpm e in
  let submitted := List.flat_map (laneEvents bpm e) lanes in
  tt_timeline (toneTransport e') =
    tt_timeline (toneTransport (clearAutomation e)) ++
    stampFrom (tt_nextId (toneTransport e)) submitted /\
  automationEventIds e' = seq (tt_nextId (toneTransport e)) (length submitted) /\
  tt_nextId (toneTransport e') = (tt_nextId (toneTransport e) + length submitted)%nat.
Proof.
  cbv zeta. apply scheduleAutomation_stamps.
Qed.

(** ** Event ids are never reused *)

Section WellFormed.

Lemma wf_weaken tr tr' :
  tt_timeline tr' = tt_timeline tr -> (tt_nextId tr <= tt_nextId tr')%nat ->
  transportWellFormed tr -> transportWellFormed tr'.
Proof.
  intros Ht Hn Hwf. unfold transportWellFormed in *. rewrite Ht.
  eapply List.Forall_impl; [|exact Hwf]. simpl. intros ev Hev. lia.
Qed.

Lemma wf_filter (f : TimelineEvent -> bool) tr tr' :
  tt_timeline tr' = List.filter f (tt_timeline tr) -> tt_nextId tr' = tt_nextId tr ->
  transportWellFormed tr -> transportWellFormed tr'.
Proof.
  intros Ht Hn Hwf. unfold transportWellFormed in *. rewrite Ht, Hn.
  rewrite List.Forall_forall in *. intros ev Hin.
  apply List.filter_In in Hin. now apply Hwf.
Qed.

Lemma wf_stamp evs tr tr' :
  tt_timeline tr' = tt_timeline tr ++ stampFrom (tt_nextId tr) evs ->
  tt_nextId tr' = (tt_nextId tr + length evs)%nat ->
  transportWellFormed tr -> transportWellFormed tr'.
Proof.
  intros Ht Hn Hwf. unfold transportWellFormed in *. rewrite Ht, Hn.
  apply List.Forall_app. split.
  - eapply List.Forall_impl; [|exact Hwf]. simpl. intros ev Hev. lia.
  - rewrite List.Forall_forall. intros ev Hin.
    assert (Hid : In (te_id ev) (seq (tt_nextId tr) (length evs))).
    { rewrite <- stampFrom_ids. now apply List.in_map. }
    apply List.in_seq in Hid. lia.
Qed.

Lemma clearIds_wf ids tr :
  transportWellFormed tr -> transportWellFormed (forEach transportClear ids tr).
Proof.
  intros Hwf. eapply wf_filter; [apply transportClear_all | | exact Hwf].
  now destruct (transportClear_frame ids tr) as (_ & _ & Hn).
Qed.

Lemma schedulePattern_timeline pattern startTime e :
  is_Some (instruments e !! pat_instrumentId pattern) ->
  tt_timeline (toneTransport (schedulePattern pattern startTime e)) =
    tt_timeline (toneTransport e) ++
    stampFrom (tt_nextId (toneTransport e))
      (List.map (patternNoteEvent (pat_instrumentId pattern) startTime) (notes pattern)) /\
  tt_nextId (toneTransport (schedulePattern pattern startTime e)) =
    (tt_nextId (toneTransport e) + length (notes pattern))%nat.
Proof.
  intros [inst Hinst]. unfold schedulePattern. rewrite Hinst.
  generalize (notes pattern). intros ns. revert e Hinst.
  induction ns as [|n ns IH]; intros e Hinst.
  { simpl. now rewrite List.app_nil_r, Nat.add_0_r. }
  rewrite forEach_cons.
  destruct (IH (schedulePatternNote (pat_instrumentId pattern) startTime n e) Hinst)
    as (Ht & Hn).
  rewrite Ht, Hn. simpl. rewrite <- List.app_assoc. split; [reflexivity | lia].
Qed.

Lemma clearAutomation_wf e :
  transportWellFormed (toneTransport e) ->
  transportWellFormed (toneTransport (clearAutomation e)).
Proof.
  intros Hwf. unfold clearAutomation. simpl. now apply clearIds_wf.
Qed.

Lemma scheduleAutomation_wf lanes tracks bpm e :
  transportWellFormed (toneTransport e) ->
  transportWellFormed (toneTransport (scheduleAutomation lanes tracks bpm e)).
Proof.
  intros Hwf.
  destruct (scheduleAutomation_stamps lanes tracks bpm e) as (Ht & _ & Hn).
  destruct (clearAutomation_frame e) as (_ & _ & Hn0 & _).
  eapply wf_stamp; [rewrite Ht, Hn0; reflexivity | now rewrite Hn, Hn0 |].
  now apply clearAutomation_wf.
Qed.

Lemma schedulePlaylist_wf tracks patterns bpm e :
  transportWellFormed (toneTransport e) ->
  transportWellFormed (toneTransport (schedulePlaylist tracks patterns bpm e)).
Proof.
  intros Hwf.
  destruct (schedulePlaylist_frame tracks patterns bpm e) as (_ & _ & Hn & Ht & _).
  cbv zeta in *.
  apply (wf_weaken (toneTransport (clearAutomation e))); [exact Ht | |].
  - destruct (clearAutomation_frame e) as (_ & _ & Hn0 & _). rewrite Hn, Hn0. lia.
  - now apply clearAutomation_wf.
Qed.

End WellFormed.

(** X3.  Event ids are never reused.  If every event on the transport's
    timeline carries an id below the transport's next id, this still holds
    after [schedulePattern], [scheduleAutomation], [schedulePlaylist],
    [scheduleStepSequencer] and after each of the clearing methods. *)
Theorem scheduling_keeps_ids_fresh (e : AudioEngine) :
  transportWellFormed (toneTransport e) ->
  (forall pattern startTime,
     transportWellFormed (toneTransport (schedulePattern pattern startTime e))) /\
  (forall lanes tracks bpm,
     transportWellFormed (toneTransport (scheduleAutomation lanes tracks bpm e))) /\
  (forall tracks patterns bpm,
     transportWellFormed (toneTransport (schedulePlaylist tracks patterns bpm e))) /\
  (forall pattern bpm,
     transportWellFormed (toneTransport (scheduleStepSequencer pattern bpm e))) /\
  transportWellFormed (toneTransport (clearAutomation e)) /\
  transportWellFormed (toneTransport (clearPlaylist e)) /\
  transportWellFormed (toneTransport (clearStepSequencer e)) /\
  transportWellFormed (toneTransport (clearScheduledEvents e)).
Proof.
  intros Hwf.
  assert (Hstep : transportWellFormed (toneTransport (clearStepSequencer e))).
  { unfold clearStepSequencer. simpl. now apply clearIds_wf. }
  repeat split.
  - intros pattern startTime.
    destruct (instruments e !! pat_instrumentId pattern) as [inst|] eqn:Hinst.
    + destruct (schedulePattern_timeline pattern startTime e) as (Ht & Hn); [eauto|].
      eapply wf_stamp; [exact Ht | | exact Hwf].
      now rewrite Hn, List.length_map.
    + unfold schedulePattern. now rewrite Hinst.
  - intros lanes tracks bpm. now apply scheduleAutomation_wf.
  - intros tracks patterns bpm. now apply schedulePlaylist_wf.
  - intros pattern bpm. unfold scheduleStepSequencer.
    now destruct (instruments (clearStepSequencer e) !! ssp_instrumentId pattern).
  - now apply clearAutomation_wf.
  - unfold clearPlaylist. now apply clearAutomation_wf.
  - exact Hstep.
  - unfold clearScheduledEvents, transportWellFormed. simpl. constructor.
Qed.

Lemma scheduling_keeps_ids_fresh_witness :
  let playing := audioEngine (Store.play bandWorld) in
  transportWellFormed (toneTransport playing) /\
  transportWellFormed (toneTransport (scheduleAutomation [tempoLane; lane_0_4] [] 90 playing)).
Proof.
  cbv zeta.
  assert (H : transportWellFormed (toneTransport (audioEngine (Store.play bandWorld)))).
  { vm_compute. repeat constructor. }
  split; [exact H|].
  destruct (scheduling_keeps_ids_fresh _ H) as (_ & Hauto & _).
  exact (Hauto [tempoLane; lane_0_4] [] 90).
Defined.

(** ** Rebuilding the automation *)

Lemma existsb_seq id n k :
  List.existsb (Nat.eqb id) (seq n k) = true <-> (n <= id < n + k)%nat.
Proof.
  rewrite List.existsb_exists. split.
  - intros (x & Hin & Heq). apply Nat.eqb_eq in Heq. subst x.
    apply List.in_seq in Hin. lia.
  - intros H. exists id. split; [apply List.in_seq; lia | apply Nat.eqb_refl].
Qed.

Lemma filter_all_true {A : Type} (f : A -> bool) (l : list A) :
  List.Forall (fun x => f x = true) l -> List.filter f l = l.
Proof.
  induction 1 as [|x l Hx _ IH]; simpl; [reflexivity|]. now rewrite Hx, IH.
Qed.

Lemma filter_all_false {A : Type} (f : A -> bool) (l : list A) :
  List.Forall (fun x => f x = false) l -> List.filter f l = [].
Proof.
  induction 1 as [|x l Hx _ IH]; simpl; [reflexivity|]. now rewrite Hx.
Qed.

Lemma clear_fresh_stamp n evs timeline :
  List.Forall (fun ev => (te_id ev < n)%nat) timeline ->
  List.filter (fun ev => negb (List.existsb (Nat.eqb (te_id ev)) (seq n (length evs))))
    (timeline ++ stampFrom n evs) = timeline.
Proof.
  intros Hold. rewrite List.filter_app.
  rewrite filter_all_true, filter_all_false; [apply List.app_nil_r | |].
  - rewrite List.Forall_forall. intros ev Hin.
    apply negb_false_iff, existsb_seq.
    assert (Hid : In (te_id ev) (seq n (length evs))).
    { rewrite <- stampFrom_ids. now apply List.in_map. }
    apply List.in_seq in Hid. lia.
  - eapply List.Forall_impl; [|exact Hold]. simpl. intros ev Hlt.
    apply negb_true_iff. destruct (List.existsb _ _) eqn:E; [|reflexivity].
    apply existsb_seq in E. lia.
Qed.

(** Clearing after an automation build leaves what clearing alone leaves. *)
Lemma clearAutomation_undoes_build lanes tracks bpm e :
  transportWellFormed (toneTransport e) ->
  tt_timeline (toneTransport (clearAutomation (scheduleAutomation lanes tracks bpm e))) =
  tt_timeline (toneTransport (clearAutomation e)).
Proof.
  intros Hwf.
  destruct (scheduleAutomation_stamps lanes tracks bpm e) as (Ht & Hids & _).
  unfold clearAutomation at 1. simpl. rewrite transportClear_all, Ht, Hids.
  apply clear_fresh_stamp.
  pose proof (clearAutomation_wf e Hwf) as Hc.
  destruct (clearAutomation_frame e) as (_ & _ & Hn & _).
  unfold transportWellFormed in Hc. now rewrite Hn in Hc.
Qed.

(** X4.  On a transport that never reused an id, an automation build is
    undone exactly by clearing: [clearAutomation] after [scheduleAutomation]
    leaves the timeline that clearing alone would leave.  So a second build
    replaces the first - no stale or duplicate automation event stays - and
    an event whose id the engine did not record as an automation id is never
    removed by a build. *)
Theorem automation_rebuild_replaces (e : AudioEngine) :
  transportWellFormed (toneTransport e) ->
  (forall lanes tracks bpm,
     tt_timeline (toneTransport (clearAutomation (scheduleAutomation lanes tracks bpm e))) =
     tt_timeline (toneTransport (clearAutomation e))) /\
  (forall lanes tracks bpm lanes' tracks' bpm',
     let first := scheduleAutomation lanes tracks bpm e in
     tt_timeline (toneTransport (scheduleAutomation lanes' tracks' bpm' first)) =
     tt_timeline (toneTransport (clearAutomation e)) ++
     stampFrom (tt_nextId (toneTransport first)) (List.flat_map (laneEvents bpm' e) lanes')) /\
  (forall lanes tracks bpm ev,
     In ev (tt_timeline (toneTransport e)) ->
     ~ In (te_id ev) (automationEventIds e) ->
     In ev (tt_timeline (toneTransport (scheduleAutomation lanes tracks bpm e)))).
Proof.
  intros Hwf.
  split; [intros; now apply clearAutomation_undoes_build|]. split.
  - intros lanes tracks bpm lanes' tracks' bpm' first.
    destruct (scheduleAutomation_stamps lanes' tracks' bpm' first) as (Ht & _).
    rewrite Ht. subst first. rewrite clearAutomation_undoes_build by exact Hwf.
    f_equal. f_equal.
    apply List.flat_map_ext. intros l. apply laneEvents_sameMaps.
    now destruct (scheduleAutomation_frame lanes tracks bpm e) as (Hm & _).
  - intros lanes tracks bpm ev Hin Hid.
    destruct (scheduleAutomation_stamps lanes tracks bpm e) as (Ht & _).
    rewrite Ht. apply List.in_or_app. left.
    unfold clearAutomation. simpl. rewrite transportClear_all.
    apply List.filter_In. split; [exact Hin|].
    apply negb_true_iff. destruct (List.existsb _ _) eqn:E; [|reflexivity].
    apply List.existsb_exists in E. destruct E as (x & Hx & Heq).
    apply Nat.eqb_eq in Heq. subst x. contradiction.
Qed.

Lemma automation_rebuild_replaces_witness :
  let playing := audioEngine (Store.play bandWorld) in
  transportWellFormed (toneTransport playing) /\
  tt_timeline (toneTransport (clearAutomation (scheduleAutomation [tempoLane] [] 90 playing))) =
  tt_timeline (toneTransport (clearAutomation playing)).
Proof.
  cbv zeta.
  assert (H : transportWellFormed (toneTransport (audioEngine (Store.play bandWorld)))).
  { vm_compute. repeat constructor. }
  split; [exact H|].
  exact (proj1 (automation_rebuild_replaces _ H) [tempoLane] [] 90).
Defined.

(** ** Rebuilding the playlist, and stopping *)

(** X5.  A playlist build is a rebuild: the parts and players it leaves
    depend on the tracks, patterns and tempo given and on what is registered
    in the engine, not on what an earlier build had left, so building twice
    never duplicates a part or a player; and it leaves no automation id
    recorded. *)
Theorem schedulePlaylist_rebuilds (tracks tracks' : list Track)
    (patterns patterns' : list Pattern) (bpm bpm' : Q) (e : AudioEngine) :
  let first := schedulePlaylist tracks' patterns' bpm' e in
  playlistParts (schedulePlaylist tracks patterns bpm first) =
    playlistParts (schedulePlaylist tracks patterns bpm e) /\
  audioPlayers (schedulePlaylist tracks patterns bpm first) =
    audioPlayers (schedulePlaylist tracks patterns bpm e) /\
  automationEventIds (schedulePlaylist tracks patterns bpm e) = [].
Proof.
  cbv zeta.
  destruct (schedulePlaylist_frame tracks' patterns' bpm' e) as (Hm & _).
  cbv zeta in Hm.
  rewrite !schedulePlaylist_parts, !schedulePlaylist_players.
  split; [|split].
  - apply List.flat_map_ext. intros t. now apply trackParts_sameMaps.
  - apply List.flat_map_ext. intros t. now apply trackPlayers_sameMaps.
  - rewrite schedulePlaylist_adds. reflexivity.
Qed.

(** X6.  A playlist build also clears the automation: built after an
    automation build, on a transport that never reused an id, it removes
    every automation event again.  ([play] builds the playlist first and the
    automation second.) *)
Theorem schedulePlaylist_discards_automation (tracks tracks' : list Track)
    (patterns : list Pattern) (lanes : list AutomationLane) (bpm bpm' : Q)
    (e : AudioEngine) :
  transportWellFormed (toneTransport e) ->
  let e' := schedulePlaylist tracks patterns bpm
              (scheduleAutomation lanes tracks' bpm' e) in
  tt_timeline (toneTransport e') = tt_timeline (toneTransport (clearAutomation e)) /\
  automationEventIds e' = [].
Proof.
  intros Hwf e'. subst e'. rewrite schedulePlaylist_adds. split; [|reflexivity].
  now apply clearAutomation_undoes_build.
Qed.

Lemma schedulePlaylist_discards_automation_witness :
  transportWellFormed (toneTransport bandEngine) /\
  tt_timeline
    (toneTransport
       (schedulePlaylist [leadTrack] [leadPattern] 120
          (scheduleAutomation [tempoLane] [] 120 bandEngine))) =
  tt_timeline (toneTransport (clearAutomation bandEngine)).
Proof.
  assert (H : transportWellFormed (toneTransport bandEngine)) by constructor.
  split; [exact H|].
  exact (proj1 (schedulePlaylist_discards_automation [leadTrack] [] [leadPattern]
                  [tempoLane] 120 120 bandEngine H)).
Defined.

Lemma clearAutomation_timeline e :
  tt_timeline (toneTransport (clearAutomation e)) =
  List.filter (fun ev => negb (List.existsb (Nat.eqb (te_id ev)) (automationEventIds e)))
    (tt_timeline (toneTransport e)).
Proof.
  change (toneTransport (clearAutomation e))
    with (forEach transportClear (automationEventIds e) (toneTransport e)).
  apply transportClear_all.
Qed.

Lemma clearAutomation_clock e :
  tt_state (toneTransport (clearAutomation e)) = tt_state (toneTransport e) /\
  tt_position (toneTransport (clearAutomation e)) = tt_position (toneTransport e).
Proof.
  destruct (clearAutomation_frame e) as (_ & (Hs & Hp) & _). now split.
Qed.

(** What the engine holds after the store's [stop]. *)
Lemma stop_engine e :
  let e' := clearPlaylist (Engine.stop e) in
  playlistParts e' = [] /\ audioPlayers e' = [] /\ automationEventIds e' = [] /\
  tt_timeline (toneTransport e') = tt_timeline (toneTransport (clearAutomation e)) /\
  tt_state (toneTransport e') = Stopped /\
  tt_position (toneTransport e') = 0.
Proof.
  cbv zeta. unfold clearPlaylist.
  split; [reflexivity|]. split; [reflexivity|]. split; [reflexivity|].
  split; [now rewrite !clearAutomation_timeline|].
  destruct (clearAutomation_clock
              (setAudioPlayers [] (setPlaylistParts [] (Engine.stop e)))) as (Hs & Hp).
  rewrite Hs, Hp. split; reflexivity.
Qed.

(** X7.  [stop] after [play], on a transport that never reused an id,
    leaves nothing of what [play] scheduled: no part, no player, no
    automation id, and on the timeline only the events that were there
    before and were not automation events; the transport is stopped at
    position 0 and the store shows beat 0, not playing.  The project is
    untouched. *)
Theorem stop_after_play_clears (w : World) :
  transportWellFormed (toneTransport (audioEngine w)) ->
  let w' := Store.stop (Store.play w) in
  playlistParts (audioEngine w') = [] /\
  audioPlayers (audioEngine w') = [] /\
  automationEventIds (audioEngine w') = [] /\
  tt_timeline (toneTransport (audioEngine w')) =
    tt_timeline (toneTransport (clearAutomation (audioEngine w))) /\
  tt_state (toneTransport (audioEngine w')) = Stopped /\
  tt_position (toneTransport (audioEngine w')) == 0 /\
  isPlaying (transport (store w')) = false /\
  currentBeat (transport (store w')) == 0 /\
  project (store w') = project (store w).
Proof.
  intros Hwf w'. subst w'.
  destruct (stop_engine (audioEngine (Store.play w)))
    as (Hparts & Hplayers & Hids & Ht & Hs & Hp).
  cbv zeta in *.
  change (audioEngine (Store.stop (Store.play w)))
    with (clearPlaylist (Engine.stop (audioEngine (Store.play w)))).
  rewrite Hparts, Hplayers, Hids, Ht, Hs, Hp.
  repeat split; try reflexivity.
  set (pr := project (store w)).
  set (e1 := schedulePlaylist (proj_tracks pr) (proj_patterns pr) (proj_bpm pr)
               (audioEngine w)).
  assert (Hwf1 : transportWellFormed (toneTransport e1)).
  { now apply schedulePlaylist_wf. }
  pose proof (clearAutomation_undoes_build (proj_automationLanes pr) (proj_tracks pr)
                (proj_bpm pr) e1 Hwf1) as Hundo.
  rewrite clearAutomation_timeline in *.
  change (audioEngine (Store.play w))
    with (Engine.play (scheduleAutomation (proj_automationLanes pr) (proj_tracks pr)
                         (proj_bpm pr) e1)).
  change (tt_timeline (toneTransport (Engine.play ?x)))
    with (tt_timeline (toneTransport x)).
  change (automationEventIds (Engine.play ?x)) with (automationEventIds x).
  rewrite Hundo. subst e1. rewrite schedulePlaylist_adds.
  change (toneTransport (addSchedule ?a ?b (clearPlaylist ?x)))
    with (toneTransport (clearAutomation (setAudioPlayers [] (setPlaylistParts [] x)))).
  change (automationEventIds (clearAutomation ?x)) with (@nil nat).
  rewrite clearAutomation_timeline. simpl List.existsb.
  rewrite (filter_all_true (fun _ => negb false)); [reflexivity|].
  apply List.Forall_forall. reflexivity.
Qed.

Lemma stop_after_play_clears_witness :
  let w := Store.play bandWorld in
  transportWellFormed (toneTransport (audioEngine w)) /\
  playlistParts (audioEngine (Store.stop (Store.play w))) = [] /\
  tt_timeline (toneTransport (audioEngine (Store.stop (Store.play w)))) =
    tt_timeline (toneTransport (clearAutomation (audioEngine w))).
Proof.
  cbv zeta.
  assert (H : transportWellFormed (toneTransport (audioEngine (Store.play bandWorld)))).
  { vm_compute. repeat constructor. }
  split; [exact H|].
  destruct (stop_after_play_clears (Store.play bandWorld) H)
    as (Hparts & _ & _ & Htimeline & _).
  split; [exact Hparts | exact Htimeline].
Defined.

(** ** The step expander's contract *)

(** C2 (amended).  At tempo [bpm > 0] with [stepDuration = 60/bpm/4], for a
    step pattern whose rolls are 1, 2, 3, 4 or absent.  When the pattern's
    instrument is registered in the engine, the part built holds, row by
    row and step by step, exactly the hits of the active steps - a step
    with roll [r] gives exactly [r] hits (one hit without a roll), hit [k]
    at [baseTime + k * (stepDuration / r)], where [baseTime] is
    [i * stepDuration] for even [i] and
    [i * stepDuration + stepDuration * (s/100) * 0.5] for odd [i], each
    carrying the step's velocity divided by 127 - and the part loops with
    period [steps * stepDuration].  When the instrument is not registered,
    the previous part is cleared and nothing is scheduled: no part is left,
    the events recorded for the step sequencer are removed from the
    timeline and no event is added, and the playlist and the automation are
    as before. *)
Theorem scheduleStepSequencer_expansion (pattern : StepSequencerPattern) (bpm : Q)
    (e : AudioEngine) :
  0 < bpm ->
  rollsInRange pattern ->
  (is_Some (instruments e !! ssp_instrumentId pattern) ->
   stepPatternScheduled pattern bpm e) /\
  (instruments e !! ssp_instrumentId pattern = None ->
   let e' := scheduleStepSequencer pattern bpm e in
   stepSequencerPart e' = None /\
   scheduledEventIds e' = [] /\
   (forall ev, In ev (tt_timeline (toneTransport e')) <->
               In ev (tt_timeline (toneTransport e)) /\
               ~ In (te_id ev) (scheduledEventIds e)) /\
   playlistParts e' = playlistParts e /\
   audioPlayers e' = audioPlayers e /\
   automationEventIds e' = automationEventIds e).
Proof.
  intros _ Hrolls. split.
  - intros [inst Hinst]. unfold stepPatternScheduled, scheduleStepSequencer.
    rewrite clearStepSequencer_instruments, Hinst.
    eexists. split; [reflexivity|].
    cbn [sp_events sp_loop sp_loopEnd].
    split; [now apply stepSequencerEvents_spec|].
    split; reflexivity.
  - intros Hnone e'. subst e'. unfold scheduleStepSequencer.
    rewrite clearStepSequencer_instruments, Hnone.
    split; [reflexivity|]. split; [reflexivity|].
    split; [|repeat split].
    intros ev. unfold clearStepSequencer.
    cbn [toneTransport setScheduledEventIds setToneTransport setStepSequencerPart
         scheduledEventIds].
    rewrite transportClear_all, List.filter_In, negb_true_iff.
    split; intros (Hin & Hid); (split; [exact Hin|]).
    + intros Hold. apply Bool.not_true_iff_false in Hid. apply Hid.
      apply List.existsb_exists. exists (te_id ev).
      split; [exact Hold | apply Nat.eqb_refl].
    + apply Bool.not_true_iff_false. intros Hex.
      apply List.existsb_exists in Hex. destruct Hex as (id & Hold & Heq).
      apply Nat.eqb_eq in Heq. subst id. contradiction.
Qed.

Lemma scheduleStepSequencer_expansion_witness :
  stepPatternScheduled (twoStepPattern "drums") 120 drumEngine.
Proof.
  apply (scheduleStepSequencer_expansion (twoStepPattern "drums") 120 drumEngine).
  - reflexivity.
  - repeat constructor; simpl; lia.
  - vm_compute. eauto.
Defined.

(** At 120 bpm a sixteenth lasts 1/8 s.  Step 0 with roll 2 gives hits at 0
    and 1/16; step 1, odd, with swing 50 is delayed by a quarter of a step. *)
Example twoStepPattern_events :
  Forall2 stepEventEq (stepSequencerEvents (twoStepPattern "drums") 120)
    [mkStepEvent 0 "C4" (100 # 127);
     mkStepEvent (1 # 16) "C4" (100 # 127);
     mkStepEvent ((1 # 8) + (1 # 8) * (1 # 4)) "C4" (100 # 127)].
Proof. repeat constructor. Qed.

(** A roll of 3 gives exactly three hits, a third of a step apart. *)
Example tripletPattern_events :
  Forall2 stepEventEq (stepSequencerEvents tripletPattern 120)
    [mkStepEvent 0 "E2" 1;
     mkStepEvent ((1 # 8) / 3) "E2" 1;
     mkStepEvent (2 * ((1 # 8) / 3)) "E2" 1].
Proof. repeat constructor. Qed.

(** C2 as stated fails for a pattern whose instrument is not registered:
    [scheduleStepSequencer] returns before building any hit. *)
Lemma scheduleStepSequencer_unbound_counterexample :
  ~ stepPatternScheduled (twoStepPattern "ghost") 120 emptyEngine.
Proof.
  intros (part & Hpart & _). vm_compute in Hpart. discriminate Hpart.
Qed.

(** ** Dangling references: what is skipped and what is not *)

Lemma stampFrom_In n evs time action :
  In (time, action) evs ->
  exists id, In (mkTimelineEvent id time action) (stampFrom n evs) /\
             In id (seq n (length evs)).
Proof.
  revert n. induction evs as [|[t a] evs IH]; intros n Hin; [destruct Hin|].
  destruct Hin as [Heq | Hin].
  - injection Heq as -> ->. exists n. split; now left.
  - destruct (IH (S n) Hin) as (id & Hev & Hid).
    exists id. split; now right.
Qed.

(** C7 (amended).  Schedule building skips, without failing, (a) a clip
    without audio buffer whose pattern id or whose track's instrument id
    does not resolve, and (b) a lane of a track parameter other than tempo
    whose target track has no channel: the build is the build of the
    project without that clip, respectively without that lane, so
    everything else is scheduled as before.  But (c) an enabled tempo lane
    is scheduled whether or not its target track has a channel - every
    point of it is submitted, at [beatsToSeconds(point.time)] with the
    point's value, under a recorded id - and (d) an audio clip of an
    unmuted track is scheduled whenever its buffer and its track's channel
    exist, whatever the track's instrument id: its player is created, on
    that channel, starting at [beatsToSeconds(clip.startTime)]. *)
Theorem schedule_skips_dangling (e : AudioEngine) (bpm : Q) :
  (forall tracks1 track tracks2 clips1 clip clips2 patterns,
     danglingClip e patterns track clip ->
     schedulePlaylist
       (tracks1 ++ setClips (clips1 ++ clip :: clips2) track :: tracks2) patterns bpm e =
     schedulePlaylist
       (tracks1 ++ setClips (clips1 ++ clips2) track :: tracks2) patterns bpm e) /\
  (forall lanes1 lane lanes2 tracks,
     danglingLane e lane ->
     scheduleAutomation (lanes1 ++ lane :: lanes2) tracks bpm e =
     scheduleAutomation (lanes1 ++ lanes2) tracks bpm e) /\
  (forall lanes tracks lane point,
     In lane lanes -> targetParam lane = TTempo -> enabled lane = true ->
     In point (points lane) ->
     exists ev,
       In ev (tt_timeline (toneTransport (scheduleAutomation lanes tracks bpm e))) /\
       In (te_id ev) (automationEventIds (scheduleAutomation lanes tracks bpm e)) /\
       te_time ev = Seconds (beatsToSeconds bpm (ap_time point)) /\
       te_action ev =
         ParamSet TTempo (targetTrackId lane) (targetEffectId lane) (ap_value point)) /\
  (forall tracks patterns track clip,
     In track tracks -> mute track = false -> In clip (clips track) ->
     truthy (audioBufferId clip) = true ->
     is_Some (audioBuffers e !! orEmpty (audioBufferId clip)) ->
     is_Some (trackChannels e !! track_id track) ->
     In (mkPlayer (orEmpty (audioBufferId clip)) (track_id track)
           (beatsToSeconds bpm (clip_startTime clip)))
        (audioPlayers (schedulePlaylist tracks patterns bpm e))).
Proof.
  split; [|split; [|split]].
  - intros tracks1 track tracks2 clips1 clip clips2 patterns Hd.
    rewrite !schedulePlaylist_adds, !List.flat_map_app. simpl.
    assert (Hparts :
      trackParts e patterns bpm (setClips (clips1 ++ clip :: clips2) track) =
      trackParts e patterns bpm (setClips (clips1 ++ clips2) track)).
    { unfold trackParts. simpl. destruct (mute track); [reflexivity|].
      rewrite !List.flat_map_app. simpl.
      change (clipParts e patterns bpm
                (setClips (clips1 ++ clip :: clips2) track) clip)
        with (clipParts e patterns bpm track clip).
      now rewrite (clipParts_dangling e patterns bpm track clip Hd). }
    assert (Hplayers :
      trackPlayers e bpm (setClips (clips1 ++ clip :: clips2) track) =
      trackPlayers e bpm (setClips (clips1 ++ clips2) track)).
    { unfold trackPlayers. simpl. destruct (mute track); [reflexivity|].
      rewrite !List.flat_map_app. simpl.
      change (clipPlayers e bpm (setClips (clips1 ++ clip :: clips2) track)
                (trackChannels e !! track_id track) clip)
        with (clipPlayers e bpm track (trackChannels e !! track_id track) clip).
      now rewrite (clipPlayers_dangling e patterns bpm track _ clip Hd). }
    now rewrite Hparts, Hplayers.
  - intros lanes1 lane lanes2 tracks (Hch & Hparam).
    unfold scheduleAutomation.
    rewrite !forEach_app, forEach_cons.
    rewrite scheduleLane_dangling; [reflexivity|].
    split; [|exact Hparam].
    rewrite (forEach_preserves trackChannels); [exact Hch|].
    intros. apply scheduleLane_trackChannels.
  - intros lanes tracks lane point Hlane Htempo Hen Hpoint.
    destruct (scheduleAutomation_stamps lanes tracks bpm e) as (Ht & Hids & _).
    set (time := Seconds (beatsToSeconds bpm (ap_time point))).
    set (action := ParamSet TTempo (targetTrackId lane) (targetEffectId lane)
                     (ap_value point)).
    assert (Hsub : In (time, action) (List.flat_map (laneEvents bpm e) lanes)).
    { apply List.in_flat_map. exists lane. split; [exact Hlane|].
      unfold laneEvents, lanePoints. rewrite Hen, Htempo.
      destruct (points lane) as [|p0 ps] eqn:Hpts; [destruct Hpoint|].
      cbn [negb orb length Nat.eqb isTempo andb]. rewrite andb_false_r.
      apply List.in_map_iff. exists point. split; [reflexivity | exact Hpoint]. }
    destruct (stampFrom_In (tt_nextId (toneTransport e)) _ time action Hsub)
      as (id & Hev & Hid).
    exists (mkTimelineEvent id time action).
    rewrite Ht, Hids. split; [apply List.in_or_app; now right|].
    split; [exact Hid|]. split; reflexivity.
  - intros tracks patterns track clip Htrack Hmute Hclip Haudio [buf Hbuf] [ch Hch].
    rewrite schedulePlaylist_players. apply List.in_flat_map.
    exists track. split; [exact Htrack|].
    unfold trackPlayers. rewrite Hmute. apply List.in_flat_map.
    exists clip. split; [exact Hclip|].
    unfold clipPlayers. rewrite Haudio, Hbuf, Hch. now left.
Qed.

Lemma schedule_skips_dangling_witness :
  danglingClip bandEngine [leadPattern] leadTrack ghostClip /\
  danglingLane bandEngine ghostVolumeLane /\
  schedulePlaylist [setClips ([patternClip "c1" "p-lead" 0] ++ [ghostClip]) leadTrack]
    [leadPattern] 120 bandEngine =
  schedulePlaylist [setClips ([patternClip "c1" "p-lead" 0] ++ []) leadTrack]
    [leadPattern] 120 bandEngine /\
  scheduleAutomation [ghostVolumeLane; tempoLane] [] 120 bandEngine =
  scheduleAutomation [tempoLane] [] 120 bandEngine.
Proof.
  assert (Hclip : danglingClip bandEngine [leadPattern] leadTrack ghostClip).
  { split; [reflexivity | left; reflexivity]. }
  assert (Hlane : danglingLane bandEngine ghostVolumeLane).
  { split; [vm_compute; reflexivity | discriminate]. }
  destruct (schedule_skips_dangling bandEngine 120) as (Hclips & Hlanes & _).
  split; [exact Hclip|]. split; [exact Hlane|]. split.
  - exact (Hclips [] leadTrack [] [patternClip "c1" "p-lead" 0] ghostClip []
             [leadPattern] Hclip).
  - exact (Hlanes [] ghostVolumeLane [tempoLane] [] Hlane).
Defined.

(** C7 as stated fails in two places.  A tempo lane whose target track has
    no channel is not skipped: its point is scheduled.  And an audio clip on
    a track whose instrument id does not resolve is not skipped either: its
    player is created. *)
Lemma dangling_not_skipped_counterexample :
  (trackChannels emptyEngine !! targetTrackId tempoLane = None /\
   scheduleAutomation [tempoLane] [] 120 emptyEngine <>
   scheduleAutomation [] [] 120 emptyEngine) /\
  (instruments sampleEngine !! orEmpty (track_instrumentId audioTrackGhostInstrument) = None /\
   schedulePlaylist [audioTrackGhostInstrument] [] 120 sampleEngine <>
   schedulePlaylist [setClips [] audioTrackGhostInstrument] [] 120 sampleEngine).
Proof.
  split; split.
  - vm_compute. reflexivity.
  - intros H. apply (f_equal automationEventIds) in H. vm_compute in H. discriminate H.
  - vm_compute. reflexivity.
  - intros H. apply (f_equal audioPlayers) in H. vm_compute in H. discriminate H.
Qed.

(** ** Pause and resume: what [play] does again *)

(** One call of [play], on the timeline: the automation events recorded
    before are cleared and the automation of the project is submitted
    under the ids that follow those taken by the parts and players. *)
Lemma play_effect (w : World) :
  let e := audioEngine w in
  let pr := project (store w) in
  let e' := audioEngine (Store.play w) in
  let submitted :=
    List.flat_map (laneEvents (proj_bpm pr) e) (proj_automationLanes pr) in
  let n := (tt_nextId (toneTransport e) +
            eventCount (playlistParts e') (audioPlayers e'))%nat in
  tt_timeline (toneTransport e') =
    tt_timeline (toneTransport (clearAutomation e)) ++ stampFrom n submitted /\
  automationEventIds e' = seq n (length submitted) /\
  tt_nextId (toneTransport e') = (n + length submitted)%nat.
Proof.
  cbv zeta. unfold Store.play.
  set (pr := project (store w)). set (e := audioEngine w).
  set (e1 := schedulePlaylist (proj_tracks pr) (proj_patterns pr) (proj_bpm pr) e).
  destruct (schedulePlaylist_frame (proj_tracks pr) (proj_patterns pr) (proj_bpm pr) e)
    as (Hm1 & _ & Hn1 & Ht1 & Hids1).
  destruct (scheduleAutomation_frame (proj_automationLanes pr) (proj_tracks pr)
              (proj_bpm pr) e1) as (_ & _ & Hparts & Hplayers & _).
  destruct (scheduleAutomation_stamps (proj_automationLanes pr) (proj_tracks pr)
              (proj_bpm pr) e1) as (Ht & Hids & Hnext).
  cbv zeta in *. fold e1 in Hm1, Hn1, Ht1, Hids1.
  assert (Hsame : List.flat_map (laneEvents (proj_bpm pr) e1) (proj_automationLanes pr) =
                  List.flat_map (laneEvents (proj_bpm pr) e) (proj_automationLanes pr)).
  { apply List.flat_map_ext. intros l. now apply laneEvents_sameMaps. }
  assert (Hclear : tt_timeline (toneTransport (clearAutomation e1)) =
                   tt_timeline (toneTransport (clearAutomation e))).
  { unfold clearAutomation at 1. rewrite Hids1. exact Ht1. }
  cbn [audioEngine Engine.play setToneTransport toneTransport transportStart
       tt_timeline tt_nextId playlistParts audioPlayers automationEventIds].
  rewrite Hparts, Hplayers, Ht, Hids, Hnext, Hsame, Hclear, Hn1.
  repeat split; reflexivity.
Qed.

(** The engine after some time of playing, a pause, and some time of
    waiting: the transport is paused where playing had brought it, and
    nothing else has changed. *)
Lemma paused_engine (w : World) (played waited : Q) :
  tt_state (toneTransport (audioEngine w)) = Started ->
  audioEngine (elapse waited (Store.pause (elapse played w))) =
  setToneTransport
    (mkTransport Paused (tt_position (toneTransport (audioEngine w)) + played)
       (tt_timeline (toneTransport (audioEngine w)))
       (tt_nextId (toneTransport (audioEngine w))))
    (audioEngine w).
Proof.
  intros Hstate. unfold elapse, Store.pause, Engine.pause.
  cbn [audioEngine store toneTransport setToneTransport].
  unfold transportElapse at 2. rewrite Hstate.
  unfold transportPause. cbn [tt_state tt_position tt_timeline tt_nextId].
  unfold transportElapse. cbn [tt_state].
  reflexivity.
Qed.

(** C10 (amended).  [pause] freezes the backend clock and [play] restarts
    it from the frozen position: whatever time passes while playing and
    while paused, the transport is paused, at the position playing had
    reached, until [play] starts it again there.  But [play] always clears
    and rebuilds the schedule from the current project: with the project
    unchanged in between, the rebuilt parts and players are equal in
    content to the ones built before, while the automation events are
    cleared - none of their ids is left on the timeline - and the same
    events are submitted again under fresh, later ids. *)
Theorem resume_rebuilds_schedule (w : World) (played waited : Q) :
  let playing := elapse played (Store.play w) in
  let paused := elapse waited (Store.pause playing) in
  let resumed := Store.play paused in
  let pr := project (store w) in
  let submitted :=
    List.flat_map (laneEvents (proj_bpm pr) (audioEngine w)) (proj_automationLanes pr) in
  (tt_state (toneTransport (audioEngine playing)) = Started /\
   tt_position (toneTransport (audioEngine playing)) =
     tt_position (toneTransport (audioEngine w)) + played) /\
  (tt_state (toneTransport (audioEngine paused)) = Paused /\
   isPlaying (transport (store paused)) = false /\
   tt_position (toneTransport (audioEngine paused)) =
     tt_position (toneTransport (audioEngine playing))) /\
  (tt_state (toneTransport (audioEngine resumed)) = Started /\
   isPlaying (transport (store resumed)) = true /\
   tt_position (toneTransport (audioEngine resumed)) =
     tt_position (toneTransport (audioEngine playing))) /\
  project (store resumed) = project (store w) /\
  playlistParts (audioEngine resumed) = playlistParts (audioEngine playing) /\
  audioPlayers (audioEngine resumed) = audioPlayers (audioEngine playing) /\
  exists first second before before',
    tt_timeline (toneTransport (audioEngine playing)) =
      before ++ stampFrom first submitted /\
    automationEventIds (audioEngine playing) = seq first (length submitted) /\
    tt_timeline (toneTransport (audioEngine resumed)) =
      before' ++ stampFrom second submitted /\
    automationEventIds (audioEngine resumed) = seq second (length submitted) /\
    (first + length submitted <= second)%nat /\
    (forall ev, In ev before' <->
                In ev before /\ ~ In (te_id ev) (automationEventIds (audioEngine playing))).
Proof.
  cbv zeta.
  set (pr := project (store w)).
  set (submitted := List.flat_map (laneEvents (proj_bpm pr) (audioEngine w))
                      (proj_automationLanes pr)).
  set (eP := audioEngine (Store.play w)).
  destruct (play_frame w) as (Hm1 & Hst1 & Hpos1 & Hparts1 & Hplayers1 & _).
  destruct (play_effect w) as (Ht1 & Hids1 & Hn1).
  cbv zeta in *. fold pr submitted eP in Hm1, Hst1, Hpos1, Hparts1, Hplayers1, Ht1, Hids1, Hn1.
  set (n1 := (tt_nextId (toneTransport (audioEngine w)) +
              eventCount (playlistParts eP) (audioPlayers eP))%nat) in *.
  (* the engine while playing *)
  assert (HeP : audioEngine (elapse played (Store.play w)) =
                setToneTransport
                  (mkTransport Started (tt_position (toneTransport eP) + played)
                     (tt_timeline (toneTransport eP)) (tt_nextId (toneTransport eP))) eP).
  { unfold elapse. cbn [audioEngine]. fold eP. unfold transportElapse.
    now rewrite Hst1. }
  (* the engine while paused *)
  set (paused := elapse waited (Store.pause (elapse played (Store.play w)))).
  assert (Hpaused : audioEngine paused =
                    setToneTransport
                      (mkTransport Paused (tt_position (toneTransport eP) + played)
                         (tt_timeline (toneTransport eP)) (tt_nextId (toneTransport eP)))
                      eP).
  { subst paused. now rewrite (paused_engine (Store.play w) played waited Hst1). }
  assert (Hproject : project (store paused) = pr) by reflexivity.
  assert (Hm2 : sameMaps (audioEngine paused) (audioEngine w)).
  { rewrite Hpaused. exact Hm1. }
  (* the second [play] *)
  destruct (play_frame paused) as (_ & Hst3 & Hpos3 & Hparts3 & Hplayers3 & _).
  destruct (play_effect paused) as (Ht3 & Hids3 & _).
  cbv zeta in *. rewrite Hproject in *.
  assert (Hsame : List.flat_map (laneEvents (proj_bpm pr) (audioEngine paused))
                    (proj_automationLanes pr) = submitted).
  { apply List.flat_map_ext. intros l. now apply laneEvents_sameMaps. }
  rewrite Hsame in Ht3, Hids3.
  set (eR := audioEngine (Store.play paused)) in *.
  split.
  { rewrite HeP. cbn [toneTransport setToneTransport tt_state tt_position].
    now rewrite Hpos1. }
  split.
  { rewrite Hpaused, HeP. repeat split; reflexivity. }
  split.
  { rewrite HeP. cbn [toneTransport setToneTransport tt_state tt_position].
    split; [exact Hst3|]. split; [reflexivity|].
    rewrite Hpos3, Hpaused. reflexivity. }
  split; [reflexivity|].
  split.
  { rewrite HeP. cbn [playlistParts setToneTransport]. rewrite Hparts3, Hparts1.
    apply List.flat_map_ext. intros t. now apply trackParts_sameMaps. }
  split.
  { rewrite HeP. cbn [audioPlayers setToneTransport]. rewrite Hplayers3, Hplayers1.
    apply List.flat_map_ext. intros t. now apply trackPlayers_sameMaps. }
  exists n1, (tt_nextId (toneTransport (audioEngine paused)) +
              eventCount (playlistParts eR) (audioPlayers eR))%nat,
         (tt_timeline (toneTransport (clearAutomation (audioEngine w)))),
         (tt_timeline (toneTransport (clearAutomation (audioEngine paused)))).
  rewrite HeP. cbn [toneTransport setToneTransport tt_timeline automationEventIds].
  split; [exact Ht1|]. split; [exact Hids1|].
  split; [exact Ht3|]. split; [exact Hids3|].
  split.
  { rewrite Hpaused. cbn [toneTransport setToneTransport tt_nextId]. rewrite Hn1. lia. }
  intros ev. rewrite clearAutomation_timeline, Hpaused.
  cbn [toneTransport setToneTransport tt_timeline automationEventIds].
  rewrite Ht1, Hids1, List.filter_In, negb_true_iff, List.in_app_iff.
  assert (Hex : List.existsb (Nat.eqb (te_id ev)) (seq n1 (length submitted)) = false <->
                ~ In (te_id ev) (seq n1 (length submitted))).
  { rewrite <- Bool.not_true_iff_false, List.existsb_exists. split.
    - intros H Hin. apply H. exists (te_id ev). split; [exact Hin | apply Nat.eqb_refl].
    - intros H (id & Hin & Heq). apply Nat.eqb_eq in Heq. subst id. contradiction. }
  rewrite Hex. split.
  - intros ([Hin | Hin] & Hid); [now split|].
    exfalso. apply Hid. rewrite <- stampFrom_ids. now apply List.in_map.
  - intros (Hin & Hid). split; [now left | exact Hid].
Qed.

(** In the band project the two parts take the event ids 0 and 1 and the
    tempo point is submitted as event 2; after [pause] and [play] the
    rebuilt parts have taken 3 and 4 and the tempo point is event 5. *)
Example resume_band_ids :
  automationEventIds (audioEngine (Store.play bandWorld)) = [2%nat] /\
  automationEventIds (audioEngine (Store.play (Store.pause (Store.play bandWorld)))) =
    [5%nat].
Proof. split; vm_compute; reflexivity. Qed.

(** C10 as stated fails: in the playing band project the tempo point was
    submitted as event 2; after [pause] and [play] it has been cleared and
    submitted again as event 5. *)
Lemma resume_counterexample :
  ~ resumeKeepsSchedule (Store.play bandWorld).
Proof.
  intros (Htimeline & _). vm_compute in Htimeline. discriminate Htimeline.
Qed.

(** ** Disabled lanes *)

Lemma scheduleLane_disabled bpm lane e :
  enabled lane = false \/ points lane = [] -> scheduleLane bpm lane e = e.
Proof.
  intros [H | H]; unfold scheduleLane; rewrite H; [reflexivity|].
  simpl. now rewrite orb_true_r.
Qed.

Lemma updateFirst_split {A : Type} (pred : A -> bool) (f : A -> A) (l1 l2 : list A) (x : A) :
  List.Forall (fun y => pred y = false) l1 -> pred x = true ->
  updateFirst pred f (l1 ++ x :: l2) = l1 ++ f x :: l2.
Proof.
  intros Hl1 Hx. induction Hl1 as [|y l1 Hy _ IH]; simpl.
  - now rewrite Hx.
  - now rewrite Hy, IH.
Qed.

(** X8.  A lane that is disabled, or has no points, is left out of an
    automation build: the build is the build without it.  In particular,
    toggling an enabled lane off keeps its points in the project but takes
    its events out of the next build. *)
Theorem disabled_lane_not_scheduled (e : AudioEngine) (bpm : Q) (tracks : list Track) :
  (forall lanes1 lane lanes2,
     enabled lane = false \/ points lane = [] ->
     scheduleAutomation (lanes1 ++ lane :: lanes2) tracks bpm e =
     scheduleAutomation (lanes1 ++ lanes2) tracks bpm e) /\
  (forall w lanes1 lane lanes2,
     proj_automationLanes (project (store w)) = lanes1 ++ lane :: lanes2 ->
     List.Forall (fun l => String.eqb (lane_id l) (lane_id lane) = false) lanes1 ->
     enabled lane = true ->
     let w' := StoreMore.toggleAutomationLane (lane_id lane) w in
     proj_automationLanes (project (store w')) =
       lanes1 ++ setEnabled false lane :: lanes2 /\
     scheduleAutomation (proj_automationLanes (project (store w'))) tracks bpm e =
       scheduleAutomation (lanes1 ++ lanes2) tracks bpm e).
Proof.
  assert (Hskip : forall lanes1 lane lanes2,
    enabled lane = false \/ points lane = [] ->
    scheduleAutomation (lanes1 ++ lane :: lanes2) tracks bpm e =
    scheduleAutomation (lanes1 ++ lanes2) tracks bpm e).
  { intros lanes1 lane lanes2 H. unfold scheduleAutomation.
    rewrite !forEach_app, forEach_cons. now rewrite scheduleLane_disabled. }
  split; [exact Hskip|].
  intros w lanes1 lane lanes2 Hlanes Hfresh Hen w'.
  assert (Hnew : proj_automationLanes (project (store w')) =
                 lanes1 ++ setEnabled false lane :: lanes2).
  { subst w'. unfold StoreMore.toggleAutomationLane. simpl. rewrite Hlanes.
    rewrite updateFirst_split; [now rewrite Hen | exact Hfresh | apply String.eqb_refl]. }
  split; [exact Hnew|]. rewrite Hnew. apply Hskip. now left.
Qed.

Lemma disabled_lane_not_scheduled_witness :
  scheduleAutomation
    (proj_automationLanes
       (project (store (StoreMore.toggleAutomationLane "lane-t" bandWorld))))
    [] 120 bandEngine =
  scheduleAutomation [] [] 120 bandEngine.
Proof.
  destruct (disabled_lane_not_scheduled bandEngine 120 []) as (_ & Htoggle).
  exact (proj2 (Htoggle bandWorld [] tempoLane [] eq_refl (List.Forall_nil _) eq_refl)).
Defined.

(** ** Where the hits of a step pattern fall *)

Section HitBounds.

Lemma ofNat_S n : ofNat (S n) == ofNat n + 1.
Proof.
  unfold ofNat. rewrite Nat2Z.inj_succ, <- Z.add_1_r, inject_Z_plus. reflexivity.
Qed.

Lemma ofNat_le n m : (n <= m)%nat -> ofNat n <= ofNat m.
Proof. intros H. unfold ofNat. rewrite <- Zle_Qle. lia. Qed.

Lemma ofNat_lt n m : (n < m)%nat -> ofNat n < ofNat m.
Proof. intros H. unfold ofNat. rewrite <- Zlt_Qlt. lia. Qed.

Lemma rollCountOf_pos step : (0 < rollCountOf step)%nat.
Proof. unfold rollCountOf. destruct (roll step) as [[|n]|]; lia. Qed.

(** The [k]-th of [rc] roll hits starts less than one step after the
    first. *)
Lemma roll_offset_bound sd k rc :
  0 < sd -> (k < rc)%nat ->
  0 <= ofNat k * (sd / ofNat rc) /\ ofNat k * (sd / ofNat rc) < sd.
Proof.
  intros Hsd Hk.
  assert (Hrc : 0 < ofNat rc) by (apply ofNat_pos; lia).
  assert (Hne : ~ ofNat rc == 0) by (intros E; rewrite E in Hrc; discriminate).
  assert (Heq : ofNat k * (sd / ofNat rc) == (ofNat k * sd) / ofNat rc)
    by (field; exact Hne).
  rewrite Heq. split.
  - apply Qle_shift_div_l; [exact Hrc|]. rewrite Qmult_0_l.
    apply Qmult_le_0_compat; [apply ofNat_nonneg | now apply Qlt_le_weak].
  - apply Qlt_shift_div_r; [exact Hrc|].
    rewrite (Qmult_comm sd). apply Qmult_lt_compat_r; [exact Hsd | now apply ofNat_lt].
Qed.

Lemma Forall_flatMapFrom {A B : Type} (P : B -> Prop) (f : nat -> A -> list B)
    (l : list A) (i : nat) :
  (forall j x, (i <= j < i + length l)%nat -> List.Forall P (f j x)) ->
  List.Forall P (flatMapFrom f l i).
Proof.
  revert i. induction l as [|x l IH]; intros i H; simpl; [constructor|].
  apply List.Forall_app. split.
  - apply H. simpl. lia.
  - apply IH. intros j y Hj. apply H. simpl. lia.
Qed.

Lemma Forall_flat_map_In {A B : Type} (P : B -> Prop) (f : A -> list B) (l : list A) :
  (forall x, In x l -> List.Forall P (f x)) -> List.Forall P (List.flat_map f l).
Proof.
  induction l as [|x l IH]; intros H; simpl; [constructor|].
  apply List.Forall_app. split; [apply H; now left|].
  apply IH. intros y Hy. apply H. now right.
Qed.

(** The hits of step [i] start within the step, delayed by the swing offset
    when [i] is odd. *)
Lemma codeStepHits_bounds sd sw row i step :
  0 < sd -> 0 <= sw ->
  List.Forall
    (fun ev =>
       ofNat i * sd <= se_time ev /\
       se_time ev < ofNat (S i) * sd + (if Nat.odd i then sd * sw * (1 # 2) else 0))
    (codeStepHits sd sw row i step).
Proof.
  intros Hsd Hsw. unfold codeStepHits, scheduleStep.
  destruct (active step); [|constructor].
  rewrite rollLoop_spec, List.app_nil_l, List.Forall_map.
  apply List.Forall_forall. intros k Hk. apply List.in_seq in Hk.
  unfold se_time. rewrite mod2_odd, ofNat_S.
  destruct (roll_offset_bound sd k (rollCountOf step) Hsd) as (Hlo & Hhi); [lia|].
  set (r := ofNat k * (sd / ofNat (rollCountOf step))) in *.
  assert (Hoff : 0 <= sd * sw * (1 # 2)).
  { apply Qmult_le_0_compat; [|discriminate].
    apply Qmult_le_0_compat; [now apply Qlt_le_weak | exact Hsw]. }
  destruct (Nat.odd i); split; lra.
Qed.

End HitBounds.

(** X9.  For [bpm > 0], swing in [0,100] and rows of at most [steps] steps,
    every hit of the step-sequencer part starts at or after time 0 and
    before the loop end plus the swing offset
    [stepDuration * (swing/100) * 0.5]; so without swing every hit starts
    inside the loop [0, steps * stepDuration). *)
Theorem stepSequencer_hits_within_loop (pattern : StepSequencerPattern) (bpm : Q) :
  0 < bpm -> 0 <= swing pattern -> swing pattern <= 100 ->
  List.Forall (fun row => (length (row_steps row) <= steps pattern)%nat) (rows pattern) ->
  let stepDuration := stepDurationOf bpm in
  let loopEnd := ofNat (steps pattern) * stepDuration in
  List.Forall
    (fun ev =>
       0 <= se_time ev /\
       se_time ev < loopEnd + stepDuration * (swing pattern / 100) * (1 # 2))
    (stepSequencerEvents pattern bpm) /\
  (swing pattern == 0 ->
   List.Forall (fun ev => 0 <= se_time ev /\ se_time ev < loopEnd)
     (stepSequencerEvents pattern bpm)).
Proof.
  intros Hbpm Hs0 Hs100 Hrows. cbv zeta.
  pose proof (stepDuration_pos bpm Hbpm) as Hsd. fold (stepDurationOf bpm) in Hsd.
  set (sd := stepDurationOf bpm) in *.
  assert (Hsw : 0 <= orNumber (swing pattern) 0 / 100).
  { rewrite orNumber_zero. apply Qle_shift_div_l; [reflexivity|]. now rewrite Qmult_0_l. }
  assert (Hoff : 0 <= sd * (swing pattern / 100) * (1 # 2)).
  { apply Qmult_le_0_compat; [|discriminate].
    apply Qmult_le_0_compat; [now apply Qlt_le_weak|].
    apply Qle_shift_div_l; [reflexivity|]. now rewrite Qmult_0_l. }
  assert (Hmain : List.Forall
    (fun ev => 0 <= se_time ev /\
               se_time ev < ofNat (steps pattern) * sd +
                            sd * (swing pattern / 100) * (1 # 2))
    (stepSequencerEvents pattern bpm)).
  { rewrite stepSequencerEvents_flat. fold sd.
    apply Forall_flat_map_In. intros row Hrow.
    rewrite List.Forall_forall in Hrows. specialize (Hrows row Hrow).
    apply Forall_flatMapFrom. intros j step Hj.
    eapply List.Forall_impl;
      [|apply (codeStepHits_bounds sd _ row j step Hsd Hsw)].
    cbv beta. intros ev (Hlo & Hhi).
    assert (Hj0 : 0 <= ofNat j * sd).
    { apply Qmult_le_0_compat; [apply ofNat_nonneg | now apply Qlt_le_weak]. }
    assert (Hj1 : ofNat (S j) * sd <= ofNat (steps pattern) * sd).
    { apply Qmult_le_compat_r; [apply ofNat_le; lia | now apply Qlt_le_weak]. }
    assert (Hodd : (if Nat.odd j
                    then sd * (orNumber (swing pattern) 0 / 100) * (1 # 2) else 0)
                   <= sd * (swing pattern / 100) * (1 # 2)).
    { destruct (Nat.odd j); [|exact Hoff]. rewrite orNumber_zero. apply Qle_refl. }
    split; lra. }
  split; [exact Hmain|].
  intros Hzero. eapply List.Forall_impl; [|exact Hmain].
  cbv beta. intros ev (Hlo & Hhi). split; [exact Hlo|].
  rewrite Hzero in Hhi.
  assert (Hz : sd * (0 / 100) * (1 # 2) == 0) by (unfold Qdiv; ring).
  rewrite Hz in Hhi. lra.
Qed.

Lemma stepSequencer_hits_within_loop_witness :
  List.Forall
    (fun ev => 0 <= se_time ev /\
               se_time ev < ofNat 16 * stepDurationOf 120 +
                            stepDurationOf 120 * (50 / 100) * (1 # 2))
    (stepSequencerEvents (twoStepPattern "drums") 120).
Proof.
  refine (proj1 (stepSequencer_hits_within_loop (twoStepPattern "drums") 120 _ _ _ _)).
  - reflexivity.
  - discriminate.
  - discriminate.
  - repeat constructor.
Defined.

(** With full swing the bound is reached: in a two-step pattern the second
    roll hit of step 1 starts exactly at the loop end. *)
Example swung_roll_reaches_loop_end :
  let pattern :=
    mkStepPattern "sp" "Step Pattern 1" 2
      [mkRow "r" "C4" "C4" [mkStep false 100 "C4" None; mkStep true 100 "C4" (Some 2%nat)]]
      "drums" 100 in
  Forall2 stepEventEq (stepSequencerEvents pattern 120)
    [mkStepEvent (3 # 16) "C4" (100 # 127);
     mkStepEvent (ofNat (steps pattern) * stepDurationOf 120) "C4" (100 # 127)].
Proof. repeat constructor. Qed.

(** ** Step-sequencer edits *)

Section StepGrid.

Lemma updateFirst_same {A : Type} (pred : A -> bool) (f : A -> A) (l : list A) :
  (forall x, List.find pred l = Some x -> f x = x) -> updateFirst pred f l = l.
Proof.
  induction l as [|x l IH]; intros H; simpl; [reflexivity|].
  simpl in H. destruct (pred x).
  - now rewrite H.
  - now rewrite IH.
Qed.

Lemma emptySteps_length n note : length (StoreMore.emptySteps n note) = n.
Proof. apply List.repeat_length. Qed.

Lemma emptySteps_inactive n note :
  List.Forall (fun step => active step = false) (StoreMore.emptySteps n note).
Proof.
  apply List.Forall_forall. intros step Hin.
  apply List.repeat_spec in Hin. now subst.
Qed.

Lemma updateStep_grid patternId rowIndex stepIndex a v r pattern rowsNew :
  gridInvariant pattern ->
  rowsNew =
    alter (fun row => setRowSteps
                        (alter (StoreMore.updateStep a v r) stepIndex (row_steps row)) row)
      rowIndex (rows pattern) ->
  patternId = ssp_id pattern ->
  gridInvariant (setRows rowsNew pattern).
Proof.
  intros Hg -> _. unfold gridInvariant in *. simpl.
  apply Forall_alter; [exact Hg|].
  intros row _ Hrow. simpl. now rewrite length_alter.
Qed.

End StepGrid.

(** X10.  The grid of every step pattern stays rectangular: if every row
    of every pattern has exactly [steps] steps, this still holds after
    adding a pattern, toggling a step, setting the swing, adding a row and
    removing a row. *)
Theorem stepSequencer_edits_keep_grid (w : World) :
  List.Forall gridInvariant (stepSequencerPatterns (store w)) ->
  (forall newId rowId instrumentId stepCount,
     List.Forall gridInvariant
       (stepSequencerPatterns
          (store (snd (StoreMore.addStepSequencerPattern newId rowId instrumentId
                         stepCount w))))) /\
  (forall patternId rowIndex stepIndex a v r,
     List.Forall gridInvariant
       (stepSequencerPatterns
          (store (StoreMore.updateStepSequencerStep patternId rowIndex stepIndex a v r w)))) /\
  (forall patternId s,
     List.Forall gridInvariant
       (stepSequencerPatterns (store (StoreMore.setStepSequencerSwing patternId s w)))) /\
  (forall newId patternId note name,
     List.Forall gridInvariant
       (stepSequencerPatterns
          (store (StoreMore.addStepSequencerRow newId patternId note name w)))) /\
  (forall patternId rowIndex,
     List.Forall gridInvariant
       (stepSequencerPatterns
          (store (StoreMore.removeStepSequencerRow patternId rowIndex w)))).
Proof.
  intros Hinv. repeat split.
  - intros newId rowId instrumentId stepCount. simpl.
    apply List.Forall_app. split; [exact Hinv|].
    constructor; [|constructor]. unfold gridInvariant. simpl.
    repeat (apply List.Forall_cons; [simpl; apply List.repeat_length|]).
    apply List.Forall_nil.
  - intros patternId rowIndex stepIndex a v r. simpl.
    apply updateFirst_Forall; [|exact Hinv].
    intros pattern Hg.
    destruct (rows pattern !! rowIndex) as [row|]; [|exact Hg].
    destruct (row_steps row !! stepIndex); [|exact Hg].
    now apply (updateStep_grid (ssp_id pattern) rowIndex stepIndex a v r pattern).
  - intros patternId s. simpl.
    apply updateFirst_Forall; [|exact Hinv]. intros pattern Hg. exact Hg.
  - intros newId patternId note name. simpl.
    apply updateFirst_Forall; [|exact Hinv]. intros pattern Hg.
    unfold gridInvariant in *. simpl. apply List.Forall_app. split; [exact Hg|].
    constructor; [|constructor]. simpl. apply emptySteps_length.
  - intros patternId rowIndex. simpl.
    apply updateFirst_Forall; [|exact Hinv]. intros pattern Hg.
    unfold gridInvariant in *. simpl. now apply Forall_delete.
Qed.

Lemma stepSequencer_edits_keep_grid_witness :
  let w := snd (StoreMore.addStepSequencerPattern "sp" (fun i => pretty i) "drums"
                  (Some 4%nat) bandWorld) in
  List.Forall gridInvariant (stepSequencerPatterns (store w)) /\
  List.Forall gridInvariant
    (stepSequencerPatterns
       (store (StoreMore.updateStepSequencerStep "sp" 2 3 true None (Some 3%nat) w))).
Proof.
  cbv zeta.
  set (w := snd (StoreMore.addStepSequencerPattern "sp" (fun i => pretty i) "drums"
                   (Some 4%nat) bandWorld)).
  assert (H : List.Forall gridInvariant (stepSequencerPatterns (store w))).
  { vm_compute. repeat constructor. }
  split; [exact H|].
  destruct (stepSequencer_edits_keep_grid w H) as (_ & Hupd & _).
  exact (Hupd "sp"%string 2%nat 3%nat true None (Some 3%nat)).
Defined.

Lemma clamp_between lo hi x : lo <= hi -> lo <= clamp lo hi x /\ clamp lo hi x <= hi.
Proof.
  intros H. unfold clamp. split.
  - apply Q.le_max_l.
  - apply Q.max_lub; [exact H | apply Q.le_min_l].
Qed.

Lemma clamp_inside lo hi x : lo <= x -> x <= hi -> clamp lo hi x == x.
Proof.
  intros H0 H1. unfold clamp. rewrite (Q.min_r hi x H1). now apply Q.max_r.
Qed.

(** X11.  [setStepSequencerSwing] stores the swing clamped into [0,100]:
    the pattern found afterwards has a swing in [0,100], equal to the value
    given when that was in range, and its grid is untouched. *)
Theorem setStepSequencerSwing_clamps (patternId : string) (s : Q) (w : World)
    (pattern : StepSequencerPattern) :
  findStepPattern patternId w = Some pattern ->
  exists pattern',
    findStepPattern patternId (StoreMore.setStepSequencerSwing patternId s w) =
      Some pattern' /\
    0 <= swing pattern' /\ swing pattern' <= 100 /\
    (0 <= s -> s <= 100 -> swing pattern' == s) /\
    rows pattern' = rows pattern /\ steps pattern' = steps pattern.
Proof.
  intros Hfind. unfold findStepPattern in *. simpl.
  rewrite find_updateFirst by reflexivity. rewrite Hfind. simpl.
  eexists. split; [reflexivity|]. simpl.
  destruct (clamp_between 0 100 s) as (H0 & H100); [discriminate|].
  repeat split; try assumption. intros. now apply clamp_inside.
Qed.

Lemma setStepSequencerSwing_clamps_witness :
  exists pattern',
    findStepPattern "sp"
      (StoreMore.setStepSequencerSwing "sp" 250
         (snd (StoreMore.addStepSequencerPattern "sp" (fun i => pretty i) "drums"
                 None bandWorld))) = Some pattern' /\
    swing pattern' <= 100.
Proof.
  destruct (setStepSequencerSwing_clamps "sp" 250
              (snd (StoreMore.addStepSequencerPattern "sp" (fun i => pretty i) "drums"
                      None bandWorld))
              _ eq_refl) as (p' & Hf & _ & H100 & _).
  exists p'. split; assumption.
Defined.

(** X12.  [updateStepSequencerStep] checks its indices: when the row or the
    step does not exist in the pattern found, nothing changes at all; when
    both exist, exactly that step is rewritten - its active flag is the one
    given, its velocity the one given or 100 when omitted, its roll the one
    given or, when none is given, the roll it had, its note unchanged - and
    every other step and row, the number of steps and rows, and the other
    fields of the row and of the pattern are as before. *)
Theorem updateStepSequencerStep_in_place (patternId : string) (rowIndex stepIndex : nat)
    (a : bool) (v : option Q) (r : option nat) (w : World)
    (pattern : StepSequencerPattern) :
  findStepPattern patternId w = Some pattern ->
  let w' := StoreMore.updateStepSequencerStep patternId rowIndex stepIndex a v r w in
  ((rows pattern !! rowIndex ≫= fun row => row_steps row !! stepIndex) = None ->
   w' = w) /\
  (forall row step,
     rows pattern !! rowIndex = Some row -> row_steps row !! stepIndex = Some step ->
     exists pattern' row' step',
       findStepPattern patternId w' = Some pattern' /\
       rows pattern' !! rowIndex = Some row' /\
       row_steps row' !! stepIndex = Some step' /\
       active step' = a /\
       step_velocity step' = default 100 v /\
       roll step' = match r with Some given => Some given | None => roll step end /\
       step_note step' = step_note step /\
       (forall j, j <> stepIndex -> row_steps row' !! j = row_steps row !! j) /\
       (forall i, i <> rowIndex -> rows pattern' !! i = rows pattern !! i) /\
       length (row_steps row') = length (row_steps row) /\
       length (rows pattern') = length (rows pattern) /\
       row_id row' = row_id row /\ row_name row' = row_name row /\
       row_note row' = row_note row /\
       ssp_id pattern' = ssp_id pattern /\ steps pattern' = steps pattern /\
       ssp_instrumentId pattern' = ssp_instrumentId pattern /\
       swing pattern' = swing pattern).
Proof.
  intros Hfind w'. split.
  - intros Hnone. subst w'. unfold StoreMore.updateStepSequencerStep.
    rewrite updateFirst_same.
    + destruct w as [[pr tr ssp] eng]. reflexivity.
    + intros p Hp. unfold findStepPattern in Hfind. rewrite Hfind in Hp.
      injection Hp as <-.
      destruct (rows pattern !! rowIndex) as [row|]; [|reflexivity].
      simpl in Hnone. now rewrite Hnone.
  - intros row step Hrow Hstep. subst w'. unfold findStepPattern in *. simpl.
    rewrite find_updateFirst.
    2:{ intros p. destruct (rows p !! rowIndex) as [row0|]; [|reflexivity].
        now destruct (row_steps row0 !! stepIndex). }
    rewrite Hfind. simpl. rewrite Hrow, Hstep.
    eexists. eexists. exists (StoreMore.updateStep a v r step).
    split; [reflexivity|]. simpl.
    split; [rewrite list_lookup_alter_eq, Hrow; reflexivity|]. simpl.
    split; [now rewrite list_lookup_alter_eq, Hstep|].
    split; [reflexivity|]. split; [reflexivity|]. split; [reflexivity|].
    split; [reflexivity|].
    split; [intros j Hj; now apply list_lookup_alter_ne|].
    split; [intros i Hi; now apply list_lookup_alter_ne|].
    split; [apply length_alter|]. split; [apply length_alter|].
    repeat split.
Qed.

Lemma updateStepSequencerStep_in_place_witness :
  let w := snd (StoreMore.addStepSequencerPattern "sp" (fun i => pretty i) "drums"
                  (Some 4%nat) bandWorld) in
  is_Some (findStepPattern "sp" w) /\
  StoreMore.updateStepSequencerStep "sp" 2 4 true None None w = w.
Proof.
  cbv zeta.
  set (w := snd (StoreMore.addStepSequencerPattern "sp" (fun i => pretty i) "drums"
                   (Some 4%nat) bandWorld)).
  set (pattern := default tripletPattern (findStepPattern "sp" w)).
  assert (H : findStepPattern "sp" w = Some pattern) by (vm_compute; reflexivity).
  split; [now exists pattern|].
  apply (proj1 (updateStepSequencerStep_in_place "sp" 2 4 true None None w pattern H)).
  vm_compute. reflexivity.
Defined.

(** ** Undo history *)

Section HistoryStacks.

Context {A : Type}.

Lemma removelast_snoc (l : list A) (x : A) : List.removelast (l ++ [x]) = l.
Proof.
  induction l as [|y l IH]; [reflexivity|].
  simpl. rewrite IH. now destruct l.
Qed.

Lemma removelast_length (l : list A) : length (List.removelast l) = pred (length l).
Proof.
  induction l as [|y l IH]; [reflexivity|].
  destruct l as [|z l]; [reflexivity|].
  change (List.removelast (y :: z :: l)) with (y :: List.removelast (z :: l)).
  change (length (y :: List.removelast (z :: l)))
    with (S (length (List.removelast (z :: l)))).
  now rewrite IH.
Qed.

Lemma snoc_cases (l : list A) : l = [] \/ exists l' x, l = l' ++ [x].
Proof.
  destruct l as [|y l]; [now left|]. right.
  destruct (@List.exists_last _ (y :: l)) as (l' & x & E); [discriminate|].
  eauto.
Qed.

Lemma last_tl_snoc (l : list A) (x : A) :
  (1 <= length l)%nat -> last (List.tl (l ++ [x])) = Some x.
Proof.
  destruct l as [|y l]; simpl; [lia|]. intros _. apply last_snoc.
Qed.

End HistoryStacks.

Lemma saveState_top state h :
  exists rest, undoStack (History.saveState state h) = rest ++ [state] /\
               redoStack (History.saveState state h) = [].
Proof.
  unfold History.saveState. simpl.
  destruct (Nat.ltb maxHistorySize (length (undoStack h ++ [state]))) eqn:E.
  - apply Nat.ltb_lt in E. rewrite List.length_app in E. simpl in E.
    unfold maxHistorySize in E.
    destruct (undoStack h) as [|y u]; simpl in *; [lia|]. eauto.
  - eauto.
Qed.

(** X13.  The history never grows beyond its limit: if the undo and redo
    stacks together hold at most 50 states, they still do after
    [saveState], [undo] and [redo]; [saveState] drops the oldest state when
    the undo stack is full and always empties the redo stack. *)
Theorem history_stays_bounded (h : HistoryManager) (state : HistoryState) :
  historyBounded h ->
  historyBounded (History.saveState state h) /\
  historyBounded (snd (History.undo state h)) /\
  historyBounded (snd (History.redo state h)) /\
  redoStack (History.saveState state h) = [] /\
  (length (undoStack h) = maxHistorySize ->
   undoStack (History.saveState state h) = List.tl (undoStack h) ++ [state]).
Proof.
  unfold historyBounded. intros Hb. split; [|split; [|split; [|split]]].
  - unfold History.saveState. simpl. rewrite Nat.add_0_r.
    destruct (Nat.ltb maxHistorySize (length (undoStack h ++ [state]))) eqn:E.
    + rewrite List.length_app in *. simpl in *.
      destruct (undoStack h); simpl in *; [unfold maxHistorySize; lia|].
      rewrite List.length_app. simpl. lia.
    + now apply Nat.ltb_ge in E.
  - unfold History.undo. destruct (Nat.eqb (length (undoStack h)) 0) eqn:E; [exact Hb|].
    apply Nat.eqb_neq in E. simpl.
    rewrite removelast_length, List.length_app. simpl. lia.
  - unfold History.redo. destruct (Nat.eqb (length (redoStack h)) 0) eqn:E; [exact Hb|].
    apply Nat.eqb_neq in E. simpl.
    rewrite removelast_length, List.length_app. simpl. lia.
  - reflexivity.
  - intros Hfull. unfold History.saveState. simpl.
    rewrite List.length_app, Hfull. simpl.
    destruct (undoStack h); [discriminate Hfull | reflexivity].
Qed.

Lemma history_stays_bounded_witness :
  let h := mkHistory [currentHistoryState bandWorld] [currentHistoryState bandWorld] in
  historyBounded h /\
  historyBounded (History.saveState (currentHistoryState bandWorld) h).
Proof.
  cbv zeta.
  assert (H : historyBounded
                (mkHistory [currentHistoryState bandWorld] [currentHistoryState bandWorld])).
  { unfold historyBounded, maxHistorySize. simpl. lia. }
  split; [exact H|].
  exact (proj1 (history_stays_bounded _ (currentHistoryState bandWorld) H)).
Defined.

(** X14.  [undo] and [redo] are inverse to each other.  After [saveState]
    an [undo] returns the state saved.  Whenever [undo] returns a state,
    a [redo] from that state returns the state undone from and puts both
    stacks back as they were, and symmetrically for [redo] followed by
    [undo]; with an empty stack either returns nothing and changes
    nothing. *)
Theorem history_undo_redo (h : HistoryManager) (current : HistoryState) :
  (forall saved, fst (History.undo current (History.saveState saved h)) = Some saved) /\
  (undoStack h = [] -> History.undo current h = (None, h)) /\
  (redoStack h = [] -> History.redo current h = (None, h)) /\
  (undoStack h <> [] ->
   exists previous h1,
     History.undo current h = (Some previous, h1) /\
     History.redo previous h1 = (Some current, h)) /\
  (redoStack h <> [] ->
   exists next h1,
     History.redo current h = (Some next, h1) /\
     History.undo next h1 = (Some current, h)).
Proof.
  split; [|split; [|split; [|split]]].
  - intros saved. destruct (saveState_top saved h) as (rest & Hu & _).
    unfold History.undo. rewrite Hu, List.length_app. simpl.
    rewrite Nat.add_1_r. simpl. apply last_snoc.
  - intros E. unfold History.undo. now rewrite E.
  - intros E. unfold History.redo. now rewrite E.
  - intros Hne. destruct (snoc_cases (undoStack h)) as [E | (u & s & E)]; [contradiction|].
    exists s. eexists. unfold History.undo. rewrite E, List.length_app. simpl.
    rewrite Nat.add_1_r. simpl. rewrite last_snoc, removelast_snoc.
    split; [reflexivity|].
    unfold History.redo. simpl. rewrite List.length_app. simpl.
    rewrite Nat.add_1_r. simpl. rewrite last_snoc, removelast_snoc.
    destruct h as [u0 r0]. simpl in E. now rewrite E.
  - intros Hne. destruct (snoc_cases (redoStack h)) as [E | (r & s & E)]; [contradiction|].
    exists s. eexists. unfold History.redo. rewrite E, List.length_app. simpl.
    rewrite Nat.add_1_r. simpl. rewrite last_snoc, removelast_snoc.
    split; [reflexivity|].
    unfold History.undo. simpl. rewrite List.length_app. simpl.
    rewrite Nat.add_1_r. simpl. rewrite last_snoc, removelast_snoc.
    destruct h as [u0 r0]. simpl in E. now rewrite E.
Qed.

Lemma history_undo_redo_witness :
  let h := mkHistory [currentHistoryState bandWorld] [] in
  let current := mkHistoryState (setPatterns [] bandProject) [] in
  exists previous h1,
    History.undo current h = (Some previous, h1) /\
    History.redo previous h1 = (Some current, h).
Proof.
  cbv zeta.
  destruct (history_undo_redo (mkHistory [currentHistoryState bandWorld] [])
              (mkHistoryState (setPatterns [] bandProject) []))
    as (_ & _ & _ & Hinverse & _).
  apply Hinverse. discriminate.
Defined.

(** ** Undo in the store *)

(** X15.  [undo] after an action that saved the history restores the
    project and the step patterns to what they were before the action, and
    [redo] brings back the project and the step patterns the action had
    produced; but neither touches the audio engine or the store's transport
    slice: after [undo], and after [redo], they are as the action left
    them.  So after [removeInstrument] and [undo] the instrument and its
    patterns are back in the project while the engine still has no such
    instrument registered, and a playlist build creates no part for it. *)
Theorem undo_restores_project_only (action : World -> World) (s : Session)
    (instrumentId : string) :
  let s' := Sessions.recorded action s in
  project (store (world (Sessions.undo s'))) = project (store (world s)) /\
  stepSequencerPatterns (store (world (Sessions.undo s'))) =
    stepSequencerPatterns (store (world s)) /\
  audioEngine (world (Sessions.undo s')) = audioEngine (action (world s)) /\
  project (store (world (Sessions.redo (Sessions.undo s')))) =
    project (store (action (world s))) /\
  stepSequencerPatterns (store (world (Sessions.redo (Sessions.undo s')))) =
    stepSequencerPatterns (store (action (world s))) /\
  audioEngine (world (Sessions.redo (Sessions.undo s'))) =
    audioEngine (action (world s)) /\
  transport (store (world (Sessions.undo s'))) = transport (store (action (world s))) /\
  transport (store (world (Sessions.redo (Sessions.undo s')))) =
    transport (store (action (world s))) /\
  (let undone := Sessions.undo (Sessions.removeInstrument instrumentId s) in
   project (store (world undone)) = project (store (world s)) /\
   instruments (audioEngine (world undone)) !! instrumentId = None /\
   forall tracks patterns bpm part,
     In part (playlistParts (schedulePlaylist tracks patterns bpm
                               (audioEngine (world undone)))) ->
     pp_instrument part <> instrumentId).
Proof.
  assert (Hundo : forall act,
    exists h1,
      Sessions.undo (Sessions.recorded act s) =
        mkSession (restoreHistoryState (currentHistoryState (world s)) (act (world s))) h1 /\
      exists rest, redoStack h1 = rest ++ [currentHistoryState (act (world s))]).
  { intros act. unfold Sessions.undo, Sessions.recorded, Sessions.saveHistory. simpl.
    destruct (saveState_top (currentHistoryState (world s)) (historyManager s))
      as (rest & Hu & Hr).
    unfold History.undo. rewrite Hu, Hr, List.length_app. simpl.
    rewrite Nat.add_1_r. simpl. rewrite last_snoc.
    eexists. split; [reflexivity|]. simpl. now exists []. }
  assert (Hredo : forall act,
    world (Sessions.redo (Sessions.undo (Sessions.recorded act s))) =
    restoreHistoryState (currentHistoryState (act (world s)))
      (restoreHistoryState (currentHistoryState (world s)) (act (world s)))).
  { intros act. destruct (Hundo act) as (h1 & -> & rest & Hr).
    unfold Sessions.redo, History.redo. simpl. rewrite Hr, List.length_app. simpl.
    rewrite Nat.add_1_r. simpl. rewrite last_snoc. reflexivity. }
  cbv zeta. split; [|split; [|split; [|split; [|split; [|split; [|split; [|split]]]]]]].
  - destruct (Hundo action) as (h1 & -> & _). reflexivity.
  - destruct (Hundo action) as (h1 & -> & _). reflexivity.
  - destruct (Hundo action) as (h1 & -> & _). reflexivity.
  - rewrite Hredo. reflexivity.
  - rewrite Hredo. reflexivity.
  - rewrite Hredo. reflexivity.
  - destruct (Hundo action) as (h1 & -> & _). reflexivity.
  - rewrite Hredo. reflexivity.
  - destruct (Hundo (Store.removeInstrument instrumentId)) as (h1 & Heq & _).
    unfold Sessions.removeInstrument. rewrite Heq. simpl.
    assert (Hgone : instruments
                      (Engine.removeInstrument instrumentId (audioEngine (world s)))
                    !! instrumentId = None)
      by apply removeInstrument_unregisters.
    split; [reflexivity|]. split; [exact Hgone|].
    intros tracks patterns bpm part Hin Hkey.
    apply schedulePlaylist_part_instrument in Hin.
    rewrite Hkey, Hgone in Hin. now destruct Hin.
Qed.

(** ** Removing what was added *)

Section RoundTrips.

Lemma updateFirst_twice {A : Type} (pred : A -> bool) (f g : A -> A) (l : list A) :
  (forall x, pred (f x) = pred x) ->
  updateFirst pred g (updateFirst pred f l) = updateFirst pred (fun x => g (f x)) l.
Proof.
  intros Hf. induction l as [|x l IH]; simpl; [reflexivity|].
  destruct (pred x) eqn:E; simpl.
  - now rewrite Hf, E.
  - now rewrite E, IH.
Qed.

Lemma filter_snoc_fresh {A : Type} (keep : A -> bool) (l : list A) (x : A) :
  keep x = false -> List.Forall (fun y => keep y = true) l ->
  List.filter keep (l ++ [x]) = l.
Proof.
  intros Hx Hl. rewrite List.filter_app. simpl. rewrite Hx, List.app_nil_r.
  now apply filter_all_true.
Qed.

Lemma filter_sortInsert_front (keep : AutomationPoint -> bool) x pts :
  keep x = true ->
  (forall y, In y pts -> keep y = true -> ap_time x <= ap_time y) ->
  List.filter keep (sortInsert byTime x pts) = x :: List.filter keep pts.
Proof.
  intros Hx. induction pts as [|y pts IH]; intros Hle; simpl.
  - now rewrite Hx.
  - destruct (Qle_bool (byTime x y) 0) eqn:E; simpl.
    + now rewrite Hx.
    + destruct (keep y) eqn:Hy.
      * exfalso. assert (H : ap_time x <= ap_time y) by (apply Hle; [now left | exact Hy]).
        apply byTime_le in H. congruence.
      * apply IH. intros z Hz. apply Hle. now right.
Qed.

Lemma filter_sorted_insert (keep : AutomationPoint -> bool) p pts :
  keep p = false -> List.Forall (fun y => keep y = true) pts -> sortedByTime pts ->
  List.filter keep (jsSort byTime (pts ++ [p])) = pts.
Proof.
  intros Hp Hkeep Hs. induction pts as [|x pts IH].
  - simpl. now rewrite Hp.
  - inversion Hkeep as [|? ? Hx Hrest]; subst.
    change (jsSort byTime ((x :: pts) ++ [p]))
      with (sortInsert byTime x (jsSort byTime (pts ++ [p]))).
    rewrite filter_sortInsert_front; [|exact Hx|].
    + rewrite IH; [reflexivity | exact Hrest | now apply sortedByTime_tail in Hs].
    + intros y Hy Hky. apply jsSort_In in Hy. apply List.in_app_or in Hy.
      destruct Hy as [Hy | [<- | []]]; [|congruence].
      now apply (sorted_head_le_all pts x y).
Qed.

End RoundTrips.

(** X16.  Removing the note that was just added restores the store: when
    the id drawn for the new note is not the id of a note already in the
    pattern, [removeNote] after [addNote] gives back the world as it
    was. *)
Theorem addNote_removeNote_roundtrip (newId patternId : string) (note : NoteFields)
    (w : World) :
  (forall pattern, findPattern patternId w = Some pattern ->
     List.Forall (fun n => mn_id n <> newId) (notes pattern)) ->
  StoreMore.removeNote patternId newId (Store.addNote newId patternId note w) = w.
Proof.
  intros Hfresh. unfold StoreMore.removeNote, Store.addNote. simpl.
  rewrite updateFirst_twice by reflexivity.
  rewrite updateFirst_same.
  - destruct w as [[[] tr ssp] eng]. reflexivity.
  - intros pattern Hfind. specialize (Hfresh pattern Hfind). simpl.
    rewrite filter_snoc_fresh.
    + now destruct pattern.
    + simpl. now rewrite String.eqb_refl.
    + eapply List.Forall_impl; [|exact Hfresh]. simpl. intros n Hn.
      apply negb_true_iff. now apply String.eqb_neq.
Qed.

Lemma addNote_removeNote_roundtrip_witness :
  StoreMore.removeNote "p-lead" "n3"
    (Store.addNote "n3" "p-lead" (mkNoteFields "E4" 2 1 90) bandWorld) = bandWorld.
Proof.
  apply (addNote_removeNote_roundtrip "n3" "p-lead" (mkNoteFields "E4" 2 1 90) bandWorld).
  intros pattern Hfind. vm_compute in Hfind. injection Hfind as <-.
  repeat constructor. discriminate.
Defined.

(** X17.  Removing the automation point that was just added restores the
    store: when the lane found is sorted by time and the id drawn for the
    new point is not the id of a point already in the lane,
    [removeAutomationPoint] after [addAutomationPoint] gives back the world
    as it was, wherever the sort had put the new point. *)
Theorem addPoint_removePoint_roundtrip (newId laneId : string) (time value : Q)
    (curve : Curve) (w : World) :
  (forall lane, findLane laneId w = Some lane ->
     sortedByTime (points lane) /\
     List.Forall (fun p => ap_id p <> newId) (points lane)) ->
  Store.removeAutomationPoint laneId newId
    (snd (Store.addAutomationPoint newId laneId time value curve w)) = w.
Proof.
  intros Hlane. unfold Store.removeAutomationPoint, Store.addAutomationPoint. simpl.
  rewrite updateFirst_twice by reflexivity.
  rewrite updateFirst_same.
  - destruct w as [[[] tr ssp] eng]. reflexivity.
  - intros lane Hfind. destruct (Hlane lane Hfind) as (Hs & Hfresh). simpl.
    rewrite filter_sorted_insert.
    + now destruct lane.
    + simpl. now rewrite String.eqb_refl.
    + eapply List.Forall_impl; [|exact Hfresh]. simpl. intros p Hp.
      apply negb_true_iff. now apply String.eqb_neq.
    + exact Hs.
Qed.

Lemma addPoint_removePoint_roundtrip_witness :
  Store.removeAutomationPoint "lane-t" "new"
    (snd (Store.addAutomationPoint "new" "lane-t" (-1) (3 # 2) Step bandWorld)) = bandWorld.
Proof.
  apply (addPoint_removePoint_roundtrip "new" "lane-t" (-1) (3 # 2) Step bandWorld).
  intros lane Hfind. vm_compute in Hfind. injection Hfind as <-.
  split; repeat constructor. discriminate.
Defined.

(** ** Removing a pattern *)

Lemma optEqb_false o x : optEqb o x = false <-> o <> Some x.
Proof.
  destruct o as [s|]; simpl.
  - rewrite String.eqb_neq. split; [congruence | intros H E; apply H; now f_equal].
  - split; [discriminate | reflexivity].
Qed.

(** X18.  [removePattern] cascades to the clips: afterwards the patterns
    are exactly the former patterns with another id, every track is still
    there with, as clips, exactly its former clips that do not name the
    removed pattern, and the view no longer selects it.  No clip is left
    pointing at the removed pattern. *)
Theorem removePattern_cascades (removedId : string) (w : World) (view : ViewState) :
  let w' := fst (StoreMore.removePattern removedId (w, view)) in
  let view' := snd (StoreMore.removePattern removedId (w, view)) in
  (forall p, In p (proj_patterns (project (store w'))) <->
             In p (proj_patterns (project (store w))) /\ pat_id p <> removedId) /\
  Forall2
    (fun track track' =>
       track' = setClips (clips track') track /\
       forall c, In c (clips track') <->
                 In c (clips track) /\ patternId c <> Some removedId)
    (proj_tracks (project (store w))) (proj_tracks (project (store w'))) /\
  selectedPatternId view' <> Some removedId /\
  audioEngine w' = audioEngine w.
Proof.
  cbv zeta. simpl. split; [|split; [|split]].
  - intros p. rewrite List.filter_In, negb_true_iff, String.eqb_neq. reflexivity.
  - induction (proj_tracks (project (store w))) as [|t ts IH]; simpl; constructor.
    + split; [reflexivity|]. intros c. simpl.
      rewrite List.filter_In, negb_true_iff, optEqb_false. reflexivity.
    + exact IH.
  - destruct (optEqb (selectedPatternId view) removedId) eqn:E; simpl.
    + discriminate.
    + now apply optEqb_false.
  - reflexivity.
Qed.

(** ** Offline rendering *)

Section Offline.

Lemma offlineScheduleClip_appends patterns bpm synth clip ctx :
  offlineSchedule (offlineScheduleClip patterns bpm synth clip ctx) =
    offlineSchedule ctx ++ offlineClipEvents patterns bpm synth clip /\
  offlineInstruments (offlineScheduleClip patterns bpm synth clip ctx) =
    offlineInstruments ctx.
Proof.
  unfold offlineScheduleClip, offlineClipEvents.
  destruct (List.find _ patterns) as [pattern|].
  2:{ now rewrite List.app_nil_r. }
  generalize (notes pattern). intros ns. revert ctx.
  induction ns as [|n ns IH]; intros ctx.
  { simpl. now rewrite List.app_nil_r. }
  rewrite forEach_cons. destruct (IH (offlineScheduleNote bpm synth clip n ctx)) as (H1 & H2).
  rewrite H1, H2. simpl. now rewrite <- List.app_assoc.
Qed.

Lemma offlineScheduleClips_appends patterns bpm synth cs ctx :
  offlineSchedule (forEach (offlineScheduleClip patterns bpm synth) cs ctx) =
    offlineSchedule ctx ++ List.flat_map (offlineClipEvents patterns bpm synth) cs /\
  offlineInstruments (forEach (offlineScheduleClip patterns bpm synth) cs ctx) =
    offlineInstruments ctx.
Proof.
  revert ctx. induction cs as [|c cs IH]; intros ctx.
  { simpl. now rewrite List.app_nil_r. }
  rewrite forEach_cons.
  destruct (IH (offlineScheduleClip patterns bpm synth c ctx)) as (H1 & H2).
  destruct (offlineScheduleClip_appends patterns bpm synth c ctx) as (H3 & H4).
  rewrite H1, H2, H3, H4. simpl. now rewrite <- List.app_assoc.
Qed.

Lemma offlineScheduleTrack_appends patterns bpm track ctx :
  offlineSchedule (offlineScheduleTrack patterns bpm track ctx) =
    offlineSchedule ctx ++ offlineTrackEvents patterns bpm track /\
  offlineInstruments ctx ⊆ offlineInstruments (offlineScheduleTrack patterns bpm track ctx) /\
  (forall ev, In ev (offlineTrackEvents patterns bpm track) ->
     oe_synth ev ∈ offlineInstruments (offlineScheduleTrack patterns bpm track ctx)).
Proof.
  unfold offlineScheduleTrack, offlineTrackEvents.
  destruct (mute track || negb (truthy (track_instrumentId track))).
  { rewrite List.app_nil_r. split; [reflexivity|]. split; [reflexivity|]. intros ev []. }
  set (synth := orEmpty (track_instrumentId track)).
  set (ctx1 := if bool_decide (synth ∈ offlineInstruments ctx) then ctx
               else mkOfflineContext ({[synth]} ∪ offlineInstruments ctx)
                      (offlineSchedule ctx) (offlineBpm ctx) (offlineState ctx)).
  assert (H1 : offlineSchedule ctx1 = offlineSchedule ctx)
    by (subst ctx1; now destruct (bool_decide _)).
  assert (H2 : offlineInstruments ctx ⊆ offlineInstruments ctx1).
  { subst ctx1. destruct (bool_decide _); simpl; set_solver. }
  assert (H3 : synth ∈ offlineInstruments ctx1).
  { subst ctx1. destruct (bool_decide (synth ∈ offlineInstruments ctx)) eqn:E.
    - now apply bool_decide_eq_true in E.
    - simpl. set_solver. }
  destruct (offlineScheduleClips_appends patterns bpm synth (clips track) ctx1) as (H4 & H5).
  rewrite H4, H5, H1. split; [reflexivity|]. split; [exact H2|].
  intros ev Hin. apply List.in_flat_map in Hin. destruct Hin as (clip & _ & Hin).
  unfold offlineClipEvents in Hin. destruct (List.find _ patterns); [|destruct Hin].
  apply List.in_map_iff in Hin. destruct Hin as (n & <- & _). exact H3.
Qed.

Lemma offlineScheduleTracks_appends patterns bpm tracks ctx :
  let ctx' := forEach (offlineScheduleTrack patterns bpm) tracks ctx in
  offlineSchedule ctx' =
    offlineSchedule ctx ++ List.flat_map (offlineTrackEvents patterns bpm) tracks /\
  offlineInstruments ctx ⊆ offlineInstruments ctx' /\
  (forall ev, In ev (List.flat_map (offlineTrackEvents patterns bpm) tracks) ->
     oe_synth ev ∈ offlineInstruments ctx').
Proof.
  revert ctx. induction tracks as [|t ts IH]; intros ctx.
  { cbv zeta. simpl. rewrite List.app_nil_r. split; [reflexivity|].
    split; [reflexivity|]. intros ev []. }
  cbv zeta. rewrite forEach_cons.
  destruct (offlineScheduleTrack_appends patterns bpm t ctx) as (H1 & H2 & H3).
  destruct (IH (offlineScheduleTrack patterns bpm t ctx)) as (H4 & H5 & H6).
  cbv zeta in *. rewrite H4, H1. simpl. rewrite <- List.app_assoc.
  split; [reflexivity|].
  split; [transitivity (offlineInstruments (offlineScheduleTrack patterns bpm t ctx));
          assumption|].
  intros ev Hin. apply List.in_app_or in Hin. destruct Hin as [Hin | Hin].
  - apply H5. now apply H3.
  - now apply H6.
Qed.

Lemma flat_map_single {A B : Type} (g : A -> B) (l : list A) :
  List.flat_map (fun x => [g x]) l = List.map g l.
Proof. induction l as [|x l IH]; simpl; [reflexivity | now rewrite IH]. Qed.

Lemma find_never {A : Type} (l : list A) : List.find (fun _ => false) l = None.
Proof. induction l; simpl; auto. Qed.

Lemma scheduledNotes_of_parts e :
  scheduledNotes e =
  List.flat_map (fun part => List.map (pair (pp_instrument part)) (pp_events part))
    (playlistParts e).
Proof. reflexivity. Qed.

Lemma clip_renders_alike e patterns bpm track clip :
  truthy (track_instrumentId track) = true ->
  is_Some (instruments e !! orEmpty (track_instrumentId track)) ->
  truthy (audioBufferId clip) = false -> patternId clip <> Some ""%string ->
  List.flat_map (fun part => List.map (pair (pp_instrument part)) (pp_events part))
    (clipParts e patterns bpm track clip) =
  List.map offlineAsPartEvent
    (offlineClipEvents patterns bpm (orEmpty (track_instrumentId track)) clip).
Proof.
  intros Htruthy [inst Hinst] Haudio Hpat. unfold clipParts, offlineClipEvents.
  rewrite Haudio, Hinst.
  destruct (patternId clip) as [s|] eqn:Hp.
  - assert (truthy (Some s) = true) as ->.
    { simpl. apply negb_true_iff, String.eqb_neq. congruence. }
    destruct (List.find _ patterns) as [pattern|]; [|reflexivity].
    rewrite (forEach_push (pushClipNote bpm clip)
               (fun n => [mkClipNoteEvent
                            (beatsToSeconds bpm (clip_startTime clip + mn_startTime n))
                            (mn_note n) (beatsToSeconds bpm (mn_duration n))
                            (mn_velocity n / 127)])) by reflexivity.
    rewrite List.app_nil_l, flat_map_single.
    destruct (notes pattern) as [|n ns]; [reflexivity|].
    cbn [List.map length Nat.ltb Nat.leb List.flat_map pp_events pp_instrument].
    rewrite List.app_nil_r, !List.map_map. reflexivity.
  - simpl. now rewrite find_never.
Qed.

End Offline.

Lemma track_renders_alike e patterns bpm track :
  rendersAlike e track ->
  List.flat_map (fun part => List.map (pair (pp_instrument part)) (pp_events part))
    (trackParts e patterns bpm track) =
  List.map offlineAsPartEvent (offlineTrackEvents patterns bpm track).
Proof.
  intros Htrack. unfold offlineTrackEvents, trackParts, rendersAlike in *.
  destruct (mute track); [reflexivity|].
  destruct (Htrack eq_refl) as (Htruthy & Hinst & Hclips).
  rewrite Htruthy. cbn [negb orb].
  revert Hclips. generalize (clips track). intros cs0 Hclips.
  induction Hclips as [|clip cs (Haudio & Hpat) _ IHc]; [reflexivity|].
  cbn [List.flat_map]. rewrite List.map_app, List.flat_map_app, IHc. f_equal.
  now apply clip_renders_alike.
Qed.

(** X19.  The offline render is handed the notes the realtime playlist
    build is handed, for tracks the two treat alike: when every unmuted
    track is bound to an instrument registered in the engine and holds only
    pattern clips, the calls the offline render makes on its transport
    carry, in the same order, exactly the instrument, note, velocity,
    duration and time argument of the events in the realtime parts.  (This
    compares what the two paths hand to their schedulers, not when the
    schedulers fire: the offline transport's tempo is set only after the
    events were handed over.) *)
Theorem offline_handed_realtime_events (tracks : list Track) (patterns : list Pattern)
    (bpm duration : Q) (e : AudioEngine) :
  List.Forall (rendersAlike e) tracks ->
  List.map offlineAsPartEvent
    (offlineSchedule (fst (renderOffline tracks patterns bpm duration))) =
  scheduledNotes (schedulePlaylist tracks patterns bpm e).
Proof.
  intros Halike. unfold renderOffline. cbn [fst offlineSchedule].
  destruct (offlineScheduleTracks_appends patterns bpm tracks
              (mkOfflineContext ∅ [] defaultBpm Stopped)) as (Hsched & _).
  cbv zeta in Hsched. rewrite Hsched. clear Hsched. cbn [offlineSchedule List.app].
  rewrite scheduledNotes_of_parts, schedulePlaylist_parts.
  induction Halike as [|track tracks Htrack _ IH]; [reflexivity|].
  cbn [List.flat_map]. rewrite List.map_app, List.flat_map_app, IH. f_equal.
  symmetry. now apply track_renders_alike.
Qed.

Lemma offline_handed_realtime_events_witness :
  List.map offlineAsPartEvent
    (offlineSchedule
       (fst (renderOffline [leadTrack; bassTrack] [leadPattern; bassPattern] 120 10))) =
  scheduledNotes
    (schedulePlaylist [leadTrack; bassTrack] [leadPattern; bassPattern] 120 bandEngine).
Proof.
  apply (offline_handed_realtime_events [leadTrack; bassTrack] [leadPattern; bassPattern]
           120 10 bandEngine).
  repeat constructor; try discriminate; vm_compute; eauto.
Defined.

Lemma renderOffline_events tracks patterns bpm duration :
  offlineSchedule (fst (renderOffline tracks patterns bpm duration)) =
  List.flat_map (offlineTrackEvents patterns bpm) tracks.
Proof.
  unfold renderOffline. cbn [fst offlineSchedule].
  destruct (offlineScheduleTracks_appends patterns bpm tracks
              (mkOfflineContext ∅ [] defaultBpm Stopped)) as (Hsched & _).
  cbv zeta in *. now rewrite Hsched.
Qed.

(** X20.  An offline render creates a synth for every instrument it plays:
    each event it schedules triggers a synth that is in the render's own
    instrument map, and its schedule is, track by track, the notes of the
    pattern clips of the unmuted tracks that have an instrument - whatever
    is registered in the realtime engine. *)
Theorem renderOffline_schedule (tracks : list Track) (patterns : list Pattern)
    (bpm duration : Q) :
  let ctx := fst (renderOffline tracks patterns bpm duration) in
  offlineSchedule ctx = List.flat_map (offlineTrackEvents patterns bpm) tracks /\
  List.Forall (fun ev => oe_synth ev ∈ offlineInstruments ctx) (offlineSchedule ctx) /\
  snd (renderOffline tracks patterns bpm duration) = duration.
Proof.
  cbv zeta. unfold renderOffline. cbn [fst snd offlineSchedule offlineInstruments].
  destruct (offlineScheduleTracks_appends patterns bpm tracks
              (mkOfflineContext ∅ [] defaultBpm Stopped)) as (Hsched & _ & Hsynth).
  cbv zeta in *. rewrite Hsched. cbn [offlineSchedule List.app].
  split; [reflexivity|]. split; [|reflexivity].
  apply List.Forall_forall. exact Hsynth.
Qed.

(** ** WAV export *)

Section WavExport.

Lemma forEach_inflationary {A : Type} (f : A -> Q -> Q) :
  (forall x s, s <= f x s) -> forall l s, s <= forEach f l s.
Proof.
  intros Hf l. induction l as [|x l IH]; intros s; [apply Qle_refl|].
  rewrite forEach_cons. eapply Qle_trans; [apply Hf | apply IH].
Qed.

Lemma forEach_reaches {A : Type} (f : A -> Q -> Q) (l : list A) (x : A) (b : Q) :
  (forall y s, s <= f y s) -> In x l -> (forall s, b <= f x s) ->
  forall s, b <= forEach f l s.
Proof.
  intros Hf Hin Hb. induction l as [|y l IH]; intros s; [destruct Hin|].
  rewrite forEach_cons. destruct Hin as [-> | Hin].
  - eapply Qle_trans; [apply Hb | now apply forEach_inflationary].
  - now apply IH.
Qed.

Lemma maxEndNote_ge clip note m : m <= maxEndNote clip note m.
Proof.
  unfold maxEndNote.
  destruct (Qle_bool _ m) eqn:E; simpl; [apply Qle_refl|].
  apply Qle_bool_false in E. now apply Qlt_le_weak.
Qed.

Lemma maxEndNote_covers clip note m :
  clip_startTime clip + mn_startTime note + mn_duration note <= maxEndNote clip note m.
Proof.
  unfold maxEndNote.
  destruct (Qle_bool _ m) eqn:E; simpl; [now apply Qle_bool_iff | apply Qle_refl].
Qed.

Lemma maxEndClip_ge patterns clip m : m <= maxEndClip patterns clip m.
Proof.
  unfold maxEndClip. destruct (List.find _ patterns); [|apply Qle_refl].
  apply forEach_inflationary. intros. apply maxEndNote_ge.
Qed.

(** The end of every note of every resolved clip is at most the maximum
    found. *)
Lemma maxEndTimeOf_covers pr track clip pattern note :
  In track (proj_tracks pr) -> In clip (clips track) ->
  List.find (fun p => optEqb (patternId clip) (pat_id p)) (proj_patterns pr) = Some pattern ->
  In note (notes pattern) ->
  clip_startTime clip + mn_startTime note + mn_duration note <= maxEndTimeOf pr.
Proof.
  intros Ht Hc Hp Hn. unfold maxEndTimeOf.
  apply (forEach_reaches _ _ track); [| exact Ht |].
  - intros t s. apply forEach_inflationary. intros. apply maxEndClip_ge.
  - intros s. apply (forEach_reaches _ _ clip); [| exact Hc |].
    + intros. apply maxEndClip_ge.
    + intros s'. unfold maxEndClip. rewrite Hp.
      apply (forEach_reaches _ _ note); [| exact Hn |].
      * intros. apply maxEndNote_ge.
      * intros. apply maxEndNote_covers.
Qed.

Lemma hasNotes_false_no_events pr track :
  hasNotes pr = false -> In track (proj_tracks pr) ->
  offlineTrackEvents (proj_patterns pr) (proj_bpm pr) track = [].
Proof.
  intros Hno Ht. unfold hasNotes in Hno. unfold offlineTrackEvents.
  destruct (mute track || negb (truthy (track_instrumentId track))); [reflexivity|].
  assert (Hclips : List.existsb
            (fun c =>
               match List.find (fun p => optEqb (patternId c) (pat_id p))
                       (proj_patterns pr) with
               | Some pattern => Nat.ltb 0 (length (notes pattern))
               | None => false
               end) (clips track) = false).
  { destruct (List.existsb _ (clips track)) eqn:E; [|reflexivity].
    rewrite <- Hno. symmetry. apply List.existsb_exists. eauto. }
  induction (clips track) as [|c cs IH]; [reflexivity|].
  simpl in Hclips. apply orb_false_iff in Hclips. destruct Hclips as (Hc & Hcs).
  simpl. rewrite (IH Hcs), List.app_nil_r.
  unfold offlineClipEvents. destruct (List.find _ (proj_patterns pr)) as [pattern|];
    [|reflexivity].
  destruct (notes pattern); [reflexivity | discriminate Hc].
Qed.

End WavExport.

Lemma hasNotes_resolves pr :
  hasNotes pr = true <->
  exists track clip pattern, resolvesTo pr track clip pattern /\ notes pattern <> [].
Proof.
  unfold hasNotes, resolvesTo. rewrite List.existsb_exists. split.
  - intros (track & Ht & Hex). apply List.existsb_exists in Hex.
    destruct Hex as (clip & Hc & Hp).
    destruct (List.find _ (proj_patterns pr)) as [pattern|] eqn:Hfind; [|discriminate Hp].
    exists track, clip, pattern. split; [now repeat split|].
    destruct (notes pattern); [discriminate Hp | discriminate].
  - intros (track & clip & pattern & (Ht & Hc & Hfind) & Hnotes).
    exists track. split; [exact Ht|]. apply List.existsb_exists.
    exists clip. split; [exact Hc|]. rewrite Hfind.
    destruct (notes pattern); [contradiction | reflexivity].
Qed.

Lemma maxEndTimeOf_nonneg pr : 0 <= maxEndTimeOf pr.
Proof.
  unfold maxEndTimeOf. apply forEach_inflationary.
  intros track m. apply forEach_inflationary. intros. apply maxEndClip_ge.
Qed.

(** X21.  What a WAV export asks for.  [handleExportWav] starts no render
    while an export is running, and none when no clip of the project
    resolves to a pattern with a note - in which case an offline render
    would have been handed no event.  Otherwise it calls [renderOffline]
    with the project's tracks, patterns and tempo and a duration of
    [(60 / bpm) * (maxEnd + 2)] seconds, where [maxEnd >= 0] is at least
    the end, in beats, of every note of every resolved clip: for
    [bpm > 0] the duration asked for is at least the end of every note plus
    two beats, converted at the project's tempo.  (This is the duration the
    render is asked for, not a statement on when the render sounds its
    events.) *)
Theorem exportWav_request (pr : Project) :
  0 < proj_bpm pr ->
  handleExportWav true pr = None /\
  (handleExportWav false pr = None <->
   forall track clip pattern, resolvesTo pr track clip pattern -> notes pattern = []) /\
  (handleExportWav false pr = None ->
   forall duration,
     offlineSchedule
       (fst (renderOffline (proj_tracks pr) (proj_patterns pr) (proj_bpm pr) duration)) = []) /\
  (forall ctx duration,
     handleExportWav false pr = Some (ctx, duration) ->
     (ctx, duration) =
       renderOffline (proj_tracks pr) (proj_patterns pr) (proj_bpm pr) duration /\
     exists maxEnd,
       duration = (60 / proj_bpm pr) * (maxEnd + 2) /\
       0 <= maxEnd /\
       forall track clip pattern note,
         resolvesTo pr track clip pattern -> In note (notes pattern) ->
         clip_startTime clip + mn_startTime note + mn_duration note <= maxEnd /\
         (60 / proj_bpm pr) *
           (clip_startTime clip + mn_startTime note + mn_duration note + 2) <= duration).
Proof.
  intros Hbpm.
  assert (Hk : 0 < 60 / proj_bpm pr).
  { apply Qlt_shift_div_l; [exact Hbpm|]. rewrite Qmult_0_l. reflexivity. }
  assert (Hguard : handleExportWav false pr = None <-> hasNotes pr = false).
  { unfold handleExportWav. destruct (hasNotes pr); simpl; split; congruence. }
  split; [reflexivity|]. split; [|split].
  - rewrite Hguard. split.
    + intros Hno track clip pattern Hres.
      destruct (notes pattern) as [|n ns] eqn:Hnotes; [reflexivity|]. exfalso.
      assert (Hyes : hasNotes pr = true).
      { apply hasNotes_resolves. exists track, clip, pattern.
        split; [exact Hres|]. now rewrite Hnotes. }
      congruence.
    + intros Hall. destruct (hasNotes pr) eqn:Hyes; [|reflexivity]. exfalso.
      apply hasNotes_resolves in Hyes.
      destruct Hyes as (track & clip & pattern & Hres & Hnotes).
      apply Hnotes. now apply (Hall track clip pattern).
  - intros Hnone duration. apply Hguard in Hnone.
    rewrite renderOffline_events.
    assert (Hall : forall track, In track (proj_tracks pr) ->
              offlineTrackEvents (proj_patterns pr) (proj_bpm pr) track = [])
      by (intros; now apply hasNotes_false_no_events).
    revert Hall. generalize (proj_tracks pr). intros ts Hall.
    induction ts as [|t' ts' IH']; [reflexivity|].
    simpl. rewrite (Hall t') by now left. apply IH'. intros. apply Hall. now right.
  - intros ctx duration Hexp. unfold handleExportWav in Hexp.
    destruct (hasNotes pr); [|discriminate Hexp]. simpl in Hexp.
    assert (Hrun : renderOffline (proj_tracks pr) (proj_patterns pr) (proj_bpm pr)
                     (60 / proj_bpm pr * (maxEndTimeOf pr + 2)) = (ctx, duration))
      by congruence.
    clear Hexp.
    assert (Hdur : duration = 60 / proj_bpm pr * (maxEndTimeOf pr + 2))
      by (now apply (f_equal snd) in Hrun).
    split; [rewrite <- Hrun, Hdur; reflexivity|].
    exists (maxEndTimeOf pr). split; [exact Hdur|].
    split; [apply maxEndTimeOf_nonneg|].
    intros track clip pattern note (Ht & Hc & Hp) Hn.
    pose proof (maxEndTimeOf_covers pr track clip pattern note Ht Hc Hp Hn) as Hmax.
    split; [exact Hmax|]. rewrite Hdur.
    apply Qmult_le_l; [exact Hk | lra].
Qed.

Lemma exportWav_request_witness :
  0 < proj_bpm bandProject /\
  (handleExportWav false bandProject = None <->
   forall track clip pattern,
     resolvesTo bandProject track clip pattern -> notes pattern = []).
Proof.
  split; [reflexivity|].
  exact (proj1 (proj2 (exportWav_request bandProject eq_refl))).
Defined.

(** ** The piano roll keeps notes in range *)

Section PianoRollEdits.

Lemma addNote_keeps_invariant newId patternId note w :
  0 <= nf_velocity note -> nf_velocity note <= 127 -> 0 < nf_duration note ->
  notesInvariant w -> notesInvariant (Store.addNote newId patternId note w).
Proof.
  intros H0 H127 Hd Hinv. unfold notesInvariant. simpl.
  apply updateFirst_Forall; [|exact Hinv].
  intros pattern Hp. simpl. apply List.Forall_app. split; [exact Hp|].
  constructor; [|constructor]. now repeat split.
Qed.

Lemma updateNote_keeps_invariant patternId noteId updates w :
  (forall v, nu_velocity updates = Some v -> 0 <= v /\ v <= 127) ->
  (forall d, nu_duration updates = Some d -> 0 < d) ->
  notesInvariant w -> notesInvariant (Store.updateNote patternId noteId updates w).
Proof.
  intros Hv Hd Hinv. unfold notesInvariant. simpl.
  apply updateFirst_Forall; [|exact Hinv].
  intros pattern Hp. simpl. apply updateFirst_Forall; [|exact Hp].
  intros n. now apply assignNote_invariant.
Qed.

Lemma updateDragged_keeps_invariant pattern dragState updates w :
  (forall v, nu_velocity updates = Some v -> 0 <= v /\ v <= 127) ->
  (forall d, nu_duration updates = Some d -> 0 < d) ->
  notesInvariant w -> notesInvariant (PianoRoll.updateDragged pattern dragState updates w).
Proof.
  intros Hv Hd Hinv. unfold PianoRoll.updateDragged.
  destruct (ds_noteId dragState); [|exact Hinv].
  now apply updateNote_keeps_invariant.
Qed.

Lemma getSnapBeats_pos snapValue : 0 < PianoRoll.getSnapBeats snapValue.
Proof.
  unfold PianoRoll.getSnapBeats, PianoRoll.snapMap.
  repeat (destruct (String.eqb snapValue _); [reflexivity|]). reflexivity.
Qed.

Lemma mathRound_velocity v :
  1 <= v -> v <= 127 -> 1 <= inject_Z (mathRound v) /\ inject_Z (mathRound v) <= 127.
Proof.
  intros H1 H127. unfold mathRound. split.
  - change 1 with (inject_Z 1). rewrite <- Zle_Qle.
    assert (H : (3 # 2) <= v + (1 # 2)) by lra.
    exact (Qfloor_resp_le (3 # 2) (v + (1 # 2)) H).
  - change 127 with (inject_Z 127). rewrite <- Zle_Qle.
    assert (H : v + (1 # 2) <= (255 # 2)) by lra.
    exact (Qfloor_resp_le (v + (1 # 2)) (255 # 2) H).
Qed.

End PianoRollEdits.

(** X22.  The piano roll only ever writes notes that are in range.  With
    a positive beat width (a zero width divides by zero in the source),
    drawing a note with the pencil, dragging or
    resizing a note, and dragging its velocity bar all keep every stored
    note at a velocity in [0,127] and a positive duration: a drawn note is
    one snap unit long at velocity 100, a resize never goes below one snap
    unit, and the velocity written is a whole number between 1 and 127. *)
Theorem pianoRoll_edits_keep_notes_in_range (w : World) (beatWidth : Q) :
  0 < beatWidth ->
  notesInvariant w ->
  (forall newId selectedPattern tool snapValue x y,
     notesInvariant
       (PianoRoll.handleGridClick newId selectedPattern tool snapValue beatWidth x y w)) /\
  (forall dragState selectedPattern snapValue clientX clientY,
     notesInvariant
       (PianoRoll.handleMouseMove dragState selectedPattern snapValue beatWidth
          clientX clientY w)) /\
  (forall dragState selectedPattern clientY,
     notesInvariant (PianoRoll.handleVelocityMouseMove dragState selectedPattern clientY w)) /\
  (forall dragState pattern originalNote clientY noteId,
     ds_type dragState = Some DragVelocity ->
     ds_originalNote dragState = Some originalNote ->
     ds_noteId dragState = Some noteId ->
     exists velocity : Z,
       (1 <= velocity <= 127)%Z /\
       PianoRoll.handleVelocityMouseMove dragState (Some pattern) clientY w =
       Store.updateNote (pat_id pattern) noteId
         (mkNoteUpdates None None None None (Some (inject_Z velocity))) w).
Proof.
  intros _ Hinv. split; [|split; [|split]].
  - intros newId [pattern|] tool snapValue x y; [|exact Hinv].
    unfold PianoRoll.handleGridClick. destruct tool; try exact Hinv.
    cbv zeta. apply addNote_keeps_invariant; simpl; try exact Hinv;
      try apply getSnapBeats_pos; try discriminate.
  - intros dragState selectedPattern snapValue clientX clientY.
    unfold PianoRoll.handleMouseMove.
    destruct (ds_type dragState) as [dragType|]; [|exact Hinv].
    destruct (ds_originalNote dragState) as [originalNote|]; [|exact Hinv].
    destruct selectedPattern as [pattern|]; [|exact Hinv].
    cbv zeta. destruct dragType; [| |exact Hinv].
    + apply updateDragged_keeps_invariant; [| |exact Hinv]; simpl; intros ? [=].
    + apply updateDragged_keeps_invariant; [| |exact Hinv]; simpl; intros ? [=]. subst.
      eapply Qlt_le_trans; [apply (getSnapBeats_pos snapValue) | apply Q.le_max_l].
  - intros dragState selectedPattern clientY.
    unfold PianoRoll.handleVelocityMouseMove.
    destruct (ds_type dragState) as [[]|]; try exact Hinv.
    destruct (ds_originalNote dragState) as [originalNote|]; [|exact Hinv].
    destruct selectedPattern as [pattern|]; [|exact Hinv].
    cbv zeta. apply updateDragged_keeps_invariant; [| |exact Hinv]; simpl; intros ? [=].
    subst.
    destruct (mathRound_velocity
                (Qmax 1 (Qmin 127 (mn_velocity originalNote + (ds_startY dragState - clientY)))))
      as (Hlo & Hhi).
    + apply Q.le_max_l.
    + apply Q.max_lub; [discriminate | apply Q.le_min_l].
    + split; [|exact Hhi]. eapply Qle_trans; [|exact Hlo]. discriminate.
  - intros dragState pattern originalNote clientY noteId Ht Ho Hn.
    unfold PianoRoll.handleVelocityMouseMove, PianoRoll.updateDragged.
    rewrite Ht, Ho, Hn. cbv zeta.
    eexists. split; [|reflexivity].
    destruct (mathRound_velocity
                (Qmax 1 (Qmin 127 (mn_velocity originalNote + (ds_startY dragState - clientY)))))
      as (Hlo & Hhi).
    + apply Q.le_max_l.
    + apply Q.max_lub; [discriminate | apply Q.le_min_l].
    + change 1 with (inject_Z 1) in Hlo. change 127 with (inject_Z 127) in Hhi.
      rewrite <- Zle_Qle in Hlo, Hhi. split; assumption.
Qed.

Lemma pianoRoll_edits_keep_notes_in_range_witness :
  0 < 40 /\ notesInvariant bandWorld /\
  notesInvariant
    (PianoRoll.handleVelocityMouseMove
       (mkDragState (Some DragVelocity) (Some "n1"%string) 10 200
          (Some (mkNote "n1" "C4" 0 1 100)))
       (Some leadPattern) 20 bandWorld).
Proof.
  assert (H : notesInvariant bandWorld).
  { repeat constructor; unfold Qle, Qlt; simpl; lia. }
  split; [reflexivity|]. split; [exact H|].
  destruct (pianoRoll_edits_keep_notes_in_range bandWorld 40 eq_refl H)
    as (_ & _ & Hvelocity & _).
  apply Hvelocity.
Defined.
